(** * RGCN on ogbn-mag (examples/nodeproppred/mag/rgcn.py)

    A shallow embedding of the full-batch RGCN training script: the two
    modules [RGCNConv] and [RGCN], the functions [train] and [test], and
    [main].  Tensors live in a store and are named by locations, so that
    the in-place operations of the script ([add_], [relu_], the
    initialisers, the optimizer step) and the sharing between
    dictionaries are visible.  The primitives of torch, torch_sparse and
    of the ogb package that the script calls are parameters of the
    development, collected in the classes [Scalar] and [Torch]. *)

From stdpp Require Import base list strings.
From Stdlib Require Import ZArith QArith Qcanon Lia Floats.SpecFloat.

Open Scope Z_scope.
Open Scope string_scope.
Open Scope list_scope.
Open Scope nat_scope.

(** ** Python exceptions and results *)

Inductive exn :=
  | AttributeError
  | KeyError
  | IndexError
  | RuntimeError
  | ZeroDivisionError
  | SystemExit.

Inductive result (A : Type) :=
  | Ok (a : A)
  | Raise (e : exn).
Arguments Ok {A} a.
Arguments Raise {A} e.

Global Instance result_ret : MRet result := @Ok.
Global Instance result_bind : MBind result := λ A B f r,
  match r with
  | Ok a => f a
  | Raise e => Raise e
  end.

(** [range(a, b)] *)
Definition range (a b : Z) : list Z :=
  (λ i, (a + Z.of_nat i)%Z) <$> seq 0 (Z.to_nat (b - a)).

Inductive Device :=
  | cpu
  | cuda (index : Z).

(** ** Python dictionaries

    A [dict] keeps its keys in insertion order; assigning to a key that
    is present keeps the key's position. *)

Abbreviation Dict K V := (list (K * V)%type) (only parsing).

Section Dict.
Context {K : Type} `{EqDecision K} {V : Type}.

Fixpoint dict_get (k : K) (d : Dict K V) : option V :=
  match d with
  | [] => None
  | (k', v) :: d' => if decide (k' = k) then Some v else dict_get k d'
  end.

Fixpoint dict_set (k : K) (v : V) (d : Dict K V) : Dict K V :=
  match d with
  | [] => [(k, v)]
  | (k', v') :: d' =>
      if decide (k' = k) then (k, v) :: d' else (k', v') :: dict_set k v d'
  end.

Definition dict_keys (d : Dict K V) : list K := fst <$> d.
Definition dict_values (d : Dict K V) : list V := snd <$> d.

(** [d[k]], raising [KeyError] *)
Definition getitem (d : Dict K V) (k : K) : result V :=
  match dict_get k d with
  | Some v => Ok v
  | None => Raise KeyError
  end.

Lemma dict_get_set_eq k v d : dict_get k (dict_set k v d) = Some v.
Proof.
  induction d as [|[k' v'] d IH]; simpl.
  - by rewrite decide_True.
  - destruct (decide (k' = k)) as [->|Hne]; simpl.
    + by rewrite decide_True.
    + by rewrite decide_False.
Qed.

Lemma dict_get_set_ne k k' v d :
  k ≠ k' → dict_get k' (dict_set k v d) = dict_get k' d.
Proof.
  intros Hne. induction d as [|[k0 v0] d IH]; simpl.
  - by rewrite decide_False.
  - destruct (decide (k0 = k)) as [->|Hne0]; simpl.
    + by rewrite !decide_False.
    + by rewrite IH.
Qed.

Lemma dict_get_set k k' v d :
  dict_get k' (dict_set k v d) = if decide (k = k') then Some v else dict_get k' d.
Proof.
  destruct (decide (k = k')) as [->|Hne].
  - apply dict_get_set_eq.
  - by apply dict_get_set_ne.
Qed.

Lemma dict_get_Some_keys k v d : dict_get k d = Some v → k ∈ dict_keys d.
Proof.
  induction d as [|[k' v'] d IH]; simpl; [done|].
  destruct (decide (k' = k)) as [->|Hne]; intros Hg.
  - apply list_elem_of_here.
  - apply list_elem_of_further. by apply IH.
Qed.

Lemma dict_get_is_Some k d : k ∈ dict_keys d → is_Some (dict_get k d).
Proof.
  induction d as [|[k' v'] d IH]; simpl.
  - by intros ?%elem_of_nil.
  - destruct (decide (k' = k)) as [->|Hne]; [by eexists|].
    intros [Heq|Hin]%elem_of_cons; [by simplify_eq/=|by apply IH].
Qed.

Lemma dict_get_Some_values k v d : dict_get k d = Some v → v ∈ dict_values d.
Proof.
  induction d as [|[k' v'] d IH]; simpl; [done|].
  destruct (decide (k' = k)) as [->|Hne]; intros Hg.
  - simplify_eq. apply list_elem_of_here.
  - apply list_elem_of_further. by apply IH.
Qed.

Lemma dict_keys_set k v d :
  dict_keys (dict_set k v d) =
    if decide (k ∈ dict_keys d) then dict_keys d else dict_keys d ++ [k].
Proof.
  induction d as [|[k' v'] d IH].
  - cbn [dict_set dict_keys fmap list_fmap fst].
    destruct (decide (k ∈ [])) as [Hin|_]; [by apply elem_of_nil in Hin|done].
  - cbn [dict_set]. destruct (decide (k' = k)) as [->|Hne].
    + unfold dict_keys in *. cbn [fmap list_fmap fst].
      destruct (decide (k ∈ k :: (fst <$> d))) as [_|Hnin]; [done|].
      destruct Hnin. apply list_elem_of_here.
    + unfold dict_keys in *. cbn [fmap list_fmap fst]. rewrite IH.
      destruct (decide (k ∈ fst <$> d)) as [Hin|Hnin];
        destruct (decide (k ∈ k' :: (fst <$> d))) as [Hin'|Hnin']; try done.
      * destruct Hnin'. by apply list_elem_of_further.
      * apply elem_of_cons in Hin' as [?|?]; by simplify_eq.
Qed.

Lemma dict_values_set k v d x :
  x ∈ dict_values (dict_set k v d) → x = v ∨ x ∈ dict_values d.
Proof.
  induction d as [|[k' v'] d IH]; simpl.
  - intros [->|?%elem_of_nil]%elem_of_cons; [by left|done].
  - destruct (decide (k' = k)) as [->|Hne]; simpl.
    + intros [->|Hin]%elem_of_cons; [by left|].
      right. by apply list_elem_of_further.
    + intros [->|Hin]%elem_of_cons.
      * right. apply list_elem_of_here.
      * destruct (IH Hin) as [->|Hin']; [by left|].
        right. by apply list_elem_of_further.
Qed.

Lemma getitem_Ok d k v : getitem d k = Ok v ↔ dict_get k d = Some v.
Proof. unfold getitem. destruct (dict_get k d); naive_solver. Qed.
End Dict.

(** ** Scalars and dense tensors

    The entries of a floating-point tensor are taken from an arbitrary
    type [R] with the operations the script's layers use.  Nothing is
    assumed about them, except where a statement says so ([ExactScalar]). *)

Class Scalar := {
  R : Type;
  rzero : R;
  radd : R → R → R;
  rmul : R → R → R;
  (** division by a count, as in a mean *)
  rdivn : R → nat → R;
  (** [max(x, 0)] *)
  rrelu : R → R;
}.

(** The laws of exact arithmetic that the layers' algebra relies on.
    Floating-point numbers satisfy them only up to rounding. *)
Class ExactScalar `{Scalar} : Prop := {
  radd_comm a b : radd a b = radd b a;
  radd_assoc a b c : radd a (radd b c) = radd (radd a b) c;
  radd_0_l a : radd rzero a = a;
  rmul_0_l a : rmul rzero a = rzero;
  rmul_add_distr_r a b c : rmul (radd a b) c = radd (rmul a c) (rmul b c);
  rdivn_0 n : rdivn rzero n = rzero;
  rdivn_add a b n : rdivn (radd a b) n = radd (rdivn a n) (rdivn b n);
  rdivn_mul a c n : rmul (rdivn a n) c = rdivn (rmul a c) n;
}.

Section Tensors.
Context `{Scalar}.

(** A two-dimensional tensor: its rows, and the number of columns
    (kept apart because a tensor with no rows still has a width).
    A one-dimensional tensor (a bias) is stored as a single row.
    A value whose rows do not all have [ncols] entries stands for no
    tensor of torch ([wf_tensor]); the checked operations reject it. *)
Record Tensor := mkTensor { ncols : nat; trows : list (list R) }.

#[global] Instance Tensor_eq_dec `{!EqDecision R} : EqDecision Tensor.
Proof. solve_decision. Defined.

Definition wf_tensor (x : Tensor) : Prop :=
  Forall (λ r, length r = ncols x) (trows x).

#[global] Instance wf_tensor_dec x : Decision (wf_tensor x).
Proof. unfold wf_tensor. apply _. Defined.

Definition shape (x : Tensor) : nat * nat := (length (trows x), ncols x).

Definition zeros (n : nat) : list R := replicate n rzero.

(** The sum and the scalar product of two rows.  They are taken of rows
    of the same length only: the operations below check the shapes of
    their arguments first, as torch does. *)
Definition vadd (u v : list R) : list R := zip_with radd u v.
Definition dot (v w : list R) : R := foldr radd rzero (zip_with rmul v w).

(** One row of [x @ W.T + b] *)
Definition linear_row (W : list (list R)) (b : option (list R)) (v : list R)
  : list R :=
  let y := dot v <$> W in
  match b with
  | Some b => vadd y b
  | None => y
  end.

(** the row of a one-dimensional tensor *)
Definition bias_row (b : Tensor) : list R := concat (trows b).

(** [x @ W.T + b] for arguments whose shapes fit *)
Definition linear_out (x W : Tensor) (b : option Tensor) : Tensor :=
  mkTensor (length (trows W))
           (linear_row (trows W) (bias_row <$> b) <$> trows x).

(** The shapes [torch.nn.functional.linear] accepts: the width of [x] is
    the width of [W], and the bias has one entry for every row of [W]. *)
Definition linear_ok (x W : Tensor) (b : option Tensor) : Prop :=
  wf_tensor x ∧ wf_tensor W ∧ ncols x = ncols W ∧
  match b with
  | Some b => wf_tensor b ∧ shape b = (1, length (trows W))
  | None => True
  end.

#[global] Instance linear_ok_dec x W b : Decision (linear_ok x W b).
Proof. unfold linear_ok. destruct b; apply _. Defined.

(** [torch.nn.functional.linear]: [x @ W.T + b], or [RuntimeError] when
    the shapes do not fit *)
Definition F_linear (x W : Tensor) (b : option Tensor) : result Tensor :=
  if decide (linear_ok x W b) then Ok (linear_out x W b)
  else Raise RuntimeError.

(** [b] broadcast to [n] rows and [m] columns: a dimension of size one
    is repeated *)
Definition expand (n m : nat) (b : Tensor) : list (list R) :=
  let rows :=
    if decide (ncols b = m) then trows b
    else (λ r : list R, r ≫= replicate m) <$> trows b in
  if decide (length (trows b) = n) then rows else rows ≫= replicate n.

(** The shapes [a.add_(b)] accepts: [b] can be broadcast to the shape
    of [a], which the sum keeps. *)
Definition add_ok (a b : Tensor) : Prop :=
  wf_tensor a ∧ wf_tensor b ∧
  (length (trows b) = length (trows a) ∨ length (trows b) = 1) ∧
  (ncols b = ncols a ∨ ncols b = 1).

#[global] Instance add_ok_dec a b : Decision (add_ok a b).
Proof. unfold add_ok. apply _. Defined.

(** the entrywise sum of [a] and of [b] broadcast to the shape of [a] *)
Definition add_out (a b : Tensor) : Tensor :=
  mkTensor (ncols a)
           (zip_with vadd (trows a) (expand (length (trows a)) (ncols a) b)).

(** [Tensor.add_]'s value: the entrywise sum with broadcasting, or
    [RuntimeError] when [b] cannot be broadcast to the shape of [a] *)
Definition tadd (a b : Tensor) : result Tensor :=
  if decide (add_ok a b) then Ok (add_out a b) else Raise RuntimeError.

(** [relu_]'s value *)
Definition trelu (a : Tensor) : Tensor :=
  mkTensor (ncols a) ((λ r : list R, rrelu <$> r) <$> trows a).

(** ** Sparse adjacency matrices (torch_sparse.SparseTensor)

    The coordinate lists and the sparse sizes, without values.  *)
Record SparseTensor := mkSparse {
  row : list nat;
  col : list nat;
  sparse_sizes : nat * nat;
}.

Definition entries (A : SparseTensor) : list (nat * nat) := zip (row A) (col A).

(** column indices stored in row [i] *)
Definition neighbours (A : SparseTensor) (i : nat) : list nat :=
  snd <$> filter (λ e, e.1 = i) (entries A).

Definition vsum (n : nat) (vs : list (list R)) : list R :=
  foldl vadd (zeros n) vs.

(** mean of a list of rows; the mean of no rows is the zero row *)
Definition mean_rows (n : nat) (vs : list (list R)) : list R :=
  (λ a, rdivn a (max 1 (length vs))) <$> vsum n vs.

(** the rows of [x] at the indices [ns], when [x] has them all *)
Definition gather (x : Tensor) (ns : list nat) : option (list (list R)) :=
  mapM (λ j, trows x !! j) ns.

(** The arguments [adj_t.matmul] accepts: the coordinate lists are
    as long as each other and within the sparse sizes, and the matrix
    has a column for every row of [x]. *)
Definition matmul_ok (A : SparseTensor) (x : Tensor) : Prop :=
  wf_tensor x ∧ length (row A) = length (col A) ∧
  Forall (λ i, i < (sparse_sizes A).1) (row A) ∧
  Forall (λ j, j < (sparse_sizes A).2) (col A) ∧
  (sparse_sizes A).2 = length (trows x).

#[global] Instance matmul_ok_dec A x : Decision (matmul_ok A x).
Proof. unfold matmul_ok. apply _. Defined.

(** [adj_t.matmul(x, reduce='mean')]: row [i] of the result is the
    mean of the rows of [x] named by the entries of row [i];
    [RuntimeError] when the sizes do not fit *)
Definition matmul_mean (A : SparseTensor) (x : Tensor) : result Tensor :=
  if decide (matmul_ok A x) then
    match mapM (λ i, mean_rows (ncols x) <$> gather x (neighbours A i))
               (seq 0 (sparse_sizes A).1) with
    | Some rows => Ok (mkTensor (ncols x) rows)
    | None => Raise RuntimeError
    end
  else Raise RuntimeError.

(** [adj.t()] *)
Definition t (A : SparseTensor) : SparseTensor :=
  mkSparse (col A) (row A) ((sparse_sizes A).2, (sparse_sizes A).1).

(** [adj.to_symmetric()]: the entries and their transposes, each kept
    once, on a square of the larger side *)
Definition to_symmetric (A : SparseTensor) : SparseTensor :=
  let N := max (sparse_sizes A).1 (sparse_sizes A).2 in
  let es := remove_dups (entries A ++ entries (t A)) in
  mkSparse (fst <$> es) (snd <$> es) (N, N).
End Tensors.

Arguments Tensor {_}.


(** ** The shapes of the results *)

Section Shapes.
Context `{Scalar}.

Lemma length_zeros n : length (zeros n) = n.
Proof. apply length_replicate. Qed.

Lemma length_vadd u v : length u = length v → length (vadd u v) = length u.
Proof. intros Hl. unfold vadd. rewrite length_zip_with. lia. Qed.

Lemma length_linear_row W b v :
  match b with Some b => length b = length W | None => True end →
  length (linear_row W b v) = length W.
Proof.
  unfold linear_row. destruct b as [b|]; intros Hb.
  - rewrite length_vadd; rewrite length_fmap; done.
  - by rewrite length_fmap.
Qed.

Lemma F_linear_Ok x W b :
  linear_ok x W b → F_linear x W b = Ok (linear_out x W b).
Proof. intros Hok. unfold F_linear. by rewrite decide_True. Qed.

Lemma linear_out_shape x W b :
  linear_ok x W b →
  wf_tensor (linear_out x W b) ∧
  shape (linear_out x W b) = (length (trows x), length (trows W)).
Proof.
  intros (_ & _ & _ & Hb). split.
  - unfold wf_tensor, linear_out. cbn. apply Forall_fmap, Forall_forall.
    intros v _. cbn. apply length_linear_row.
    destruct b as [b|]; [|done]. cbn. destruct Hb as [Hwf Hs].
    unfold bias_row. unfold shape in Hs. injection Hs as Hrows Hcols.
    destruct (trows b) as [|r [|? ?]] eqn:Hr; try done.
    cbn. rewrite app_nil_r. unfold wf_tensor in Hwf. rewrite Hr in Hwf.
    apply Forall_cons in Hwf as [Hlen _]. congruence.
  - unfold shape, linear_out. cbn. by rewrite length_fmap.
Qed.

Lemma length_vsum n vs :
  Forall (λ v, length v = n) vs → length (vsum n vs) = n.
Proof.
  unfold vsum. intros Hvs.
  assert (Hgen : ∀ z, length z = n → length (foldl vadd z vs) = n).
  { induction Hvs as [|v vs Hv _ IH]; intros z Hz; [done|].
    cbn. apply IH. rewrite length_vadd; congruence. }
  apply Hgen, length_zeros.
Qed.

Lemma length_mean_rows n vs :
  Forall (λ v, length v = n) vs → length (mean_rows n vs) = n.
Proof. intros Hvs. unfold mean_rows. by rewrite length_fmap, length_vsum. Qed.

Lemma gather_wf x ns rows :
  wf_tensor x → gather x ns = Some rows →
  Forall (λ v, length v = ncols x) rows.
Proof.
  intros Hwf Hg. unfold gather in Hg. apply mapM_Some_1 in Hg.
  induction Hg as [|j r ns rows Hj _ IH]; constructor; [|done].
  by eapply (Forall_lookup_1 _ _ _ _ Hwf).
Qed.

Lemma gather_is_Some x ns :
  Forall (λ j, j < length (trows x)) ns → is_Some (gather x ns).
Proof.
  intros Hns. unfold gather. apply mapM_is_Some.
  eapply Forall_impl; [done|]. intros j Hj. by apply lookup_lt_is_Some_2.
Qed.

Lemma neighbours_col A i : Forall (λ j, j ∈ col A) (neighbours A i).
Proof.
  unfold neighbours, entries. apply Forall_fmap, Forall_forall.
  intros [i' j] [_ Hin]%list_elem_of_filter. cbn. by eapply elem_of_zip_r.
Qed.

(** What [matmul_mean] returns on arguments it accepts. *)
Lemma matmul_mean_Ok A x :
  matmul_ok A x →
  ∃ M, matmul_mean A x = Ok M ∧ wf_tensor M ∧
       shape M = ((sparse_sizes A).1, ncols x).
Proof.
  intros Hok. unfold matmul_mean. rewrite decide_True by done.
  destruct Hok as (Hwf & _ & _ & Hcol & Hsize).
  destruct (mapM _ _) as [rows|] eqn:Hrows.
  - eexists. split; [done|]. split.
    + unfold wf_tensor. cbn. apply mapM_Some_1 in Hrows.
      induction Hrows as [|i r ks rows Hi _ IH]; constructor; [|done].
      destruct (gather x (neighbours A i)) as [vs|] eqn:Hvs; [|done].
      cbn in Hi. injection Hi as <-. apply length_mean_rows.
      by eapply gather_wf.
    + unfold shape. cbn. apply length_mapM in Hrows.
      by rewrite <-Hrows, length_seq.
  - exfalso. apply eq_None_not_Some in Hrows. apply Hrows, mapM_is_Some.
    apply Forall_forall. intros i _. apply fmap_is_Some, gather_is_Some.
    eapply Forall_impl; [apply neighbours_col|]. intros j Hj. cbn in Hj.
    rewrite <-Hsize. by eapply Forall_forall in Hcol.
Qed.

Lemma expand_shape n m b :
  wf_tensor b →
  length (trows b) = n ∨ length (trows b) = 1 →
  ncols b = m ∨ ncols b = 1 →
  length (expand n m b) = n ∧ Forall (λ v, length v = m) (expand n m b).
Proof.
  intros Hwf Hrows Hcols. unfold expand.
  set (rows := if decide (ncols b = m) then trows b else _).
  assert (Hlen : length rows = length (trows b)).
  { unfold rows. case_decide; [done|]. by rewrite length_fmap. }
  assert (Hall : Forall (λ v, length v = m) rows).
  { unfold rows. case_decide as Hm.
    - by rewrite <-Hm.
    - destruct Hcols as [?|Hone]; [done|].
      apply Forall_fmap. eapply Forall_impl; [exact Hwf|].
      intros r Hr. cbn. rewrite Hone in Hr.
      destruct r as [|v [|? ?]]; try done.
      cbn. by rewrite app_nil_r, length_replicate. }
  case_decide as Hn; [split; [congruence|done]|].
  destruct Hrows as [?|Hone]; [done|].
  rewrite Hone in Hlen. destruct rows as [|r [|? ?]]; try done.
  cbn. rewrite app_nil_r. split; [by rewrite length_replicate|].
  apply Forall_replicate. by apply Forall_cons in Hall as [? _].
Qed.

Lemma zip_with_vadd_wf m us vs :
  Forall (λ v, length v = m) us → Forall (λ v, length v = m) vs →
  Forall (λ v, length v = m) (zip_with vadd us vs).
Proof.
  intros Hus. revert vs.
  induction Hus as [|u us Hu _ IH]; intros [|v vs] Hvs; try done.
  apply Forall_cons in Hvs as [Hv Hvs]. cbn. constructor; [|by apply IH].
  rewrite length_vadd; congruence.
Qed.

(** What the checked operations do with shapes that do not fit *)
Lemma F_linear_width_mismatch x W b :
  ncols x ≠ ncols W → F_linear x W b = Raise RuntimeError.
Proof.
  intros Hne. unfold F_linear. rewrite decide_False; [done|].
  by intros (_ & _ & ? & _).
Qed.

Lemma matmul_mean_size_mismatch A x :
  (sparse_sizes A).2 ≠ length (trows x) → matmul_mean A x = Raise RuntimeError.
Proof.
  intros Hne. unfold matmul_mean. rewrite decide_False; [done|].
  by intros (_ & _ & _ & _ & ?).
Qed.

Lemma tadd_rows_mismatch a b :
  length (trows b) ≠ length (trows a) → length (trows b) ≠ 1 →
  tadd a b = Raise RuntimeError.
Proof.
  intros Hne Hone. unfold tadd. rewrite decide_False; [done|].
  intros (_ & _ & [?|?] & _); done.
Qed.

(** The sum of [a] and a tensor that can be broadcast to its shape has
    the shape of [a]. *)
Lemma tadd_Ok a b :
  add_ok a b →
  tadd a b = Ok (add_out a b) ∧ wf_tensor (add_out a b)
  ∧ shape (add_out a b) = shape a.
Proof.
  intros Hok. split; [unfold tadd; by rewrite decide_True|].
  destruct Hok as (Ha & Hb & Hrows & Hcols).
  destruct (expand_shape (length (trows a)) (ncols a) b Hb Hrows Hcols)
    as [Hlen Hall].
  unfold wf_tensor, add_out, shape. cbn. split.
  - by apply zip_with_vadd_wf.
  - rewrite length_zip_with. f_equal. lia.
Qed.
End Shapes.

(** ** Algebra of the layers under exact arithmetic *)

Section ExactAlgebra.
Context `{ExactScalar}.













End ExactAlgebra.

(** ** The primitives of Python, torch and ogb used by the script *)

Definition loc := nat.
Abbreviation EdgeType := (string * string * string)%type (only parsing).

Class Torch `{Scalar} := {
  (** Python floats: hyperparameters, losses, accuracies *)
  Float : Type;
  (** the float a decimal literal denotes *)
  float_of_Q : Q → Float;
  (** [int(s)] and [float(s)] on a command-line word *)
  py_int : string → option Z;
  py_float : string → option Float;
  (** the state of torch's random number generator *)
  RNG : Type;
  (** a scalar loss together with the graph autograd recorded for it *)
  Loss : Type;
  AdamState : Type;
  (** [torch.Tensor(n, m)]: uninitialised storage *)
  empty : nat → nat → Tensor;
  (** [kaiming_uniform_(weight, a=sqrt(5))], the bias initialiser of
      [Linear] (given the fan-in), and [xavier_uniform_]: the values drawn
      for a tensor of the given shape *)
  kaiming_uniform : nat * nat → RNG → Tensor * RNG;
  bias_uniform : nat → nat * nat → RNG → Tensor * RNG;
  xavier_uniform : nat * nat → RNG → Tensor * RNG;
  (** [F.dropout] in training mode *)
  dropout_train : Float → Tensor → RNG → Tensor * RNG;
  log_softmax : Tensor → Tensor;
  (** [out.argmax(dim=-1, keepdim=True)] *)
  argmax : Tensor → list Z;
  nll_loss : Tensor → list Z → Loss;
  item : Loss → Float;
  (** [loss.backward()]: the [.grad] fields after accumulating the
      gradients of the loss, from the tensor store and the fields before *)
  backward_grads : Loss → list Tensor → Dict loc Tensor → Dict loc Tensor;
  (** one Adam update of a parameter *)
  adam_update : Float → option AdamState → Tensor → Tensor → Tensor * AdamState;
  (** [Evaluator(name='ogbn-mag').eval(...)['acc']] on labels and predictions *)
  evaluator_eval : list Z → list Z → Float;
}.

(** ** The parsed command line *)

Module Namespace.
Section Namespace.
Context `{Torch}.

Record t := mk {
  device : Z;
  log_steps : Z;
  use_sage : bool;
  num_layers : Z;
  hidden_channels : Z;
  dropout : Float;
  lr : Float;
  epochs : Z;
  runs : Z;
}.
End Namespace.
End Namespace.

(** ** The program state *)

Module Adam.
Section Adam.
Context `{Torch}.

(** a [torch.optim.Adam] object *)
Record t := mk {
  lr : Float;
  params : list loc;
  state : Dict loc AdamState;
}.
End Adam.
End Adam.

Section World.
Context `{Torch}.

(** What the script prints, and the calls it makes, in order. *)
Inductive event :=
  | PrintArgs (args : Namespace.t)
  | PrintData
  | To (device : Device)
  | PrintEpoch (run1 epoch : Z) (loss train_acc valid_acc test_acc : Float)
  | PrintStatistics (run : option Z) (results : list (Z * (Float * Float * Float)))
  | ResetParameters
  | NewAdam (lr : Float)
  | ZeroGrad
  | Forward (training grad : bool)
  | NllLoss
  | Backward
  | Step
  | Eval (split : string)
  | AddResult (run : Z).

Record world := mkWorld {
  (** the tensor store; a location is an index *)
  tensors : list Tensor;
  (** the [dict] objects that hold tensors; a reference is an index *)
  dicts : list (Dict string loc);
  (** the [.grad] field of the tensors that have one *)
  grads : Dict loc Tensor;
  (** the optimizer objects *)
  optims : list Adam.t;
  rng : RNG;
  (** [model.training] *)
  training : bool;
  (** [torch.is_grad_enabled()] *)
  grad_enabled : bool;
}.

Definition set_tensors (f : list Tensor → list Tensor) (w : world) : world :=
  mkWorld (f (tensors w)) (dicts w) (grads w) (optims w) (rng w)
          (training w) (grad_enabled w).
Definition set_dicts (f : list (Dict string loc) → list (Dict string loc))
  (w : world) : world :=
  mkWorld (tensors w) (f (dicts w)) (grads w) (optims w) (rng w)
          (training w) (grad_enabled w).
Definition set_grads (f : Dict loc Tensor → Dict loc Tensor) (w : world) : world :=
  mkWorld (tensors w) (dicts w) (f (grads w)) (optims w) (rng w)
          (training w) (grad_enabled w).
Definition set_optims (f : list Adam.t → list Adam.t) (w : world) : world :=
  mkWorld (tensors w) (dicts w) (grads w) (f (optims w)) (rng w)
          (training w) (grad_enabled w).
Definition set_rng (g : RNG) (w : world) : world :=
  mkWorld (tensors w) (dicts w) (grads w) (optims w) g
          (training w) (grad_enabled w).
Definition set_training (b : bool) (w : world) : world :=
  mkWorld (tensors w) (dicts w) (grads w) (optims w) (rng w)
          b (grad_enabled w).
Definition set_grad_enabled (b : bool) (w : world) : world :=
  mkWorld (tensors w) (dicts w) (grads w) (optims w) (rng w)
          (training w) b.

(** ** Computations

    A computation runs from a state; it ends with a value or a raised
    exception, in a final state, having produced a sequence of events.
    The state survives an exception, and so do the events before it. *)

Record outcome (A : Type) := Outcome {
  res : result A;
  final : world;
  trace : list event;
}.
Arguments Outcome {A} res final trace.
Arguments res {A} o.
Arguments final {A} o.
Arguments trace {A} o.

Definition M (A : Type) : Type := world → outcome A.

Definition ret {A} (a : A) : M A := λ w, Outcome (Ok a) w [].
Definition raise {A} (e : exn) : M A := λ w, Outcome (Raise e) w [].
Definition bind {A B} (m : M A) (f : A → M B) : M B :=
  λ w, match m w with
       | Outcome (Ok a) w' l =>
           match f a w' with
           | Outcome r w'' l' => Outcome r w'' (l ++ l')
           end
       | Outcome (Raise e) w' l => Outcome (Raise e) w' l
       end.
Definition lift {A} (r : result A) : M A := λ w, Outcome r w [].
Definition gets {A} (f : world → A) : M A := λ w, Outcome (Ok (f w)) w [].
Definition modify (f : world → world) : M unit := λ w, Outcome (Ok ()) (f w) [].
Definition emit (e : event) : M unit := λ w, Outcome (Ok ()) w [e].

Global Instance M_ret : MRet M := @ret.
Global Instance M_bind : MBind M := λ A B f m, bind m f.
End World.

Arguments Outcome {_ _ A} res final trace.
Arguments res {_ _ A} o.
Arguments final {_ _ A} o.
Arguments trace {_ _ A} o.

Section Store.
Context `{Torch}.

Fixpoint for_ {A} (l : list A) (f : A → M unit) : M unit :=
  match l with
  | [] => mret ()
  | a :: l' => f a;; for_ l' f
  end.

Fixpoint foldM {A B} (f : B → A → M B) (b : B) (l : list A) : M B :=
  match l with
  | [] => mret b
  | a :: l' => b' ← f b a; foldM f b' l'
  end.

(** *** Tensors *)

Definition tensor_at (w : world) (l : loc) : Tensor :=
  default (mkTensor 0 []) (tensors w !! l).

(** a new tensor object *)
Definition alloc (x : Tensor) : M loc :=
  λ w, Outcome (Ok (length (tensors w))) (set_tensors (λ ts, ts ++ [x]) w) [].

Definition read (l : loc) : M Tensor := gets (λ w, tensor_at w l).

(** overwrite the contents of a tensor object in place *)
Definition write (l : loc) (x : Tensor) : M unit :=
  modify (set_tensors (λ ts, <[l := x]> ts)).

(** draw from the random number generator *)
Definition rand {A} (f : RNG → A * RNG) : M A :=
  λ w, let r := f (rng w) in Outcome (Ok r.1) (set_rng r.2 w) [].

(** [torch.Tensor(n, m)]; a negative size is an error *)
Definition new_empty (n m : Z) : M loc :=
  if decide (0 ≤ n ∧ 0 ≤ m)%Z then alloc (empty (Z.to_nat n) (Z.to_nat m))
  else raise RuntimeError.

(** *** Dictionaries of tensors *)

Definition dict_at (w : world) (r : nat) : Dict string loc :=
  default [] (dicts w !! r).

(** a new [dict] object with the given items *)
Definition new_dict (d : Dict string loc) : M nat :=
  λ w, Outcome (Ok (length (dicts w))) (set_dicts (λ ds, ds ++ [d]) w) [].

Definition dict_items (r : nat) : M (Dict string loc) :=
  gets (λ w, dict_at w r).

(** [d[key]] *)
Definition dict_getitem (r : nat) (key : string) : M loc :=
  d ← dict_items r; lift (getitem d key).

(** [d[key] = v] *)
Definition dict_setitem (r : nat) (key : string) (v : loc) : M unit :=
  modify (set_dicts (alter (dict_set key v) r)).

(** *** torch.nn.functional *)

(** [F.relu_(x)]: in place, returns [x] *)
Definition F_relu_ (x : loc) : M loc :=
  X ← read x; write x (trelu X);; mret x.

(** [F.dropout(x, p, training)]: a new tensor in training mode, [x]
    itself otherwise *)
Definition F_dropout (x : loc) (p : Float) (training : bool) : M loc :=
  if training then X ← read x; Y ← rand (dropout_train p X); alloc Y
  else mret x.

(** [x.add_(y)] *)
Definition add_ (x y : loc) : M unit :=
  X ← read x; Y ← read y; Z ← lift (tadd X Y); write x Z.

(** [t[idx]] for an index tensor [idx] *)
Definition index {A} (l : list A) (idx : list nat) : result (list A) :=
  match mapM (λ i, l !! i) idx with
  | Some r => Ok r
  | None => Raise IndexError
  end.
End Store.

(** ** torch.nn.Linear *)

Module Linear.
Section Linear.
Context `{Torch}.

Record t := mk {
  in_features : Z;
  out_features : Z;
  weight : loc;
  bias : option loc;
}.

Definition reset_parameters (self : t) : M unit :=
  W ← read (weight self);
  W' ← rand (kaiming_uniform (shape W));
  write (weight self) W';;
  match bias self with
  | Some b =>
      B ← read b;
      B' ← rand (bias_uniform (ncols W) (shape B));
      write b B'
  | None => mret ()
  end.

(** [Linear(in_features, out_features, bias)] *)
Definition init (in_features out_features : Z) (bias : bool) : M t :=
  w ← new_empty out_features in_features;
  b ← (if bias then b ← new_empty 1 out_features; mret (Some b)
       else mret None);
  let self := mk in_features out_features w b in
  reset_parameters self;;
  mret self.

(** the function the layer computes in a given state *)
Definition apply (w : world) (self : t) (x : Tensor) : result Tensor :=
  F_linear x (tensor_at w (weight self)) (tensor_at w <$> bias self).

(** [self(x)]: a new tensor *)
Definition forward (self : t) (x : loc) : M loc :=
  X ← read x;
  r ← gets (λ w, apply w self X);
  Y ← lift r;
  alloc Y.

Definition parameters (self : t) : list loc :=
  weight self :: match bias self with Some b => [b] | None => [] end.
End Linear.
End Linear.

(** ** RGCNConv *)

Module RGCNConv.
Section RGCNConv.
Context `{Torch}.

Record t := mk {
  in_channels : Z;
  out_channels : Z;
  node_types : list string;
  edge_types : list EdgeType;
  rel_lins : Dict string Linear.t;
  root_lins : Dict string Linear.t;
}.

(** [f'{key[0]}_{key[1]}_{key[2]}'] *)
Definition key_str (key : EdgeType) : string :=
  key.1.1 +:+ "_" +:+ key.1.2 +:+ "_" +:+ key.2.

Definition reset_parameters (self : t) : M unit :=
  for_ (dict_values (rel_lins self)) Linear.reset_parameters;;
  for_ (dict_values (root_lins self)) Linear.reset_parameters.

Definition init (in_channels out_channels : Z)
    (node_types : list string) (edge_types : list EdgeType) : M t :=
  rel_lins ← foldM (λ d key,
                lin ← Linear.init in_channels out_channels false;
                mret (dict_set (key_str key) lin d)) [] edge_types;
  root_lins ← foldM (λ d key,
                lin ← Linear.init in_channels out_channels true;
                mret (dict_set key lin d)) [] node_types;
  let self := mk in_channels out_channels node_types edge_types
                 rel_lins root_lins in
  reset_parameters self;;
  mret self.

Definition forward (self : t) (x_dict : nat)
    (adj_t_dict : Dict EdgeType SparseTensor) : M nat :=
  out_dict ← new_dict [];
  for_ (node_types self) (λ key,
    lin ← lift (getitem (root_lins self) key);
    x ← dict_getitem x_dict key;
    y ← Linear.forward lin x;
    dict_setitem out_dict key y);;
  for_ (edge_types self) (λ key,
    x ← dict_getitem x_dict key.1.1;
    adj_t ← lift (getitem adj_t_dict key);
    lin ← lift (getitem (rel_lins self) (key_str key));
    X ← read x;
    A ← lift (matmul_mean adj_t X);
    m ← alloc A;
    out ← Linear.forward lin m;
    o ← dict_getitem out_dict key.2;
    add_ o out);;
  mret out_dict.

Definition parameters (self : t) : list loc :=
  (dict_values (rel_lins self) ≫= Linear.parameters)
  ++ (dict_values (root_lins self) ≫= Linear.parameters).
End RGCNConv.
End RGCNConv.

(** ** RGCN *)

Module RGCN.
Section RGCN.
Context `{Torch}.

Record t := mk {
  out_type : string;
  embs : Dict string loc;
  lins : Dict string Linear.t;
  convs : list RGCNConv.t;
  dropout : Float;
}.

Definition reset_parameters (self : t) : M unit :=
  for_ (dict_values (embs self)) (λ emb,
    E ← read emb;
    E' ← rand (xavier_uniform (shape E));
    write emb E');;
  for_ (dict_values (lins self)) Linear.reset_parameters;;
  for_ (convs self) RGCNConv.reset_parameters.

(** [set(node_types).difference(set(x_types))]; the order in which
    Python iterates over the set is not specified, the order of
    [node_types] is taken *)
Definition difference (node_types x_types : list string) : list string :=
  filter (λ key, key ∉ x_types) (remove_dups node_types).

Definition init (in_channels hidden_channels out_channels num_layers : Z)
    (dropout : Float) (num_nodes_dict : Dict string nat)
    (x_types : list string) (edge_types : list EdgeType)
    (out_type : string) : M t :=
  let node_types := dict_keys num_nodes_dict in
  embs ← foldM (λ d key,
            n ← lift (getitem num_nodes_dict key);
            emb ← new_empty (Z.of_nat n) hidden_channels;
            mret (dict_set key emb d)) [] (difference node_types x_types);
  lins ← foldM (λ d key,
            lin ← Linear.init in_channels hidden_channels true;
            mret (dict_set key lin d)) [] x_types;
  convs ← foldM (λ convs _,
            conv ← RGCNConv.init hidden_channels hidden_channels
                     node_types edge_types;
            mret (convs ++ [conv])) [] (seq 0 (Z.to_nat (num_layers - 1)));
  (* We only need to consider output node types in the last layer. *)
  let edge_types := filter (λ keys : EdgeType, keys.2 = out_type) edge_types in
  conv ← RGCNConv.init hidden_channels out_channels [out_type] edge_types;
  let self := mk out_type embs lins (convs ++ [conv]) dropout in
  reset_parameters self;;
  mret self.

Definition forward (self : t) (x_dict : nat)
    (adj_t_dict : Dict EdgeType SparseTensor) : M loc :=
  d ← dict_items x_dict;
  x_dict ← new_dict d;
  (* each iteration rebinds only the key it visits, so iterating over
     the items read at the start is iterating over the live view *)
  items ← dict_items x_dict;
  for_ items (λ '(key, x),
    lin ← lift (getitem (lins self) key);
    y ← Linear.forward lin x;
    dict_setitem x_dict key y);;
  for_ (embs self) (λ '(key, emb), dict_setitem x_dict key emb);;
  x_dict ← foldM (λ x_dict conv,
              x_dict ← RGCNConv.forward conv x_dict adj_t_dict;
              items ← dict_items x_dict;
              for_ items (λ '(key, x),
                y ← F_relu_ x;
                dict_setitem x_dict key y;;
                training ← gets training;
                z ← F_dropout x (dropout self) training;
                dict_setitem x_dict key z);;
              mret x_dict) x_dict (removelast (convs self));
  conv ← lift (match last (convs self) with
               | Some conv => Ok conv
               | None => Raise IndexError
               end);
  out_dict ← RGCNConv.forward conv x_dict adj_t_dict;
  out ← dict_getitem out_dict (out_type self);
  O ← read out;
  alloc (log_softmax O).

(** [model(x_dict, adj_t_dict)] *)
Definition call (self : t) (x_dict : nat)
    (adj_t_dict : Dict EdgeType SparseTensor) : M loc :=
  training ← gets training;
  grad ← gets grad_enabled;
  emit (Forward training grad);;
  forward self x_dict adj_t_dict.

(** [model.parameters()] *)
Definition parameters (self : t) : list loc :=
  dict_values (embs self)
  ++ (dict_values (lins self) ≫= Linear.parameters)
  ++ (convs self ≫= RGCNConv.parameters).
End RGCN.
End RGCN.

(** ** torch.optim.Adam *)

Section Optimizer.
Context `{Torch}.

(** [torch.optim.Adam(params, lr=lr)]: a new optimizer without state *)
Definition new_optimizer (opt : Adam.t) : M nat :=
  λ w, Outcome (Ok (length (optims w))) (set_optims (λ os, os ++ [opt]) w) [].

Definition Adam_init (params : list loc) (lr : Float) : M nat :=
  emit (NewAdam lr);;
  new_optimizer (Adam.mk lr params []).

Definition optimizer_at (w : world) (o : nat) : Adam.t :=
  default (Adam.mk (float_of_Q 0) [] []) (optims w !! o).

(** [optimizer.zero_grad()]: the parameters' [.grad] fields are cleared *)
Definition zero_grad (o : nat) : M unit :=
  emit ZeroGrad;;
  opt ← gets (λ w, optimizer_at w o);
  modify (set_grads (filter (λ '(p, _), p ∉ Adam.params opt))).

(** [loss.backward()] *)
Definition backward (loss : Loss) : M unit :=
  emit Backward;;
  modify (λ w, set_grads (backward_grads loss (tensors w)) w).

(** [optimizer.step()]: every parameter with a gradient is updated in
    place, and so is its entry of the optimizer's state *)
Definition step (o : nat) : M unit :=
  emit Step;;
  opt ← gets (λ w, optimizer_at w o);
  for_ (Adam.params opt) (λ p,
    g ← gets (λ w, dict_get p (grads w));
    match g with
    | None => mret ()
    | Some g =>
        P ← read p;
        opt ← gets (λ w, optimizer_at w o);
        let u := adam_update (Adam.lr opt) (dict_get p (Adam.state opt)) P g in
        write p u.1;;
        modify (set_optims (alter (λ opt,
          Adam.mk (Adam.lr opt) (Adam.params opt)
                  (dict_set p u.2 (Adam.state opt))) o))
    end).
End Optimizer.

(** ** train and test *)

Section TrainTest.
Context `{Torch}.

Definition train (model : RGCN.t) (x_dict : nat)
    (adj_t_dict : Dict EdgeType SparseTensor) (y_true : list Z)
    (train_idx : list nat) (optimizer : nat) : M Float :=
  modify (set_training true);;
  zero_grad optimizer;;
  out ← RGCN.call model x_dict adj_t_dict;
  O ← read out;
  o ← lift (index (trows O) train_idx);
  y ← lift (index y_true train_idx);
  emit NllLoss;;
  let loss := nll_loss (mkTensor (ncols O) o) y in
  backward loss;;
  step optimizer;;
  mret (item loss).

(** [with torch.no_grad(): ...]: gradient mode is switched off for the
    block and restored afterwards, also when the block raises *)
Definition no_grad {A} (m : M A) : M A :=
  λ w, let prev := grad_enabled w in
       let o := m (set_grad_enabled false w) in
       Outcome (res o) (set_grad_enabled prev (final o)) (trace o).

(** [evaluator.eval({'y_true': y_true[idx], 'y_pred': y_pred[idx]})['acc']]
    for [idx = split_idx[split]['paper']] *)
Definition eval_split (split_idx : Dict string (Dict string (list nat)))
    (split : string) (y_true y_pred : list Z) : M Float :=
  d ← lift (getitem split_idx split);
  idx ← lift (getitem d "paper");
  yt ← lift (index y_true idx);
  d ← lift (getitem split_idx split);
  idx ← lift (getitem d "paper");
  yp ← lift (index y_pred idx);
  emit (Eval split);;
  mret (evaluator_eval yt yp).

Definition test (model : RGCN.t) (x_dict : nat)
    (adj_t_dict : Dict EdgeType SparseTensor) (y_true : list Z)
    (split_idx : Dict string (Dict string (list nat)))
    : M (Float * Float * Float) :=
  no_grad (
    modify (set_training false);;
    out ← RGCN.call model x_dict adj_t_dict;
    O ← read out;
    let y_pred := argmax O in
    train_acc ← eval_split split_idx "train" y_true y_pred;
    valid_acc ← eval_split split_idx "valid" y_true y_pred;
    test_acc ← eval_split split_idx "test" y_true y_pred;
    mret (train_acc, valid_acc, test_acc)).
End TrainTest.

(** ** Logger *)

Module Logger.
Section Logger.
Context `{Torch}.

(** Modelled from the spec: logger.py is not among the sources.  The
    spec has the script log "aggregated run statistics"; the logger
    keeps the results it is given, each with its run, and its
    statistics are a function of the recorded results (of the given
    run, or of all runs). *)
Record t := mk {
  runs : Z;
  info : Namespace.t;
  results : list (Z * (Float * Float * Float));
}.

Definition init (runs : Z) (info : Namespace.t) : t := mk runs info [].

Definition add_result (self : t) (run : Z) (result : Float * Float * Float)
  : M t :=
  emit (AddResult run);;
  mret (mk (runs self) (info self) (results self ++ [(run, result)])).

Definition print_statistics (self : t) (run : option Z) : M unit :=
  emit (PrintStatistics run
          match run with
          | Some r => filter (λ p, p.1 = r) (results self)
          | None => results self
          end).
End Logger.
End Logger.

(** ** The command line *)

Module argparse.
Section argparse.
Context `{Torch}.
Import Namespace.

Definition set_device v ns :=
  mk v (log_steps ns) (use_sage ns) (num_layers ns) (hidden_channels ns)
     (dropout ns) (lr ns) (epochs ns) (runs ns).
Definition set_log_steps v ns :=
  mk (device ns) v (use_sage ns) (num_layers ns) (hidden_channels ns)
     (dropout ns) (lr ns) (epochs ns) (runs ns).
Definition set_use_sage v ns :=
  mk (device ns) (log_steps ns) v (num_layers ns) (hidden_channels ns)
     (dropout ns) (lr ns) (epochs ns) (runs ns).
Definition set_num_layers v ns :=
  mk (device ns) (log_steps ns) (use_sage ns) v (hidden_channels ns)
     (dropout ns) (lr ns) (epochs ns) (runs ns).
Definition set_hidden_channels v ns :=
  mk (device ns) (log_steps ns) (use_sage ns) (num_layers ns) v
     (dropout ns) (lr ns) (epochs ns) (runs ns).
Definition set_dropout v ns :=
  mk (device ns) (log_steps ns) (use_sage ns) (num_layers ns)
     (hidden_channels ns) v (lr ns) (epochs ns) (runs ns).
Definition set_lr v ns :=
  mk (device ns) (log_steps ns) (use_sage ns) (num_layers ns)
     (hidden_channels ns) (dropout ns) v (epochs ns) (runs ns).
Definition set_epochs v ns :=
  mk (device ns) (log_steps ns) (use_sage ns) (num_layers ns)
     (hidden_channels ns) (dropout ns) (lr ns) v (runs ns).
Definition set_runs v ns :=
  mk (device ns) (log_steps ns) (use_sage ns) (num_layers ns)
     (hidden_channels ns) (dropout ns) (lr ns) (epochs ns) v.

(** what [add_argument] registers: how the option's value is read
    and stored *)
Inductive action :=
  | store_int (set : Z → t → t)
  | store_float (set : Float → t → t)
  | store_true (set : bool → t → t).

(** The parser of [main]: the options in the order they are added. *)
Definition parser : list (string * action) :=
  [ ("--device", store_int set_device);
    ("--log_steps", store_int set_log_steps);
    ("--use_sage", store_true set_use_sage);
    ("--num_layers", store_int set_num_layers);
    ("--hidden_channels", store_int set_hidden_channels);
    ("--dropout", store_float set_dropout);
    ("--lr", store_float set_lr);
    ("--epochs", store_int set_epochs);
    ("--runs", store_int set_runs) ].

(** the [default=] of every option *)
Definition defaults : t :=
  mk 0 1 false 3 256 (float_of_Q (1 # 2)) (float_of_Q (1 # 100)) 300 10.

(** [parse_args] on words of the form [--option value] (and
    [--use_sage] alone); an unknown option, a missing value or a
    value that does not convert ends the program. *)
Fixpoint parse (argv : list string) (ns : t) : result t :=
  match argv with
  | [] => Ok ns
  | opt :: rest =>
      match dict_get opt parser with
      | None => Raise SystemExit
      | Some (store_true set) => parse rest (set true ns)
      | Some (store_int set) =>
          match rest with
          | [] => Raise SystemExit
          | v :: rest' =>
              match py_int v with
              | Some z => parse rest' (set z ns)
              | None => Raise SystemExit
              end
          end
      | Some (store_float set) =>
          match rest with
          | [] => Raise SystemExit
          | v :: rest' =>
              match py_float v with
              | Some f => parse rest' (set f ns)
              | None => Raise SystemExit
              end
          end
      end
  end.

Definition parse_args (argv : list string) : result t := parse argv defaults.
End argparse.
End argparse.

(** ** The dataset and main *)

(** What [PygNodePropPredDataset(name='ogbn-mag')] provides. *)
Module Dataset.
Section Dataset.
Context `{Torch}.

Record t := mk {
  num_classes : Z;
  split_idx : Dict string (Dict string (list nat));
  num_nodes_dict : Dict string nat;
  edge_index_dict : Dict EdgeType (list nat * list nat);
  x_dict : Dict string Tensor;
  y_dict : Dict string (list Z);
  node_year_dict : Dict string (list Z);
  edge_reltype_dict : Dict EdgeType (list Z);
}.
End Dataset.
End Dataset.

(** The [data] object of [main]. *)
Module Data.
Section Data.
Context `{Torch}.

Record t := mk {
  num_nodes_dict : Dict string nat;
  edge_index_dict : option (Dict EdgeType (list nat * list nat));
  (** a reference to the dictionary of feature tensors *)
  x_dict : nat;
  y_dict : Dict string (list Z);
  node_year_dict : option (Dict string (list Z));
  edge_reltype_dict : option (Dict EdgeType (list Z));
  adj_t_dict : Dict EdgeType SparseTensor;
}.
End Data.
End Data.

Section Main.
Context `{Torch}.

(** [data = dataset[0]] *)
Definition load (dataset : Dataset.t) : M Data.t :=
  x ← foldM (λ d '(key, X), x ← alloc X; mret (dict_set key x d))
         [] (Dataset.x_dict dataset);
  x_dict ← new_dict x;
  mret (Data.mk (Dataset.num_nodes_dict dataset)
                (Some (Dataset.edge_index_dict dataset))
                x_dict
                (Dataset.y_dict dataset)
                (Some (Dataset.node_year_dict dataset))
                (Some (Dataset.edge_reltype_dict dataset))
                []).

(** Convert to new transposed [SparseTensor] format and add reverse
    edges: one step of the loop *)
Definition convert_step (num_nodes_dict : Dict string nat)
    (adj_t_dict : Dict EdgeType SparseTensor)
    (item : EdgeType * (list nat * list nat))
    : result (Dict EdgeType SparseTensor) :=
  let '(keys, (row, col)) := item in
  n0 ← getitem num_nodes_dict keys.1.1;
  n2 ← getitem num_nodes_dict keys.2;
  let sizes := (n0, n2) in
  let adj := mkSparse row col sizes in
  if decide (keys.1.1 ≠ keys.2) then
    let adj_t_dict := dict_set keys (t adj) adj_t_dict in
    mret (dict_set (keys.2, "to", keys.1.1) adj adj_t_dict)
  else
    mret (dict_set keys (to_symmetric adj) adj_t_dict).

Fixpoint convert_loop (num_nodes_dict : Dict string nat)
    (adj_t_dict : Dict EdgeType SparseTensor)
    (items : list (EdgeType * (list nat * list nat)))
    : result (Dict EdgeType SparseTensor) :=
  match items with
  | [] => mret adj_t_dict
  | item :: items' =>
      adj_t_dict ← convert_step num_nodes_dict adj_t_dict item;
      convert_loop num_nodes_dict adj_t_dict items'
  end.

(** lines 205-215 of the script *)
Definition convert (data : Data.t) : result Data.t :=
  edge_index_dict ← match Data.edge_index_dict data with
                    | Some d => Ok d
                    | None => Raise AttributeError
                    end;
  adj_t_dict ← convert_loop (Data.num_nodes_dict data) [] edge_index_dict;
  mret (Data.mk (Data.num_nodes_dict data) None (Data.x_dict data)
                (Data.y_dict data) (Data.node_year_dict data)
                (Data.edge_reltype_dict data) adj_t_dict).

(** One epoch: the body of the inner loop. *)
Definition epoch_body (args : Namespace.t) (model : RGCN.t) (data : Data.t)
    (split_idx : Dict string (Dict string (list nat))) (train_idx : list nat)
    (optimizer : nat) (run : Z) (logger : Logger.t) (epoch : Z)
    : M Logger.t :=
  y ← lift (getitem (Data.y_dict data) "paper");
  loss ← train model (Data.x_dict data) (Data.adj_t_dict data) y
           train_idx optimizer;
  y ← lift (getitem (Data.y_dict data) "paper");
  result ← test model (Data.x_dict data) (Data.adj_t_dict data) y split_idx;
  logger ← Logger.add_result logger run result;
  (if decide (Namespace.log_steps args = 0)%Z then raise ZeroDivisionError
   else if decide (epoch `mod` Namespace.log_steps args = 0)%Z then
     let '(train_acc, valid_acc, test_acc) := result in
     emit (PrintEpoch (run + 1) epoch loss train_acc valid_acc test_acc)
   else mret ());;
  mret logger.

(** The start of a run: [model.reset_parameters()] and the new
    optimizer (lines 232-233). *)
Definition start_run (args : Namespace.t) (model : RGCN.t) : M nat :=
  emit ResetParameters;;
  RGCN.reset_parameters model;;
  Adam_init (RGCN.parameters model) (Namespace.lr args).

(** One run: the body of the outer loop. *)
Definition run_body (args : Namespace.t) (model : RGCN.t) (data : Data.t)
    (split_idx : Dict string (Dict string (list nat))) (train_idx : list nat)
    (logger : Logger.t) (run : Z) : M Logger.t :=
  optimizer ← start_run args model;
  logger ← foldM (epoch_body args model data split_idx train_idx optimizer run)
             logger (range 1 (1 + Namespace.epochs args));
  Logger.print_statistics logger (Some run);;
  mret logger.

(** [main] up to the evaluator and the logger *)
Definition setup (args : Namespace.t) (cuda_is_available : bool)
    (dataset : Dataset.t) : M (RGCN.t * Data.t * list nat) :=
  let device := if cuda_is_available then cuda (Namespace.device args)
                else cpu in
  let split_idx := Dataset.split_idx dataset in
  data ← load dataset;
  (* We do not consider those attributes for now. *)
  let data := Data.mk (Data.num_nodes_dict data) (Data.edge_index_dict data)
                (Data.x_dict data) (Data.y_dict data) None None
                (Data.adj_t_dict data) in
  emit PrintData;;
  data ← lift (convert data);
  x_items ← dict_items (Data.x_dict data);
  let x_types := dict_keys x_items in
  let edge_types := dict_keys (Data.adj_t_dict data) in
  paper ← dict_getitem (Data.x_dict data) "paper";
  P ← read paper;
  model ← RGCN.init (Z.of_nat (ncols P)) (Namespace.hidden_channels args)
            (Dataset.num_classes dataset) (Namespace.num_layers args)
            (Namespace.dropout args) (Data.num_nodes_dict data)
            x_types edge_types "paper";
  emit (To device);;
  emit (To device);;
  d ← lift (getitem split_idx "train");
  train_idx ← lift (getitem d "paper");
  mret (model, data, train_idx).

(** [main] after the command line is parsed *)
Definition main_args (args : Namespace.t) (cuda_is_available : bool)
    (dataset : Dataset.t) : M unit :=
  emit (PrintArgs args);;
  '(model, data, train_idx) ← setup args cuda_is_available dataset;
  let logger := Logger.init (Namespace.runs args) args in
  logger ← foldM (run_body args model data (Dataset.split_idx dataset) train_idx)
             logger (range 0 (Namespace.runs args));
  Logger.print_statistics logger None.

Definition main (argv : list string) (cuda_is_available : bool)
    (dataset : Dataset.t) : M unit :=
  args ← lift (argparse.parse_args argv);
  main_args args cuda_is_available dataset.
End Main.

(** ** Two instances of the primitives

    [Toy] computes with integers; it serves to run the model on small
    inputs.  [Exact] takes the rationals as scalars, where the laws of
    [ExactScalar] hold.  The primitives of torch are the same simple
    functions in both. *)

Module Simple.
Section Simple.
Context `{Scalar}.
Variable of_nat : nat → R.
Variable ltb : R → R → bool.

Definition const (n m : nat) (v : R) : Tensor := mkTensor m (replicate n (replicate m v)).

Definition digit (c : Ascii.ascii) : option Z :=
  let n := Ascii.nat_of_ascii c in
  if decide (48 ≤ n ≤ 57)%nat then Some (Z.of_nat (n - 48)) else None.

Fixpoint digits (acc : Z) (s : string) : option Z :=
  match s with
  | EmptyString => Some acc
  | String c s' =>
      match digit c with
      | Some d => digits (10 * acc + d)%Z s'
      | None => None
      end
  end.

Definition int (s : string) : option Z :=
  match s with
  | EmptyString => None
  | String c s' =>
      if decide (Ascii.nat_of_ascii c = 45 ∧ s' ≠ EmptyString)
      then Z.opp <$> digits 0 s'
      else digits 0 s
  end.

(** position of the first largest entry of a row *)
Fixpoint argmax_row (best : R) (besti i : nat) (r : list R) : nat :=
  match r with
  | [] => besti
  | a :: r' =>
      if ltb best a then argmax_row a i (S i) r'
      else argmax_row best besti (S i) r'
  end.

Definition argmax_rows (X : Tensor) : list Z :=
  (λ r : list R,
     match r with
     | [] => 0%Z
     | a :: r' => Z.of_nat (argmax_row a 0 1 r')
     end) <$> trows X.

Definition accuracy (y_true y_pred : list Z) : Q :=
  Z.of_nat (length (filter (λ p, p.1 = p.2) (zip y_true y_pred)))
  # Pos.of_nat (length y_true).

Definition torch : Torch := {|
  Float := Q;
  float_of_Q q := q;
  py_int := int;
  py_float s := inject_Z <$> int s;
  RNG := nat;
  Loss := Z;
  AdamState := nat;
  empty n m := const n m rzero;
  kaiming_uniform s g := (const s.1 s.2 (of_nat (S g)), S g);
  bias_uniform _ s g := (const s.1 s.2 (of_nat (S g)), S g);
  xavier_uniform s g := (const s.1 s.2 (of_nat (S g)), S g);
  dropout_train _ X g := (X, S g);
  log_softmax X := X;
  argmax := argmax_rows;
  nll_loss X y := Z.of_nat (length y);
  item := inject_Z;
  backward_grads _ ts _ := imap (λ i X, (i, X)) ts;
  adam_update _ s P g := (add_out P g, S (default 0 s));
  evaluator_eval := accuracy;
|}.
End Simple.
End Simple.

Module Toy.
#[export] Instance scalar : Scalar := {|
  R := Z;
  rzero := 0%Z;
  radd := Z.add;
  rmul := Z.mul;
  rdivn a n := (a / Z.of_nat n)%Z;
  rrelu := Z.max 0;
|}.

#[export] Instance torch : Torch := Simple.torch Z.of_nat Z.ltb.

Definition world0 : world := mkWorld [] [] [] [] 0 true true.

(** a graph with two papers and one author *)
Definition dataset : Dataset.t := {|
  Dataset.num_classes := 2;
  Dataset.split_idx :=
    [("train", [("paper", [0])]); ("valid", [("paper", [1])]);
     ("test", [("paper", [1])])];
  Dataset.num_nodes_dict := [("author", 1); ("paper", 2)];
  Dataset.edge_index_dict :=
    [(("author", "writes", "paper"), ([0; 0], [0; 1]));
     (("paper", "cites", "paper"), ([0], [1]))];
  Dataset.x_dict := [("paper", mkTensor 2 [[1; 2]; [3; 4]]%Z)];
  Dataset.y_dict := [("paper", [0; 1]%Z)];
  Dataset.node_year_dict := [];
  Dataset.edge_reltype_dict := [];
|}.

(** a layer over two node types, in a state that holds two feature
    tensors and a dictionary of them *)
Definition w_feat : world :=
  mkWorld [mkTensor 2 [[1; 2]; [3; 4]]%Z; mkTensor 2 [[5; 6]]%Z]
          [[("paper", 0); ("author", 1)]] [] [] 0 true true.

Definition conv_run : outcome RGCNConv.t :=
  RGCNConv.init 2 2 ["author"; "paper"]
    [("author", "writes", "paper"); ("paper", "cites", "paper")] w_feat.

Definition conv : RGCNConv.t :=
  match res conv_run with
  | Ok self => self
  | Raise _ => RGCNConv.mk 2 2 [] [] [] []
  end.

Definition w_conv : world := final conv_run.

Definition adj_t_dict : list (string * string * string * SparseTensor) :=
  [(("author", "writes", "paper"), mkSparse [0; 1] [0; 0] (2, 1));
   (("paper", "cites", "paper"), mkSparse [1] [0] (2, 2))].

(** the [data] object of the graph above, before the conversion *)
Definition data : Data.t :=
  Data.mk (Dataset.num_nodes_dict dataset)
          (Some (Dataset.edge_index_dict dataset)) 0
          (Dataset.y_dict dataset) None None [].

(** the state of [main] when the model is built *)
Definition args : Namespace.t :=
  Namespace.mk 0 1 false 2 2 (1 # 2)%Q (1 # 100)%Q 2 2.

Definition setup_run : outcome (RGCN.t * Data.t * list nat) :=
  setup args false dataset world0.

Definition model : RGCN.t :=
  match res setup_run with
  | Ok (model, _, _) => model
  | Raise _ => RGCN.mk "paper" [] [] [] (0 # 1)%Q
  end.

Definition data_setup : Data.t :=
  match res setup_run with
  | Ok (_, data, _) => data
  | Raise _ => data
  end.

Definition w_setup : world := final setup_run.


(** a command line: one run of two epochs, a line every second epoch *)
Definition argv : list string :=
  ["--num_layers"; "2"; "--hidden_channels"; "2"; "--epochs"; "2";
   "--runs"; "1"; "--log_steps"; "2"].

Abbreviation main_run := (main argv false dataset world0).

(** what [argv] parses to, and the same with [--use_sage] *)
Definition args_parsed : Namespace.t :=
  Namespace.mk 0 2 false 2 2 (1 # 2)%Q (1 # 100)%Q 2 1.

Definition args_sage : Namespace.t :=
  Namespace.mk 0 2 true 2 2 (1 # 2)%Q (1 # 100)%Q 2 1.

(** a model of two layers over the graph, built in the state [w_feat] *)
Abbreviation rgcn_run :=
  (RGCN.init 2 2 2 2 (1 # 2)%Q (Dataset.num_nodes_dict dataset) ["paper"]
     (dict_keys adj_t_dict) "paper" w_feat).

Definition rgcn : RGCN.t :=
  match res rgcn_run with
  | Ok model => model
  | Raise _ => RGCN.mk "paper" [] [] [] (0 # 1)%Q
  end.

(** [args_parsed] with another device, and with [log_steps] at 0 *)
Definition args_device : Namespace.t :=
  Namespace.mk 3 2 false 2 2 (1 # 2)%Q (1 # 100)%Q 2 1.

Definition args_zero : Namespace.t :=
  Namespace.mk 0 0 false 2 2 (1 # 2)%Q (1 # 100)%Q 2 1.

(** the state at the start of the first epoch of the first run *)
Definition w_start : world := final (start_run args model w_setup).

(** [data] after the conversion loop *)
Definition data_conv : Data.t :=
  match convert data with
  | Ok data' => data'
  | Raise _ => data
  end.

(** an edge type that ends in a node type without a number of nodes *)
Definition data_unknown : Data.t :=
  Data.mk [("a", 1)] (Some [(("a", "to", "b"), ([0], [0]))]) 0 [] None None [].

(** two node types joined by a relation named ['to'] in each direction *)
Definition data_to : Data.t :=
  Data.mk [("a", 1); ("b", 1)]
          (Some [(("a", "to", "b"), ([0], [0])); (("b", "to", "a"), ([], []))])
          0 [] None None [].

(** [w_conv] with three features for every paper, where the layer
    [conv] expects two *)
Definition w_wide : world :=
  set_tensors (λ ts, <[0 := mkTensor 3 [[1; 2; 3]; [4; 5; 6]]%Z]> ts) w_conv.
End Toy.

Module Exact.
#[export] Instance scalar : Scalar := {|
  R := Qc;
  rzero := 0%Qc;
  radd := Qcplus;
  rmul := Qcmult;
  rdivn a n := (a / Q2Qc (inject_Z (Z.of_nat n)))%Qc;
  rrelu a := if Qclt_le_dec a 0 then 0%Qc else a;
|}.

#[export] Instance exact : ExactScalar.
Proof.
  split; cbn; intros.
  - apply Qcplus_comm.
  - apply Qcplus_assoc.
  - apply Qcplus_0_l.
  - apply Qcmult_0_l.
  - apply Qcmult_plus_distr_l.
  - unfold Qcdiv. apply Qcmult_0_l.
  - unfold Qcdiv. apply Qcmult_plus_distr_l.
  - unfold Qcdiv. ring.
Qed.

#[export] Instance torch : Torch :=
  Simple.torch (λ n, Q2Qc (inject_Z (Z.of_nat n)))
               (λ a b, if Qclt_le_dec a b then true else false).

Definition q (n : Z) : Qc := Q2Qc (inject_Z n).

Definition w_feat : world :=
  mkWorld [mkTensor 2 [[q 1; q 2]; [q 3; q 4]]; mkTensor 2 [[q 5; q 6]]]
          [[("paper", 0); ("author", 1)]] [] [] 0 true true.

Definition conv_run : outcome RGCNConv.t :=
  RGCNConv.init 2 2 ["author"; "paper"]
    [("author", "writes", "paper"); ("paper", "cites", "paper")] w_feat.

Definition conv : RGCNConv.t :=
  match res conv_run with
  | Ok self => self
  | Raise _ => RGCNConv.mk 2 2 [] [] [] []
  end.

Definition w_conv : world := final conv_run.

Definition adj_t_dict : list (string * string * string * SparseTensor) :=
  [(("author", "writes", "paper"), mkSparse [0; 1] [0; 0] (2, 1));
   (("paper", "cites", "paper"), mkSparse [1] [0] (2, 2))].
End Exact.

(** IEEE 754 single precision (torch's float32), with the operations of
    the Standard Library's specification of floating-point arithmetic:
    every result is rounded to the nearest float, ties to even. *)
Module F32.
Definition prec : Z := 24.
Definition emax : Z := 128.

Definition of_nat (n : nat) : spec_float :=
  binary_normalize prec emax (Z.of_nat n) 0 false.

#[export] Instance scalar : Scalar := {|
  R := spec_float;
  rzero := S754_zero false;
  radd := SFadd prec emax;
  rmul := SFmul prec emax;
  rdivn a n := SFdiv prec emax a (of_nat n);
  rrelu a := if SFltb a (S754_zero false) then S754_zero false else a;
|}.

#[export] Instance torch : Torch := Simple.torch of_nat SFltb.

#[global] Instance R_eq_dec : EqDecision (@R scalar).
Proof. unfold R, scalar. solve_decision. Defined.

(** the float [m * 2^e] *)
Definition fl (m : positive) (e : Z) : spec_float := S754_finite false m e.

Definition zero : spec_float := S754_zero false.
Definition one : spec_float := fl 8388608 (-23).
Definition three : spec_float := fl 12582912 (-22).

(** Two papers with one feature each, [1 + 2^-23] and [1]; the relation
    layer of the one edge type has the weight [3] and no bias, the root
    layer is zero. *)
Definition w : world :=
  mkWorld [mkTensor 1 [[fl 8388609 (-23)]; [one]];
           mkTensor 1 [[three]];
           mkTensor 1 [[zero]];
           mkTensor 1 [[zero]]]
          [[("paper", 0)]] [] [] 0 true true.

Definition key : EdgeType := ("paper", "cites", "paper").

Definition conv : RGCNConv.t :=
  RGCNConv.mk 1 1 ["paper"] [key]
    [(RGCNConv.key_str key, Linear.mk 1 1 1 None)]
    [("paper", Linear.mk 1 1 2 (Some 3))].

(** the first paper cites both papers *)
Definition adj_t_dict : list (string * string * string * SparseTensor) :=
  [(key, mkSparse [0; 0] [0; 1] (2, 2))].

End F32.

(** * Reasoning about computations *)

Section Reasoning.
Context `{Torch}.

(** [wps m w Q]: the result and the final state of [m] run from [w]
    satisfy [Q]. *)
Definition wps {A} (m : M A) (w : world) (Q : result A → world → Prop) : Prop :=
  Q (res (m w)) (final (m w)).

Lemma wps_bind {A B} (m : M A) (f : A → M B) w Q :
  wps m w (λ r w', match r with
                   | Ok a => wps (f a) w' Q
                   | Raise e => Q (Raise e) w'
                   end) →
  wps (m ≫= f) w Q.
Proof.
  unfold wps, mbind, M_bind, bind.
  destruct (m w) as [[a|e] w' l]; cbn; [|done].
  by destruct (f a w').
Qed.

Lemma wps_mono {A} (m : M A) w (Q Q' : result A → world → Prop) :
  wps m w Q → (∀ r w', Q r w' → Q' r w') → wps m w Q'.
Proof. unfold wps. auto. Qed.

Lemma wps_ret {A} (a : A) w (Q : result A → world → Prop) :
  Q (Ok a) w → wps (mret a) w Q.
Proof. done. Qed.

(** A loop whose body never raises, with an invariant over the items
    already visited. *)
Lemma wps_for_ok {A} (I : list A → world → Prop) (l : list A) (f : A → M unit)
    w (Q : result unit → world → Prop) :
  I [] w →
  (∀ done a rest w, l = done ++ a :: rest → I done w →
     wps (f a) w (λ r w', r = Ok () ∧ I (done ++ [a]) w')) →
  (∀ w', I l w' → Q (Ok ()) w') →
  wps (for_ l f) w Q.
Proof.
  intros HI Hbody HQ.
  assert (Hgen : ∀ rest done w, l = done ++ rest → I done w →
                   wps (for_ rest f) w Q).
  { induction rest as [|a rest IH]; intros done w1 Hl Hd; cbn [for_].
    - apply wps_ret, HQ. by rewrite Hl, app_nil_r.
    - apply wps_bind. eapply wps_mono; [by eapply Hbody|].
      intros r w2 [-> Hd2]. apply (IH (done ++ [a])); [|done].
      by rewrite <-app_assoc. }
  by apply (Hgen l []).
Qed.

(** A loop with an invariant of the state that holds however the loop
    ends. *)
Lemma wps_for_any {A} (I : world → Prop) (l : list A) (f : A → M unit)
    w (Q : result unit → world → Prop) :
  I w →
  (∀ a w, a ∈ l → I w → wps (f a) w (λ _ w', I w')) →
  (∀ r w', I w' → Q r w') →
  wps (for_ l f) w Q.
Proof.
  intros HI Hbody HQ. revert w HI.
  induction l as [|a l IH]; intros w HI; cbn [for_].
  - by apply wps_ret, HQ.
  - apply wps_bind. eapply wps_mono.
    + apply Hbody; [apply list_elem_of_here|done].
    + intros [[]|e] w' HI'; [|by apply HQ].
      apply IH; [|done]. intros a' w'' Hin. apply Hbody.
      by apply list_elem_of_further.
Qed.

Lemma wps_foldM_any {A B} (I : B → world → Prop) (J : world → Prop)
    (l : list A) (f : B → A → M B) b w (Q : result B → world → Prop) :
  I b w →
  (∀ a b w, a ∈ l → I b w →
     wps (f b a) w (λ r w', match r with
                             | Ok b' => I b' w'
                             | Raise _ => J w'
                             end)) →
  (∀ b' w', I b' w' → Q (Ok b') w') →
  (∀ e w', J w' → Q (Raise e) w') →
  wps (foldM f b l) w Q.
Proof.
  intros HI Hbody HQ HJ. revert b w HI.
  induction l as [|a l IH]; intros b w HI; cbn [foldM].
  - by apply wps_ret, HQ.
  - apply wps_bind. eapply wps_mono.
    + apply Hbody; [apply list_elem_of_here|done].
    + intros [b'|e] w' HI'; [|by apply HJ].
      apply IH; [|done]. intros a' b'' w'' Hin. apply Hbody.
      by apply list_elem_of_further.
Qed.

(** ** Growth of the stores

    [ext w0 w]: every tensor and every dictionary of [w0] is in [w], at
    the same place and unchanged. *)
Definition ext (w0 w : world) : Prop :=
  tensors w0 `prefix_of` tensors w ∧ dicts w0 `prefix_of` dicts w.

Lemma ext_refl w : ext w w.
Proof. by split. Qed.

Lemma ext_trans w0 w1 w2 : ext w0 w1 → ext w1 w2 → ext w0 w2.
Proof. intros [??] [??]. split; by etrans. Qed.

Lemma ext_length_tensors w0 w : ext w0 w → length (tensors w0) ≤ length (tensors w).
Proof. intros [? _]. by apply prefix_length. Qed.

Lemma ext_length_dicts w0 w : ext w0 w → length (dicts w0) ≤ length (dicts w).
Proof. intros [_ ?]. by apply prefix_length. Qed.

Lemma ext_alloc w0 w x : ext w0 w → ext w0 (set_tensors (λ ts, ts ++ [x]) w).
Proof. intros [??]. split; [|done]. cbn. by apply prefix_app_r. Qed.

Lemma ext_new_dict w0 w d : ext w0 w → ext w0 (set_dicts (λ ds, ds ++ [d]) w).
Proof. intros [??]. split; [done|]. cbn. by apply prefix_app_r. Qed.

Lemma ext_write w0 w l x :
  ext w0 w → length (tensors w0) ≤ l → ext w0 (set_tensors (λ ts, <[l := x]> ts) w).
Proof.
  intros [[k Hk] ?] Hl. split; [|done]. cbn. rewrite Hk.
  rewrite insert_app_r_alt by done. by eexists.
Qed.

Lemma ext_setitem w0 w r (g : Dict string loc → Dict string loc) :
  ext w0 w → length (dicts w0) ≤ r → ext w0 (set_dicts (alter g r) w).
Proof.
  intros [? [k Hk]] Hl. split; [done|]. cbn. rewrite Hk.
  rewrite alter_app_r_alt by done. by eexists.
Qed.

Lemma ext_set_rng w0 w g : ext w0 w → ext w0 (set_rng g w).
Proof. by intros [??]. Qed.

Lemma ext_tensor_at w0 w l :
  ext w0 w → l < length (tensors w0) → tensor_at w l = tensor_at w0 l.
Proof.
  intros [[k Hk] _] Hl. unfold tensor_at. by rewrite Hk, lookup_app_l.
Qed.

Lemma ext_dict_at w0 w r :
  ext w0 w → r < length (dicts w0) → dict_at w r = dict_at w0 r.
Proof.
  intros [_ [k Hk]] Hl. unfold dict_at. by rewrite Hk, lookup_app_l.
Qed.
End Reasoning.

(** ** The primitives, one step at a time *)

Section Primitives.
Context `{Torch}.

Lemma wps_lift {A} (r : result A) w (Q : result A → world → Prop) :
  Q r w → wps (lift r) w Q.
Proof. done. Qed.

Lemma wps_raise {A} e w (Q : result A → world → Prop) :
  Q (Raise e) w → wps (raise e) w Q.
Proof. done. Qed.

Lemma wps_gets {A} (f : world → A) w (Q : result A → world → Prop) :
  Q (Ok (f w)) w → wps (gets f) w Q.
Proof. done. Qed.

Lemma wps_modify f w (Q : result unit → world → Prop) :
  Q (Ok ()) (f w) → wps (modify f) w Q.
Proof. done. Qed.

Lemma wps_emit e w (Q : result unit → world → Prop) :
  Q (Ok ()) w → wps (emit e) w Q.
Proof. done. Qed.

Lemma wps_read l w (Q : result Tensor → world → Prop) :
  Q (Ok (tensor_at w l)) w → wps (read l) w Q.
Proof. done. Qed.

Lemma wps_alloc x w (Q : result loc → world → Prop) :
  Q (Ok (length (tensors w))) (set_tensors (λ ts, ts ++ [x]) w) →
  wps (alloc x) w Q.
Proof. done. Qed.

Lemma wps_write l x w (Q : result unit → world → Prop) :
  Q (Ok ()) (set_tensors (λ ts, <[l := x]> ts) w) → wps (write l x) w Q.
Proof. done. Qed.

Lemma wps_rand {A} (f : RNG → A * RNG) w (Q : result A → world → Prop) :
  Q (Ok (f (rng w)).1) (set_rng (f (rng w)).2 w) → wps (rand f) w Q.
Proof. done. Qed.

Lemma wps_new_dict d w (Q : result nat → world → Prop) :
  Q (Ok (length (dicts w))) (set_dicts (λ ds, ds ++ [d]) w) →
  wps (new_dict d) w Q.
Proof. done. Qed.

Lemma wps_dict_items r w (Q : result (Dict string loc) → world → Prop) :
  Q (Ok (dict_at w r)) w → wps (dict_items r) w Q.
Proof. done. Qed.

Lemma wps_dict_getitem r key w (Q : result loc → world → Prop) :
  Q (getitem (dict_at w r) key) w → wps (dict_getitem r key) w Q.
Proof.
  unfold wps, dict_getitem, dict_items, gets, lift, mbind, M_bind, bind. cbn.
  by destruct (getitem (dict_at w r) key).
Qed.

Lemma wps_dict_setitem r key v w (Q : result unit → world → Prop) :
  Q (Ok ()) (set_dicts (alter (dict_set key v) r) w) →
  wps (dict_setitem r key v) w Q.
Proof. done. Qed.

Lemma wps_Linear_forward self x w (Q : result loc → world → Prop) :
  match Linear.apply w self (tensor_at w x) with
  | Ok Y => Q (Ok (length (tensors w))) (set_tensors (λ ts, ts ++ [Y]) w)
  | Raise e => Q (Raise e) w
  end →
  wps (Linear.forward self x) w Q.
Proof.
  unfold wps, Linear.forward, read, gets, lift, alloc, mbind, M_bind, bind.
  cbn. by destruct (Linear.apply w self (tensor_at w x)).
Qed.

Lemma wps_add_ x y w (Q : result unit → world → Prop) :
  match tadd (tensor_at w x) (tensor_at w y) with
  | Ok Z => Q (Ok ()) (set_tensors (λ ts, <[x := Z]> ts) w)
  | Raise e => Q (Raise e) w
  end →
  wps (add_ x y) w Q.
Proof.
  unfold wps, add_, read, gets, lift, write, modify, mbind, M_bind, bind.
  cbn. by destruct (tadd (tensor_at w x) (tensor_at w y)).
Qed.

Lemma wps_F_relu_ x w (Q : result loc → world → Prop) :
  Q (Ok x) (set_tensors (λ ts, <[x := trelu (tensor_at w x)]> ts) w) →
  wps (F_relu_ x) w Q.
Proof. done. Qed.

(** *** Reading the stores after a step *)

Lemma tensor_at_alloc w x l :
  tensor_at (set_tensors (λ ts, ts ++ [x]) w) l =
    if decide (l = length (tensors w)) then x
    else if decide (l < length (tensors w)) then tensor_at w l
    else mkTensor 0 [].
Proof.
  unfold tensor_at. cbn. repeat case_decide; subst.
  - by rewrite list_lookup_middle.
  - by rewrite lookup_app_l.
  - rewrite lookup_ge_None_2; [done|]. rewrite length_app. cbn. lia.
Qed.

Lemma tensor_at_write w l x l' :
  tensor_at (set_tensors (λ ts, <[l := x]> ts) w) l' =
    if decide (l = l' ∧ l < length (tensors w)) then x else tensor_at w l'.
Proof.
  unfold tensor_at. cbn. case_decide as Hd.
  - destruct Hd as [Heq Hl]. subst l'. by rewrite list_lookup_insert_eq.
  - destruct (decide (l = l')) as [->|Hne].
    + rewrite list_insert_ge; [done|]. lia.
    + by rewrite list_lookup_insert_ne.
Qed.

Lemma dict_at_new w d r :
  dict_at (set_dicts (λ ds, ds ++ [d]) w) r =
    if decide (r = length (dicts w)) then d
    else if decide (r < length (dicts w)) then dict_at w r
    else [].
Proof.
  unfold dict_at. cbn. repeat case_decide; subst.
  - by rewrite list_lookup_middle.
  - by rewrite lookup_app_l.
  - rewrite lookup_ge_None_2; [done|]. rewrite length_app. cbn. lia.
Qed.

Lemma dict_at_setitem w r g r' :
  dict_at (set_dicts (alter g r) w) r' =
    if decide (r = r' ∧ r < length (dicts w)) then g (dict_at w r)
    else dict_at w r'.
Proof.
  unfold dict_at. cbn. case_decide as Hd.
  - destruct Hd as [Heq Hl]. subst r'.
    rewrite list_lookup_alter, decide_True by done.
    apply lookup_lt_is_Some_2 in Hl as [d Hd]. by rewrite Hd.
  - destruct (decide (r = r')) as [->|Hne].
    + rewrite list_lookup_alter, decide_True by done.
      rewrite lookup_ge_None_2; [done|]. lia.
    + by rewrite list_lookup_alter_ne.
Qed.
End Primitives.

Ltac wps_step :=
  cbv beta iota zeta;
  lazymatch goal with
  | |- wps (mbind _ _) _ _ => apply wps_bind
  | |- wps (mret _) _ _ => apply wps_ret
  | |- wps (read _) _ _ => apply wps_read
  | |- wps (gets _) _ _ => apply wps_gets
  | |- wps (alloc _) _ _ => apply wps_alloc
  | |- wps (write _ _) _ _ => apply wps_write
  | |- wps (rand _) _ _ => apply wps_rand
  | |- wps (new_dict _) _ _ => apply wps_new_dict
  | |- wps (dict_items _) _ _ => apply wps_dict_items
  | |- wps (dict_setitem _ _ _) _ _ => apply wps_dict_setitem
  | |- wps (dict_getitem _ _) _ _ => apply wps_dict_getitem
  | |- wps (Linear.forward _ _) _ _ => apply wps_Linear_forward
  | |- wps (add_ _ _) _ _ => apply wps_add_
  | |- wps (F_relu_ _) _ _ => apply wps_F_relu_
  | |- wps (modify _) _ _ => apply wps_modify
  | |- wps (emit _) _ _ => apply wps_emit
  | |- wps (raise _) _ _ => apply wps_raise
  | |- wps (lift _) _ _ => apply wps_lift
  end;
  cbv beta iota zeta.

(** * What forward leaves alone *)

Section Frame.
Context `{Torch}.

(** The tensors a [dict] object names were all made after [w0]. *)
Definition fresh_values (w0 w : world) (r : nat) : Prop :=
  ∀ v, v ∈ dict_values (dict_at w r) → length (tensors w0) ≤ v.

Lemma RGCNConv_forward_frame self x adj w :
  wps (RGCNConv.forward self x adj) w (λ r w',
    ext w w' ∧
    ∀ out, r = Ok out →
      length (dicts w) ≤ out ∧ out < length (dicts w') ∧ fresh_values w w' out).
Proof.
  unfold RGCNConv.forward. wps_step. wps_step.
  set (out := length (dicts w)).
  set (I := λ w' : world, ext w w' ∧ out < length (dicts w') ∧ fresh_values w w' out).
  assert (Hset : ∀ w' key v, I w' → length (tensors w) ≤ v →
            I (set_dicts (alter (dict_set key v) out) w')).
  { intros w' key v (Hext & Hlt & Hv) Hle. split_and!.
    - by apply ext_setitem.
    - cbn. by rewrite length_alter.
    - intros v'. rewrite dict_at_setitem, decide_True by done.
      intros [->|Hin]%dict_values_set; [done|by apply Hv]. }
  assert (Halloc : ∀ w' X, I w' → I (set_tensors (λ ts, ts ++ [X]) w')).
  { intros w' X (Hext & Hlt & Hv). split_and!; [by apply ext_alloc|done|done]. }
  wps_step. apply (wps_for_any I).
  { split_and!.
    - apply ext_new_dict, ext_refl.
    - cbn. rewrite length_app. cbn. lia.
    - intros v. rewrite dict_at_new, decide_True by done.
      by intros ?%elem_of_nil. }
  { intros key w' _ HI. wps_step. wps_step.
    destruct (getitem (RGCNConv.root_lins self) key) as [lin|e]; [|done].
    wps_step. wps_step.
    destruct (getitem (dict_at w' x) key) as [xl|e]; [|done].
    wps_step. wps_step.
    destruct (Linear.apply w' lin (tensor_at w' xl)) as [Y|e]; [|done].
    wps_step.
    apply Hset; [by apply Halloc|].
    destruct HI as (Hext & _). by apply ext_length_tensors. }
  intros [[]|e] w1 HI; [|by destruct HI].
  wps_step. apply (wps_for_any I); [done| |].
  { clear w1 HI. intros key w' _ HI. wps_step. wps_step.
    destruct (getitem (dict_at w' x) key.1.1) as [xl|e]; [|done].
    wps_step. wps_step.
    destruct (getitem adj key) as [adj_t|e]; [|done].
    wps_step. wps_step.
    destruct (getitem (RGCNConv.rel_lins self) (RGCNConv.key_str key)) as [lin|e]; [|done].
    do 4 wps_step.
    destruct (matmul_mean adj_t (tensor_at w' xl)) as [A|e]; [|done].
    do 4 wps_step.
    set (w1 := set_tensors _ w').
    assert (HI1 : I w1) by (by apply Halloc).
    destruct (Linear.apply w1 lin _) as [Y|e]; [|done].
    do 2 wps_step.
    set (w2 := set_tensors _ w1).
    assert (HI2 : I w2) by (by apply Halloc).
    destruct (getitem (dict_at w2 out) key.2) as [o|e] eqn:Ho; [|done].
    wps_step. destruct HI2 as (Hext & Hlt & Hv).
    destruct (tadd _ _) as [Z|e]; [|done]. split_and!; [|done|done].
    apply ext_write; [done|]. apply Hv.
    apply getitem_Ok in Ho. by eapply dict_get_Some_values. }
  clear w1 HI. intros [[]|e] w2 HI; [|by destruct HI].
  wps_step. destruct HI as (Hext & Hlt & Hv). split; [done|].
  intros ? [= <-]. done.
Qed.

Lemma RGCN_forward_frame self x adj w :
  wps (RGCN.forward self x adj) w (λ _ w', ext w w').
Proof.
  unfold RGCN.forward. do 4 wps_step.
  set (xd := length (dicts w)). set (w1 := set_dicts _ w).
  assert (Hext1 : ext w w1) by apply ext_new_dict, ext_refl.
  do 3 wps_step. apply (wps_for_any (ext w)); [done| |].
  { intros [key xl] w' _ Hext. do 2 wps_step.
    destruct (getitem (RGCN.lins self) key) as [lin|e]; [|done].
    do 2 wps_step. destruct (Linear.apply w' lin _) as [Y|e]; [|done].
    wps_step. apply ext_setitem; [by apply ext_alloc|done]. }
  clear w1 Hext1. intros [[]|e] w2 Hext2; [|done].
  wps_step. apply (wps_for_any (ext w)); [done| |].
  { intros [key emb] w' _ Hext. wps_step. by apply ext_setitem. }
  clear w2 Hext2. intros [[]|e] w3 Hext3; [|done].
  wps_step.
  apply (wps_foldM_any (λ b w', ext w w' ∧ length (dicts w) ≤ b) (ext w)).
  - done.
  - intros conv b w' _ [Hext Hb]. wps_step.
    eapply wps_mono; [apply RGCNConv_forward_frame|].
    intros [out|e] w4 [Hext4 Hout]; [|by eapply ext_trans].
    destruct (Hout out eq_refl) as (Hle & Hlt & Hfresh).
    assert (Hext04 : ext w w4) by (by eapply ext_trans).
    do 3 wps_step. apply (wps_for_any (ext w)); [done| |].
    + intros [key xl] w5 Hin Hext5.
      assert (Hxl : length (tensors w) ≤ xl).
      { etrans; [exact (ext_length_tensors _ _ Hext)|]. apply Hfresh.
        apply list_elem_of_fmap. by exists (key, xl). }
      assert (Hout0 : length (dicts w) ≤ out).
      { etrans; [exact (ext_length_dicts _ _ Hext)|done]. }
      do 6 wps_step.
      set (w6 := set_dicts _ (set_tensors _ w5)).
      assert (Hext6 : ext w w6) by (apply ext_setitem; [by apply ext_write|done]).
      wps_step. unfold F_dropout. destruct (training w6).
      * do 6 wps_step. apply ext_setitem; [by apply ext_alloc, ext_set_rng|done].
      * do 2 wps_step. by apply ext_setitem.
    + intros [[]|e'] w5 Hext5; [|done]. wps_step. split; [done|].
      etrans; [exact (ext_length_dicts _ _ Hext)|done].
  - intros b w' [Hext Hb]. do 2 wps_step.
    destruct (last (RGCN.convs self)) as [conv|]; [|done].
    wps_step. eapply wps_mono; [apply RGCNConv_forward_frame|].
    intros [out|e] w4 [Hext4 Hout]; [|by eapply ext_trans].
    assert (Hext04 : ext w w4) by (by eapply ext_trans).
    do 2 wps_step.
    destruct (getitem (dict_at w4 out) (RGCN.out_type self)) as [o|e]; [|done].
    do 3 wps_step. by apply ext_alloc.
  - done.
Qed.
End Frame.

(** * What RGCNConv.forward computes *)

Section ConvSpec.
Context `{Torch}.

(** the value of a result, when there is one *)
Definition ok {A} (r : result A) : option A :=
  match r with Ok a => Some a | Raise _ => None end.

(** [root_lins[k](x_dict[k])], in the state [w] *)
Definition root (w : world) (self : RGCNConv.t) (x_dict : Dict string loc)
    (k : string) : option Tensor :=
  lin ← dict_get k (RGCNConv.root_lins self);
  x ← dict_get k x_dict;
  ok (Linear.apply w lin (tensor_at w x)).

(** [rel_lins[(s, r, d)]] applied to the mean aggregation of [x_dict[s]]
    over the edges of the relation *)
Definition message (w : world) (self : RGCNConv.t) (x_dict : Dict string loc)
    (adj_t_dict : Dict EdgeType SparseTensor) (key : EdgeType) : option Tensor :=
  lin ← dict_get (RGCNConv.key_str key) (RGCNConv.rel_lins self);
  x ← dict_get key.1.1 x_dict;
  adj_t ← dict_get key adj_t_dict;
  ok (A ← matmul_mean adj_t (tensor_at w x); Linear.apply w lin A).

(** [r.add_(m)] for every [m] of [ms], one after the other *)
Definition add_all (r : Tensor) (ms : list Tensor) : option Tensor :=
  foldl (λ acc m, a ← acc; ok (tadd a m)) (Some r) ms.

(** The entry of node type [k]: the root term plus the messages of the
    edge types that end in [k], added one after the other in the order of
    [edge_types]. *)
Definition conv_entry (w : world) (self : RGCNConv.t) (x_dict : Dict string loc)
    (adj_t_dict : Dict EdgeType SparseTensor) (k : string) : option Tensor :=
  r ← root w self x_dict k;
  ms ← mapM (message w self x_dict adj_t_dict)
         (filter (λ key : EdgeType, key.2 = k) (RGCNConv.edge_types self));
  add_all r ms.

(** The references the layer holds and is given are allocated. *)
Definition Linear_valid (w : world) (lin : Linear.t) : Prop :=
  Forall (λ p, p < length (tensors w)) (Linear.parameters lin).

Definition conv_valid (w : world) (self : RGCNConv.t) : Prop :=
  Forall (Linear_valid w)
         (dict_values (RGCNConv.rel_lins self)
          ++ dict_values (RGCNConv.root_lins self)).

Definition dict_valid (w : world) (r : nat) : Prop :=
  r < length (dicts w) ∧
  Forall (λ v, v < length (tensors w)) (dict_values (dict_at w r)).

(** The keys that [forward] looks up are there. *)
Definition conv_keys (self : RGCNConv.t) (x_dict : Dict string loc)
    (adj_t_dict : Dict EdgeType SparseTensor) : Prop :=
  Forall (λ k, k ∈ dict_keys (RGCNConv.root_lins self) ∧ k ∈ dict_keys x_dict)
         (RGCNConv.node_types self) ∧
  Forall (λ key : EdgeType,
            key.1.1 ∈ dict_keys x_dict ∧
            key ∈ dict_keys adj_t_dict ∧
            RGCNConv.key_str key ∈ dict_keys (RGCNConv.rel_lins self) ∧
            key.2 ∈ RGCNConv.node_types self)
         (RGCNConv.edge_types self).

(** [X] is a tensor of [n] rows and [m] columns. *)
Definition has_shape (X : Tensor) (n m : Z) : Prop :=
  wf_tensor X ∧ Z.of_nat (length (trows X)) = n ∧ Z.of_nat (ncols X) = m.

(** The parameters of a [Linear(i, o)] have the shapes its constructor
    gives them: the weight [(o, i)] and the bias, if any, [o] entries. *)
Definition Linear_shaped (w : world) (i o : Z) (lin : Linear.t) : Prop :=
  has_shape (tensor_at w (Linear.weight lin)) o i ∧
  match Linear.bias lin with
  | Some b => has_shape (tensor_at w b) 1 o
  | None => True
  end.

(** The adjacency of the edge type [key = (s, r, d)] fits the features:
    its coordinates are within its sparse sizes, it has a column for
    every node of type [s], and a row for every node of type [d] (or a
    single row, which [add_] broadcasts). *)
Definition adj_fits (w : world) (x_dict : Dict string loc)
    (adj_t_dict : Dict EdgeType SparseTensor) (key : EdgeType) : Prop :=
  match dict_get key adj_t_dict, dict_get key.1.1 x_dict,
        dict_get key.2 x_dict with
  | Some A, Some s, Some d =>
      length (row A) = length (col A) ∧
      Forall (λ i, i < (sparse_sizes A).1) (row A) ∧
      Forall (λ j, j < (sparse_sizes A).2) (col A) ∧
      (sparse_sizes A).2 = length (trows (tensor_at w s)) ∧
      ((sparse_sizes A).1 = length (trows (tensor_at w d))
       ∨ (sparse_sizes A).1 = 1)
  | _, _, _ => False
  end.

(** The shapes that [forward] relies on: every layer maps [in_channels]
    features to [out_channels], every feature tensor has [in_channels]
    columns, and every adjacency fits the features of its node types. *)
Definition conv_shapes (w : world) (self : RGCNConv.t)
    (x_dict : Dict string loc) (adj_t_dict : Dict EdgeType SparseTensor)
  : Prop :=
  Forall (Linear_shaped w (RGCNConv.in_channels self)
                        (RGCNConv.out_channels self))
         (dict_values (RGCNConv.rel_lins self)
          ++ dict_values (RGCNConv.root_lins self)) ∧
  Forall (λ x, wf_tensor (tensor_at w x) ∧
               Z.of_nat (ncols (tensor_at w x)) = RGCNConv.in_channels self)
         (dict_values x_dict) ∧
  Forall (adj_fits w x_dict adj_t_dict) (RGCNConv.edge_types self).

#[global] Instance has_shape_dec X n m : Decision (has_shape X n m).
Proof. unfold has_shape. apply _. Defined.

#[global] Instance Linear_shaped_dec w i o lin :
  Decision (Linear_shaped w i o lin).
Proof. unfold Linear_shaped. destruct (Linear.bias lin); apply _. Defined.

#[global] Instance adj_fits_dec w x_dict adj_t_dict key :
  Decision (adj_fits w x_dict adj_t_dict key).
Proof.
  unfold adj_fits.
  destruct (dict_get key adj_t_dict), (dict_get key.1.1 x_dict),
    (dict_get key.2 x_dict); apply _.
Defined.

#[global] Instance conv_shapes_dec w self x_dict adj_t_dict :
  Decision (conv_shapes w self x_dict adj_t_dict).
Proof. unfold conv_shapes. apply _. Defined.

Lemma Linear_apply_ext w0 w lin X :
  ext w0 w → Linear_valid w0 lin → Linear.apply w lin X = Linear.apply w0 lin X.
Proof.
  intros Hext Hv. unfold Linear.apply. f_equal.
  - apply ext_tensor_at; [done|]. by apply Forall_cons in Hv as [? _].
  - unfold Linear_valid, Linear.parameters in Hv.
    destruct (Linear.bias lin) as [b|]; [|done]. cbn. f_equal.
    apply ext_tensor_at; [done|].
    by apply Forall_cons in Hv as [_ [? _]%Forall_cons].
Qed.

(** A layer of the right shape accepts every tensor of [i] columns. *)
Lemma Linear_apply_Ok w i o lin X :
  Linear_shaped w i o lin → wf_tensor X → Z.of_nat (ncols X) = i →
  ∃ Y, Linear.apply w lin X = Ok Y ∧ wf_tensor Y ∧
       length (trows Y) = length (trows X) ∧ Z.of_nat (ncols Y) = o.
Proof.
  intros [(HW & HWr & HWc) Hb] HX Hc. unfold Linear.apply.
  assert (Hok : linear_ok X (tensor_at w (Linear.weight lin))
                          (tensor_at w <$> Linear.bias lin)).
  { split_and!; [done|done|lia|].
    destruct (Linear.bias lin) as [b|]; cbn; [|done].
    destruct Hb as (Hbw & Hbr & Hbc). split; [done|].
    unfold shape. f_equal; lia. }
  rewrite F_linear_Ok by done. eexists. split; [done|].
  destruct (linear_out_shape _ _ _ Hok) as [Hwf Hs].
  apply pair_equal_spec in Hs as [Hr _]. split_and!; [done|done|exact HWr].
Qed.

Lemma add_all_snoc r ms m :
  add_all r (ms ++ [m]) = a ← add_all r ms; ok (tadd a m).
Proof. unfold add_all. by rewrite foldl_snoc. Qed.

(** The tensor at [l] is the root term of [k] with the messages of the
    edge types in [done] that end in [k]; it has the shape of the root
    term. *)
Definition entry_is (w0 w : world) (self : RGCNConv.t) (x_dict : Dict string loc)
    (adj_t_dict : Dict EdgeType SparseTensor) (done : list EdgeType)
    (k : string) (l : loc) : Prop :=
  ∃ r ms,
    root w0 self x_dict k = Some r ∧
    Forall2 (λ key m, message w0 self x_dict adj_t_dict key = Some m)
            (filter (λ key : EdgeType, key.2 = k) done) ms ∧
    add_all r ms = Some (tensor_at w l) ∧
    wf_tensor (tensor_at w l) ∧ shape (tensor_at w l) = shape r.

Definition conv_inv (w0 : world) (self : RGCNConv.t) (x_dict : Dict string loc)
    (adj_t_dict : Dict EdgeType SparseTensor) (out : nat)
    (nodes : list string) (edges : list EdgeType) (w : world) : Prop :=
  ext w0 w ∧ out < length (dicts w) ∧
  (∀ k, k ∈ dict_keys (dict_at w out) ↔ k ∈ nodes) ∧
  (∀ k l, dict_get k (dict_at w out) = Some l →
     length (tensors w0) ≤ l < length (tensors w) ∧
     entry_is w0 w self x_dict adj_t_dict edges k l) ∧
  (∀ k k' l, dict_get k (dict_at w out) = Some l →
     dict_get k' (dict_at w out) = Some l → k = k').
End ConvSpec.

Section ConvCorrect.
Context `{Torch}.

Lemma tensor_at_set_dicts f w l : tensor_at (set_dicts f w) l = tensor_at w l.
Proof. done. Qed.

Lemma dict_at_set_tensors f w r : dict_at (set_tensors f w) r = dict_at w r.
Proof. done. Qed.

Lemma getitem_elem_of {K V} `{EqDecision K} (d : Dict K V) k :
  k ∈ dict_keys d → ∃ v, getitem d k = Ok v ∧ dict_get k d = Some v.
Proof.
  intros [v Hv]%dict_get_is_Some. exists v. split; [|done]. by apply getitem_Ok.
Qed.

Lemma dict_keys_set_elem {K V} `{EqDecision K} (d : Dict K V) k v k' :
  k' ∈ dict_keys (dict_set k v d) ↔ k' ∈ dict_keys d ∨ k' = k.
Proof.
  rewrite dict_keys_set. case_decide as Hin.
  - split; [by left|]. intros [?| ->]; done.
  - rewrite elem_of_app, list_elem_of_singleton. done.
Qed.

Variable w0 : world.
Variable self : RGCNConv.t.
Variable x : nat.
Variable adj : Dict EdgeType SparseTensor.
Hypothesis Hx : dict_valid w0 x.
Hypothesis Hself : conv_valid w0 self.
Hypothesis Hkeys : conv_keys self (dict_at w0 x) adj.
Hypothesis Hshapes : conv_shapes w0 self (dict_at w0 x) adj.

Local Abbreviation out := (length (dicts w0)).
Local Abbreviation xd := (dict_at w0 x).

(** the root term of a node type, and its shape *)
Lemma conv_root_Ok a lin xl :
  dict_get a (RGCNConv.root_lins self) = Some lin →
  dict_get a xd = Some xl →
  ∃ Y, Linear.apply w0 lin (tensor_at w0 xl) = Ok Y ∧
       root w0 self xd a = Some Y ∧ wf_tensor Y ∧
       length (trows Y) = length (trows (tensor_at w0 xl)) ∧
       Z.of_nat (ncols Y) = RGCNConv.out_channels self.
Proof.
  intros Hlin Hxl. destruct Hshapes as (Hlins & Hxs & _).
  rewrite Forall_forall in Hlins. rewrite Forall_forall in Hxs.
  destruct (Hxs xl) as [Hwf Hc]; [by eapply dict_get_Some_values|].
  destruct (Linear_apply_Ok w0 (RGCNConv.in_channels self)
              (RGCNConv.out_channels self) lin (tensor_at w0 xl))
    as (Y & HY & HYs);
    [|done|done|].
  { apply Hlins, elem_of_app. right. by eapply dict_get_Some_values. }
  exists Y. split; [done|]. split; [|done].
  unfold root. rewrite Hlin. cbn. rewrite Hxl. cbn. by rewrite HY.
Qed.

Lemma conv_node_step nodes a w :
  a ∈ RGCNConv.node_types self →
  conv_inv w0 self xd adj out nodes [] w →
  wps (lin ← lift (getitem (RGCNConv.root_lins self) a);
       x ← dict_getitem x a;
       y ← Linear.forward lin x;
       dict_setitem out a y) w
      (λ r w', r = Ok () ∧ conv_inv w0 self xd adj out (nodes ++ [a]) [] w').
Proof.
  intros Hin (Hext & Hlt & Hk & Hent & Hinj).
  destruct Hkeys as [Hkn _]. rewrite Forall_forall in Hkn.
  destruct (Hkn a Hin) as [Hroot Hxa].
  apply getitem_elem_of in Hroot as (lin & Hlin & Hlin').
  apply getitem_elem_of in Hxa as (xl & Hxl & Hxl').
  destruct Hx as [Hxlt Hxv]. rewrite Forall_forall in Hxv.
  assert (Hxl0 : xl < length (tensors w0)).
  { apply Hxv. by eapply dict_get_Some_values. }
  assert (Hlinv : Linear_valid w0 lin).
  { pose proof Hself as Hself'. unfold conv_valid in Hself'.
    rewrite Forall_forall in Hself'. apply Hself', elem_of_app. right.
    by eapply dict_get_Some_values. }
  destruct (conv_root_Ok a lin xl Hlin' Hxl') as (T & HT & Hr & HTs).
  do 2 wps_step. rewrite Hlin. do 2 wps_step.
  rewrite (ext_dict_at w0 w) by done. rewrite Hxl.
  do 2 wps_step.
  rewrite (Linear_apply_ext w0), (ext_tensor_at w0), HT by done.
  wps_step. split; [done|].
  pose proof (ext_length_tensors _ _ Hext) as Hlen.
  unfold conv_inv. split_and!.
  - apply ext_setitem; [by apply ext_alloc|done].
  - cbn. by rewrite length_alter.
  - intros k. rewrite dict_at_setitem, decide_True by done.
    rewrite dict_at_set_tensors, dict_keys_set_elem, elem_of_app,
      list_elem_of_singleton. by rewrite Hk.
  - intros k l. rewrite dict_at_setitem, decide_True by done.
    rewrite dict_at_set_tensors, dict_get_set. case_decide as Hak.
    + intros [= <-]. subst k. split.
      { cbn. rewrite length_app. cbn. lia. }
      exists T, []. rewrite tensor_at_set_dicts, tensor_at_alloc.
      rewrite decide_True by done. split_and!; [done|constructor|done| |done].
      by destruct HTs.
    + intros Hl.
      destruct (Hent k l Hl) as [[Hl1 Hl2] (r & ms & Hr' & Hms & Ht)].
      split.
      { cbn. rewrite length_app. cbn. lia. }
      exists r, ms. rewrite tensor_at_set_dicts, tensor_at_alloc.
      rewrite decide_False, decide_True by lia. done.
  - intros k k' l. rewrite dict_at_setitem, decide_True by done.
    rewrite dict_at_set_tensors, !dict_get_set.
    repeat case_decide; subst; try done.
    + intros [= <-] Hl. destruct (Hent _ _ Hl) as [[_ ?] _]. lia.
    + intros Hl [= <-]. destruct (Hent _ _ Hl) as [[_ ?] _]. lia.
    + apply Hinj.
Qed.

(** the message of an edge type, and its shape *)
Lemma conv_message_Ok a xl A lin dl :
  a ∈ RGCNConv.edge_types self →
  dict_get a.1.1 xd = Some xl → dict_get a adj = Some A →
  dict_get (RGCNConv.key_str a) (RGCNConv.rel_lins self) = Some lin →
  dict_get a.2 xd = Some dl →
  ∃ M L, matmul_mean A (tensor_at w0 xl) = Ok M ∧
         Linear.apply w0 lin M = Ok L ∧
         message w0 self xd adj a = Some L ∧ wf_tensor L ∧
         (length (trows L) = length (trows (tensor_at w0 dl))
          ∨ length (trows L) = 1) ∧
         Z.of_nat (ncols L) = RGCNConv.out_channels self.
Proof.
  intros Hin Hxl HA Hlin Hdl. destruct Hshapes as (Hlins & Hxs & Hadj).
  rewrite Forall_forall in Hlins. rewrite Forall_forall in Hxs.
  rewrite Forall_forall in Hadj.
  destruct (Hxs xl) as [Hwf Hc]; [by eapply dict_get_Some_values|].
  pose proof (Hadj a Hin) as Hfit. unfold adj_fits in Hfit.
  rewrite HA, Hxl, Hdl in Hfit.
  destruct Hfit as (Hlen & Hrow & Hcol & Hs2 & Hs1).
  destruct (matmul_mean_Ok A (tensor_at w0 xl)) as (M & HM & HMwf & HMs);
    [by split_and!|].
  apply pair_equal_spec in HMs as [HMr HMc].
  destruct (Linear_apply_Ok w0 (RGCNConv.in_channels self)
              (RGCNConv.out_channels self) lin M)
    as (L & HL & HLwf & HLr & HLc);
    [|done|lia|].
  { apply Hlins, elem_of_app. left. by eapply dict_get_Some_values. }
  exists M, L. split_and!; [done|done| |done|lia|done].
  unfold message. rewrite Hlin. cbn. rewrite Hxl. cbn. rewrite HA. cbn.
  rewrite HM. cbn. by rewrite HL.
Qed.

Lemma conv_edge_step edges a w :
  a ∈ RGCNConv.edge_types self →
  conv_inv w0 self xd adj out (RGCNConv.node_types self) edges w →
  wps (x ← dict_getitem x a.1.1;
       adj_t ← lift (getitem adj a);
       lin ← lift (getitem (RGCNConv.rel_lins self) (RGCNConv.key_str a));
       X ← read x;
       A ← lift (matmul_mean adj_t X);
       m ← alloc A;
       o2 ← Linear.forward lin m;
       o ← dict_getitem out a.2;
       add_ o o2) w
      (λ r w', r = Ok () ∧
         conv_inv w0 self xd adj out (RGCNConv.node_types self) (edges ++ [a]) w').
Proof.
  intros Hin (Hext & Hlt & Hk & Hent & Hinj).
  destruct Hkeys as [Hkn Hke]. rewrite Forall_forall in Hke.
  rewrite Forall_forall in Hkn.
  destruct (Hke a Hin) as (Hs & Hadj & Hrel & Hd).
  destruct (Hkn _ Hd) as [Hdr Hdx].
  apply getitem_elem_of in Hs as (xl & Hxl & Hxl').
  apply getitem_elem_of in Hadj as (A & HA & HA').
  apply getitem_elem_of in Hrel as (lin & Hlin & Hlin').
  apply getitem_elem_of in Hdr as (rlin & _ & Hrlin).
  apply getitem_elem_of in Hdx as (dl & _ & Hdl).
  apply Hk in Hd. apply getitem_elem_of in Hd as (o & Ho & Ho').
  destruct Hx as [Hxlt Hxv]. rewrite Forall_forall in Hxv.
  assert (Hxl0 : xl < length (tensors w0)).
  { apply Hxv. by eapply dict_get_Some_values. }
  assert (Hlinv : Linear_valid w0 lin).
  { pose proof Hself as Hself'. unfold conv_valid in Hself'.
    rewrite Forall_forall in Hself'. apply Hself', elem_of_app. left.
    by eapply dict_get_Some_values. }
  destruct (conv_message_Ok a xl A lin dl Hin Hxl' HA' Hlin' Hdl)
    as (M & L & HM & HL & Hmsg & HLwf & HLr & HLc).
  destruct (conv_root_Ok a.2 rlin dl Hrlin Hdl) as (Y & _ & HY & _ & HYr & HYc).
  destruct (Hent _ _ Ho') as [[Ho1 Ho2] (r0 & ms0 & Hr0 & _ & _ & HTwf & HTs)].
  assert (r0 = Y) as -> by congruence.
  apply pair_equal_spec in HTs as [HTr HTc].
  pose proof (ext_length_tensors _ _ Hext) as Hlen.
  do 2 wps_step. rewrite (ext_dict_at w0 w) by done. rewrite Hxl.
  do 2 wps_step. rewrite HA. do 2 wps_step. rewrite Hlin.
  do 4 wps_step. rewrite (ext_tensor_at w0 w), HM by done.
  do 4 wps_step.
  set (w1 := set_tensors (λ ts, ts ++ [M]) w).
  assert (Hext1 : ext w0 w1) by (by apply ext_alloc).
  rewrite (Linear_apply_ext w0 w1) by done.
  unfold w1 at 1. rewrite tensor_at_alloc, decide_True, HL by done.
  do 2 wps_step.
  set (w2 := set_tensors (λ ts, ts ++ [L]) w1).
  assert (Hext2 : ext w0 w2) by (by apply ext_alloc).
  assert (Hlen2 : length (tensors w2) = S (S (length (tensors w)))).
  { cbn. rewrite !length_app. cbn. lia. }
  assert (Hold : ∀ l, l < length (tensors w) → tensor_at w2 l = tensor_at w l).
  { intros l Hl. unfold w2. rewrite tensor_at_alloc.
    rewrite decide_False, decide_True by (cbn; rewrite ?length_app; cbn; lia).
    unfold w1. rewrite tensor_at_alloc.
    by rewrite decide_False, decide_True by lia. }
  assert (HL2 : tensor_at w2 (length (tensors w1)) = L).
  { unfold w2. by rewrite tensor_at_alloc, decide_True. }
  change (dict_at w2 out) with (dict_at w out). rewrite Ho. wps_step.
  rewrite Hold, HL2 by lia.
  destruct (tadd_Ok (tensor_at w o) L) as (Hadd & Hawf & Has).
  { split_and!; [done|done|lia|lia]. }
  rewrite Hadd. split; [done|].
  unfold conv_inv. split_and!.
  - by apply ext_write.
  - done.
  - done.
  - intros k l Hl. change (dict_get k (dict_at w out) = Some l) in Hl.
    destruct (Hent k l Hl)
      as [[Hl1 Hl2] (r & ms & Hr & Hms & Ht & Hwf & Hsh)].
    split.
    { cbn -[w2]. rewrite length_insert. lia. }
    unfold entry_is. rewrite filter_app.
    destruct (decide (k = a.2)) as [->|Hne].
    + assert (l = o) as -> by congruence.
      exists r, (ms ++ [L]).
      rewrite tensor_at_write, decide_True by lia.
      split_and!; [done| | |done|congruence].
      * apply Forall2_app; [done|].
        rewrite filter_cons, decide_True by done. repeat constructor.
        exact Hmsg.
      * rewrite add_all_snoc, Ht. cbn. by rewrite Hadd.
    + exists r, ms. rewrite tensor_at_write, decide_False.
      { rewrite Hold by lia. split_and!; [done| |done|done|done].
        rewrite filter_cons, decide_False by done. by rewrite app_nil_r. }
      intros [<- _]. apply Hne. by eapply Hinj.
  - done.
Qed.

Lemma RGCNConv_forward_correct :
  wps (RGCNConv.forward self x adj) w0 (λ r w',
    r = Ok out ∧
    conv_inv w0 self xd adj out (RGCNConv.node_types self)
             (RGCNConv.edge_types self) w').
Proof.
  unfold RGCNConv.forward. do 3 wps_step.
  apply (wps_for_ok (λ done w, conv_inv w0 self xd adj out done [] w)).
  - split_and!.
    + apply ext_new_dict, ext_refl.
    + cbn. rewrite length_app. cbn. lia.
    + intros k. by rewrite dict_at_new, decide_True.
    + intros k l. by rewrite dict_at_new, decide_True.
    + intros k k' l. by rewrite dict_at_new, decide_True.
  - intros done a rest w Hl HI. apply conv_node_step; [|done].
    rewrite Hl. apply elem_of_app. right. apply list_elem_of_here.
  - intros w HI. wps_step.
    apply (wps_for_ok (λ done w, conv_inv w0 self xd adj out
                                   (RGCNConv.node_types self) done w)).
    + done.
    + intros done a rest w' Hl HI'. apply conv_edge_step; [|done].
      rewrite Hl. apply elem_of_app. right. apply list_elem_of_here.
    + intros w' HI'. by wps_step.
Qed.
End ConvCorrect.

(** * The relation layers have no bias *)

Section NoBias.
Context `{Torch}.


Lemma wps_new_empty n m w (Q : result loc → world → Prop) :
  ((0 ≤ n ∧ 0 ≤ m)%Z →
     Q (Ok (length (tensors w)))
       (set_tensors (λ ts, ts ++ [empty (Z.to_nat n) (Z.to_nat m)]) w)) →
  (¬ (0 ≤ n ∧ 0 ≤ m)%Z → Q (Raise RuntimeError) w) →
  wps (new_empty n m) w Q.
Proof.
  intros Hok Hneg. unfold new_empty. case_decide; [by apply wps_alloc, Hok|].
  by apply wps_raise, Hneg.
Qed.


End NoBias.

(** The layer as the spec words it: every source node's features are
    transformed by the relation's linear layer, and the transformed
    features are mean-aggregated over the relation's edges. *)
Section TransformThenAggregate.
Context `{Torch}.



Context `{!ExactScalar}.


End TransformThenAggregate.

(** * The conversion of the edges *)

Section Convert.
Context `{Torch}.

(** the keys one step of the conversion loop assigns to *)
Definition item_writes (item : EdgeType * (list nat * list nat)) (k : EdgeType)
  : Prop :=
  k = item.1 ∨ (item.1.1.1 ≠ item.1.2 ∧ k = (item.1.2, "to", item.1.1.1)).

(** [key] joins the node types [s] and [d], in one direction or the other *)
Definition joins (key : EdgeType) (s d : string) : Prop :=
  (key.1.1 = s ∧ key.2 = d) ∨ (key.1.1 = d ∧ key.2 = s).

Lemma convert_step_keeps nn acc item acc' k :
  convert_step nn acc item = Ok acc' → ¬ item_writes item k →
  dict_get k acc' = dict_get k acc.
Proof.
  destruct item as [[[s r] d] [row col]]. unfold convert_step, item_writes.
  cbn. destruct (getitem nn s) as [n0|]; [|done]. cbn.
  destruct (getitem nn d) as [n2|]; [|done]. cbn.
  intros Hstep Hw.
  case_decide as Hsd; unfold mret, result_ret in Hstep; simplify_eq.
  - rewrite !dict_get_set_ne; [done|naive_solver|naive_solver].
  - rewrite dict_get_set_ne; [done|naive_solver].
Qed.

Lemma convert_loop_keeps nn items acc res k :
  convert_loop nn acc items = Ok res →
  Forall (λ item, ¬ item_writes item k) items →
  dict_get k res = dict_get k acc.
Proof.
  revert acc. induction items as [|item items IH]; intros acc; cbn [convert_loop].
  - by intros [= ->].
  - destruct (convert_step nn acc item) as [acc'|] eqn:Hstep; [|done].
    cbn [mbind result_bind].
    intros Hloop [Hw Hws]%Forall_cons.
    rewrite (IH _ Hloop Hws). by eapply convert_step_keeps.
Qed.

Lemma convert_step_Ok nn acc s r d row col n_s n_d :
  dict_get s nn = Some n_s → dict_get d nn = Some n_d →
  convert_step nn acc ((s, r, d), (row, col)) =
    Ok (if decide (s ≠ d)
        then dict_set (d, "to", s) (mkSparse row col (n_s, n_d))
               (dict_set (s, r, d) (t (mkSparse row col (n_s, n_d))) acc)
        else dict_set (s, r, d) (to_symmetric (mkSparse row col (n_s, n_d))) acc).
Proof.
  intros Hs Hd. unfold convert_step, getitem. cbn. rewrite Hs. cbn.
  rewrite Hd. cbn. by case_decide.
Qed.

Lemma convert_loop_Ok nn acc (items : list (EdgeType * (list nat * list nat))) :
  Forall (λ key : EdgeType, key.1.1 ∈ dict_keys nn ∧ key.2 ∈ dict_keys nn)
         (dict_keys items) →
  ∃ res, convert_loop nn acc items = Ok res.
Proof.
  revert acc. induction items as [|[[[s r] d] [row col]] items IH]; intros acc.
  - by eexists.
  - intros [[Hs Hd] Hrest]%Forall_cons. cbn in Hs, Hd.
    apply dict_get_is_Some in Hs as [n_s Hs].
    apply dict_get_is_Some in Hd as [n_d Hd].
    cbn [convert_loop].
    rewrite (convert_step_Ok _ _ _ _ _ _ _ _ _ Hs Hd). by apply IH.
Qed.

(** What the loop leaves at the keys of an item that no later item
    assigns to. *)
Lemma convert_loop_item nn acc items res s r d row col n_s n_d :
  convert_loop nn acc items = Ok res →
  NoDup (dict_keys items) →
  ((s, r, d), (row, col)) ∈ items →
  dict_get s nn = Some n_s → dict_get d nn = Some n_d →
  let adj := mkSparse row col (n_s, n_d) in
  (s = d → dict_get (s, r, d) res = Some (to_symmetric adj)) ∧
  (s ≠ d →
   (∀ key', key' ∈ dict_keys items → key' ≠ (s, r, d) → ¬ joins key' s d) →
   dict_get (s, r, d) res = Some (t adj) ∧ dict_get (d, "to", s) res = Some adj).
Proof.
  intros Hloop Hnd Hin Hs Hd adj.
  apply list_elem_of_split in Hin as (pre & post & ->).
  revert acc Hloop. induction pre as [|item pre IH]; intros acc Hloop.
  - cbn [app convert_loop] in Hloop.
    rewrite (convert_step_Ok _ _ _ _ _ _ _ _ _ Hs Hd) in Hloop.
    cbn [mbind result_bind] in Hloop.
    cbn in Hnd. apply NoDup_cons in Hnd as [Hnin _].
    assert (Hother : ∀ item, item ∈ post → item.1 ≠ (s, r, d)).
    { intros item Hitem Heq. apply Hnin. apply list_elem_of_fmap.
      exists item. by rewrite Heq. }
    split.
    + intros <-. rewrite decide_False in Hloop by naive_solver.
      rewrite (convert_loop_keeps _ _ _ _ (s, r, s) Hloop).
      { apply dict_get_set_eq. }
      apply Forall_forall. intros item Hitem [Hw|[Hne Hw]].
      * by eapply Hother.
      * simplify_eq.
    + intros Hsd Hjoin. rewrite decide_True in Hloop by done.
      assert (Hpost : ∀ item, item ∈ post → ¬ joins item.1 s d).
      { intros item Hitem. apply Hjoin; [|by apply Hother].
        cbn. apply list_elem_of_further, list_elem_of_fmap. by exists item. }
      split.
      * rewrite (convert_loop_keeps _ _ _ _ (s, r, d) Hloop).
        { rewrite dict_get_set_ne by naive_solver. apply dict_get_set_eq. }
        apply Forall_forall. intros item Hitem [Hw|[Hne Hw]].
        -- by eapply Hother.
        -- apply (Hpost item Hitem). right. by simplify_eq.
      * rewrite (convert_loop_keeps _ _ _ _ (d, "to", s) Hloop).
        { apply dict_get_set_eq. }
        apply Forall_forall. intros item Hitem [Hw|[Hne Hw]].
        -- apply (Hpost item Hitem). right. by rewrite <-Hw.
        -- apply (Hpost item Hitem). left. by simplify_eq.
  - cbn [app convert_loop] in Hloop.
    destruct (convert_step nn acc item) as [acc'|] eqn:Hstep; [|done].
    cbn [mbind result_bind] in Hloop.
    cbn in Hnd. apply NoDup_cons in Hnd as [Hnin Hnd].
    destruct (IH Hnd acc' Hloop) as [Hsym Hdir]. split; [done|].
    intros Hsd Hjoin. apply Hdir; [done|].
    intros key' Hkey'. apply Hjoin. by apply list_elem_of_further.
Qed.
End Convert.

(** * Runs that end normally, and their events *)

Section Runs.
Context `{Torch}.

(** [m] run from [w] returns [a] in the state [w'], with the events [l]. *)
Definition runs_to {A} (m : M A) (w : world) (a : A) (w' : world)
    (l : list event) : Prop :=
  m w = Outcome (Ok a) w' l.

Lemma bind_runs_inv {A B} (m : M A) (f : A → M B) w b w2 l :
  runs_to (m ≫= f) w b w2 l →
  ∃ a w1 l1 l2, runs_to m w a w1 l1 ∧ runs_to (f a) w1 b w2 l2 ∧ l = l1 ++ l2.
Proof.
  unfold runs_to, mbind, M_bind, bind.
  destruct (m w) as [[a|e] w1 l1]; [|done].
  destruct (f a w1) as [r w2' l2] eqn:Hf. intros [= -> -> <-].
  by exists a, w1, l1, l2.
Qed.

Lemma bind_runs {A B} (m : M A) (f : A → M B) w a w1 l1 b w2 l2 :
  runs_to m w a w1 l1 → runs_to (f a) w1 b w2 l2 →
  runs_to (m ≫= f) w b w2 (l1 ++ l2).
Proof.
  unfold runs_to, mbind, M_bind, bind. intros -> Hf. by rewrite Hf.
Qed.

Lemma runs_to_wps {A} (m : M A) w a w' l (Q : result A → world → Prop) :
  runs_to m w a w' l → wps m w Q → Q (Ok a) w'.
Proof. unfold runs_to, wps. by intros ->. Qed.

(** A computation that produces no event. *)
Definition silent {A} (m : M A) : Prop := ∀ w, trace (m w) = [].

Lemma silent_runs {A} (m : M A) w a w' l : silent m → runs_to m w a w' l → l = [].
Proof. intros Hs Hr. specialize (Hs w). by rewrite Hr in Hs. Qed.

Lemma silent_bind {A B} (m : M A) (f : A → M B) :
  silent m → (∀ a, silent (f a)) → silent (m ≫= f).
Proof.
  intros Hm Hf w. unfold mbind, M_bind, bind.
  specialize (Hm w). destruct (m w) as [[a|e] w1 l1]; cbn in *; [|done].
  specialize (Hf a w1). destruct (f a w1). cbn in *. by subst.
Qed.

Lemma silent_ret {A} (a : A) : silent (mret a).
Proof. done. Qed.

Lemma silent_for_ {A} (l : list A) (f : A → M unit) :
  (∀ a, silent (f a)) → silent (for_ l f).
Proof.
  intros Hf. induction l as [|a l IH]; cbn [for_]; [done|].
  by apply silent_bind.
Qed.

Lemma silent_foldM {A B} (f : B → A → M B) b (l : list A) :
  (∀ b a, silent (f b a)) → silent (foldM f b l).
Proof.
  intros Hf. revert b. induction l as [|a l IH]; intros b; cbn [foldM]; [done|].
  by apply silent_bind.
Qed.

Lemma silent_new_empty n m : silent (new_empty n m).
Proof. intros w. unfold new_empty. by case_decide. Qed.

Lemma silent_dict_getitem r key : silent (dict_getitem r key).
Proof. by apply silent_bind. Qed.

Lemma silent_Linear_forward self x : silent (Linear.forward self x).
Proof.
  unfold Linear.forward. apply silent_bind; [done|]. intros X.
  apply silent_bind; [done|]. intros r. by apply silent_bind.
Qed.

Lemma silent_add_ x y : silent (add_ x y).
Proof.
  unfold add_. apply silent_bind; [done|]. intros X.
  apply silent_bind; [done|]. intros Y. by apply silent_bind.
Qed.
End Runs.

Ltac silent_step :=
  intros; cbv beta iota zeta;
  lazymatch goal with
  | |- silent (mbind _ _) => apply silent_bind
  | |- silent (for_ _ _) => apply silent_for_
  | |- silent (foldM _ _ _) => apply silent_foldM
  | |- silent (match ?x with _ => _ end) => destruct x
  | |- silent (Linear.forward _ _) => apply silent_Linear_forward
  | |- silent (add_ _ _) => apply silent_add_
  | |- silent _ => first [ solve [auto] | apply silent_new_empty
                         | apply silent_dict_getitem | by intros ? ]
  end.

Section Silent.
Context `{Torch}.

Lemma silent_Linear_reset_parameters self : silent (Linear.reset_parameters self).
Proof. unfold Linear.reset_parameters. repeat silent_step. Qed.

Lemma silent_Linear_init i o b : silent (Linear.init i o b).
Proof.
  unfold Linear.init. pose proof silent_Linear_reset_parameters.
  repeat silent_step.
Qed.

Lemma silent_RGCNConv_reset_parameters self : silent (RGCNConv.reset_parameters self).
Proof.
  unfold RGCNConv.reset_parameters. pose proof silent_Linear_reset_parameters.
  repeat silent_step.
Qed.

Lemma silent_RGCNConv_init i o nts ets : silent (RGCNConv.init i o nts ets).
Proof.
  unfold RGCNConv.init. pose proof silent_Linear_init.
  pose proof silent_RGCNConv_reset_parameters. repeat silent_step.
Qed.

Lemma silent_RGCNConv_forward self x adj : silent (RGCNConv.forward self x adj).
Proof. unfold RGCNConv.forward. repeat silent_step. Qed.

Lemma silent_RGCN_reset_parameters self : silent (RGCN.reset_parameters self).
Proof.
  unfold RGCN.reset_parameters. pose proof silent_Linear_reset_parameters.
  pose proof silent_RGCNConv_reset_parameters. repeat silent_step.
Qed.

Lemma silent_RGCN_init i h o n p nn xt et ot : silent (RGCN.init i h o n p nn xt et ot).
Proof.
  unfold RGCN.init. pose proof silent_Linear_init.
  pose proof silent_RGCNConv_init. pose proof silent_RGCN_reset_parameters.
  repeat silent_step.
Qed.

Lemma silent_RGCN_forward self x adj : silent (RGCN.forward self x adj).
Proof.
  unfold RGCN.forward, F_dropout. pose proof silent_RGCNConv_forward.
  repeat silent_step.
Qed.

Lemma silent_load dataset : silent (load dataset).
Proof. unfold load. repeat silent_step. Qed.
End Silent.

(** * Parts of the state a computation leaves as they are *)

Section Keeps.
Context `{Torch}.

Definition keeps {A X} (f : world → X) (m : M A) : Prop :=
  ∀ w, f (final (m w)) = f w.

Lemma keeps_bind {A B X} (f : world → X) (m : M A) (k : A → M B) :
  keeps f m → (∀ a, keeps f (k a)) → keeps f (m ≫= k).
Proof.
  intros Hm Hk w. unfold mbind, M_bind, bind.
  specialize (Hm w). destruct (m w) as [[a|e] w1 l1]; cbn in *; [|done].
  specialize (Hk a w1). destruct (k a w1). cbn in *. congruence.
Qed.

Lemma keeps_for_ {A X} (f : world → X) (l : list A) (k : A → M unit) :
  (∀ a, keeps f (k a)) → keeps f (for_ l k).
Proof.
  intros Hk. induction l as [|a l IH]; cbn [for_]; [done|].
  by apply keeps_bind.
Qed.

Lemma keeps_foldM {A B X} (f : world → X) (k : B → A → M B) b (l : list A) :
  (∀ b a, keeps f (k b a)) → keeps f (foldM k b l).
Proof.
  intros Hk. revert b. induction l as [|a l IH]; intros b; cbn [foldM]; [done|].
  by apply keeps_bind.
Qed.

Lemma keeps_new_empty {X} (f : world → X) n m :
  (∀ g w, f (set_tensors g w) = f w) → keeps f (new_empty n m).
Proof. intros Hf w. unfold new_empty. case_decide; [apply Hf|done]. Qed.

Lemma keeps_dict_getitem {X} (f : world → X) r key : keeps f (dict_getitem r key).
Proof. by apply keeps_bind. Qed.

Lemma keeps_Linear_forward {X} (f : world → X) self x :
  (∀ g w, f (set_tensors g w) = f w) → keeps f (Linear.forward self x).
Proof.
  intros Hf. unfold Linear.forward. apply keeps_bind; [done|]. intros X0.
  apply keeps_bind; [done|]. intros r. apply keeps_bind; [done|].
  intros Y w. apply Hf.
Qed.

Lemma keeps_add_ {X} (f : world → X) x y :
  (∀ g w, f (set_tensors g w) = f w) → keeps f (add_ x y).
Proof.
  intros Hf. unfold add_. apply keeps_bind; [done|]. intros X0.
  apply keeps_bind; [done|]. intros Y. apply keeps_bind; [done|].
  intros Z w. apply Hf.
Qed.

(** [model.training] and the gradient mode *)
Definition flags (w : world) : bool * bool := (training w, grad_enabled w).
End Keeps.

Ltac keeps_step :=
  intros; cbv beta iota zeta;
  lazymatch goal with
  | |- keeps _ (mbind _ _) => apply keeps_bind
  | |- keeps _ (for_ _ _) => apply keeps_for_
  | |- keeps _ (foldM _ _ _) => apply keeps_foldM
  | |- keeps _ (match ?x with _ => _ end) => destruct x
  | |- keeps _ (Linear.forward _ _) => by apply keeps_Linear_forward
  | |- keeps _ (add_ _ _) => by apply keeps_add_
  | |- keeps _ _ => first [ solve [auto] | by apply keeps_new_empty
                          | apply keeps_dict_getitem | by intros ? ]
  end.

Section KeepsFlags.
Context `{Torch}.

Lemma flags_RGCNConv_forward self x adj : keeps flags (RGCNConv.forward self x adj).
Proof. unfold RGCNConv.forward. repeat keeps_step. Qed.

Lemma flags_RGCN_forward self x adj : keeps flags (RGCN.forward self x adj).
Proof.
  unfold RGCN.forward, F_dropout. pose proof flags_RGCNConv_forward.
  repeat keeps_step.
Qed.
End KeepsFlags.

(** * test *)

Section TestSpec.
Context `{Torch}.

Lemma runs_bind {A B} (m : M A) (f : A → M B) w a w1 l1 b w2 l2 l :
  runs_to m w a w1 l1 → runs_to (f a) w1 b w2 l2 → l = l1 ++ l2 →
  runs_to (m ≫= f) w b w2 l.
Proof. intros Hm Hf ->. by eapply bind_runs. Qed.

Lemma runs_lift {A} (r : result A) a w : r = Ok a → runs_to (lift r) w a w [].
Proof. by intros ->. Qed.

(** The accuracy on a split: [evaluator.eval] on the labels and on the
    predictions at [split_idx[split]['paper']]. *)
Definition split_acc (split_idx : Dict string (Dict string (list nat)))
    (split : string) (y_true y_pred : list Z) : result Float :=
  d ← getitem split_idx split;
  idx ← getitem d "paper";
  yt ← index y_true idx;
  yp ← index y_pred idx;
  mret (evaluator_eval yt yp).

Lemma eval_split_runs split_idx split y_true y_pred acc w :
  split_acc split_idx split y_true y_pred = Ok acc →
  runs_to (eval_split split_idx split y_true y_pred) w acc w [Eval split].
Proof.
  unfold split_acc, eval_split.
  destruct (getitem split_idx split) as [d|] eqn:Hd; [|done]. cbn.
  destruct (getitem d "paper") as [idx|] eqn:Hidx; [|done]. cbn.
  destruct (index y_true idx) as [yt|] eqn:Hyt; [|done]. cbn.
  destruct (index y_pred idx) as [yp|] eqn:Hyp; [|done]. cbn.
  intros [= <-].
  eapply runs_bind; [by apply runs_lift| |reflexivity].
  eapply runs_bind; [by apply runs_lift| |reflexivity].
  eapply runs_bind; [by apply runs_lift| |reflexivity].
  eapply runs_bind; [by apply runs_lift| |reflexivity].
  eapply runs_bind; [by apply runs_lift| |reflexivity].
  eapply runs_bind; [by apply runs_lift| |reflexivity].
  eapply runs_bind; [reflexivity| |reflexivity]. reflexivity.
Qed.

Lemma test_runs model x adj y_true split_idx w out w1
    train_acc valid_acc test_acc :
  res (RGCN.forward model x adj (set_training false (set_grad_enabled false w)))
    = Ok out →
  w1 = final (RGCN.forward model x adj
                (set_training false (set_grad_enabled false w))) →
  split_acc split_idx "train" y_true (argmax (tensor_at w1 out)) = Ok train_acc →
  split_acc split_idx "valid" y_true (argmax (tensor_at w1 out)) = Ok valid_acc →
  split_acc split_idx "test" y_true (argmax (tensor_at w1 out)) = Ok test_acc →
  test model x adj y_true split_idx w =
    Outcome (Ok (train_acc, valid_acc, test_acc))
            (set_grad_enabled (grad_enabled w) w1)
            [Forward false false; Eval "train"; Eval "valid"; Eval "test"].
Proof.
  intros Hres Hw1 Htr Hva Hte.
  set (w0 := set_training false (set_grad_enabled false w)) in *.
  assert (Hfwd : runs_to (RGCN.forward model x adj) w0 out w1 []).
  { unfold runs_to. pose proof (silent_RGCN_forward model x adj w0) as Hs.
    destruct (RGCN.forward model x adj w0) as [r wf l]. cbn in *. by subst. }
  assert (Hbody : runs_to
            (modify (set_training false);;
             out ← RGCN.call model x adj;
             O ← read out;
             let y_pred := argmax O in
             train_acc ← eval_split split_idx "train" y_true y_pred;
             valid_acc ← eval_split split_idx "valid" y_true y_pred;
             test_acc ← eval_split split_idx "test" y_true y_pred;
             mret (train_acc, valid_acc, test_acc))
            (set_grad_enabled false w) (train_acc, valid_acc, test_acc) w1
            [Forward false false; Eval "train"; Eval "valid"; Eval "test"]).
  { eapply runs_bind; [reflexivity| |reflexivity].
    eapply runs_bind; [|cbv beta|].
    - unfold RGCN.call.
      eapply runs_bind; [reflexivity| |reflexivity].
      eapply runs_bind; [reflexivity| |reflexivity].
      eapply runs_bind; [reflexivity| |reflexivity].
      exact Hfwd.
    - eapply runs_bind; [reflexivity|cbv beta zeta|reflexivity].
      eapply runs_bind; [by apply eval_split_runs| |reflexivity].
      eapply runs_bind; [by apply eval_split_runs| |reflexivity].
      eapply runs_bind; [by apply eval_split_runs| |reflexivity].
      reflexivity.
    - reflexivity. }
  unfold test, no_grad. cbv zeta. unfold runs_to in Hbody. by rewrite Hbody.
Qed.
End TestSpec.

(** * Re-initialisation *)

Section Reset.
Context `{Torch}.

(** the state after a tensor is re-initialised in place by [f], which
    draws the values for a given shape *)
Definition reinit (p : loc) (f : nat * nat → RNG → Tensor * RNG) (w : world)
  : world :=
  let r := f (shape (tensor_at w p)) (rng w) in
  set_tensors (λ ts, <[p := r.1]> ts) (set_rng r.2 w).

Definition Linear_reinit (lin : Linear.t) (w : world) : world :=
  let w' := reinit (Linear.weight lin) kaiming_uniform w in
  match Linear.bias lin with
  | Some b => reinit b (bias_uniform (ncols (tensor_at w (Linear.weight lin)))) w'
  | None => w'
  end.

Lemma Linear_reset_parameters_eq lin w :
  Linear.reset_parameters lin w = Outcome (Ok ()) (Linear_reinit lin w) [].
Proof.
  unfold Linear.reset_parameters, Linear_reinit. by destruct (Linear.bias lin).
Qed.











Lemma list_bind_singleton {A} (l : list A) : l ≫= (λ x, [x]) = l.
Proof. induction l as [|a l IH]; [done|]. cbn. by rewrite IH. Qed.

End Reset.

Section StartRun.
Context `{Torch}.




End StartRun.

(** * Inversion of runs that end normally *)

Section RunsInv.
Context `{Torch}.

Lemma outcome_eta {A} (o : outcome A) r :
  res o = r → o = Outcome r (final o) (trace o).
Proof. destruct o. cbn. by intros ->. Qed.

(** The value of an outcome that is not an exception. *)
Lemma res_Ok_default {A} (o : outcome A) (d : A) :
  (if res o is Ok _ then true else false) = true →
  res o = Ok (match res o with Ok a => a | Raise _ => d end).
Proof. by destruct (res o). Qed.

Lemma ret_runs_inv {A} (a b : A) w w' l :
  runs_to (mret a) w b w' l → b = a ∧ w' = w ∧ l = [].
Proof. intros Hr. by inversion Hr. Qed.

Lemma emit_runs_inv e w u w' l : runs_to (emit e) w u w' l → w' = w ∧ l = [e].
Proof. intros Hr. by inversion Hr. Qed.

Lemma modify_runs_inv f w u w' l :
  runs_to (modify f) w u w' l → w' = f w ∧ l = [].
Proof. intros Hr. by inversion Hr. Qed.

Lemma gets_runs_inv {A} (f : world → A) w a w' l :
  runs_to (gets f) w a w' l → a = f w ∧ w' = w ∧ l = [].
Proof. intros Hr. by inversion Hr. Qed.

Lemma lift_runs_inv {A} (r : result A) w a w' l :
  runs_to (lift r) w a w' l → r = Ok a ∧ w' = w ∧ l = [].
Proof. intros Hr. by inversion Hr. Qed.

Lemma raise_runs_inv {A} e w (a : A) w' l : runs_to (raise e) w a w' l → False.
Proof. by intros [=]. Qed.

Lemma no_grad_runs_inv {A} (m : M A) w a w' l :
  runs_to (no_grad m) w a w' l →
  ∃ w1, runs_to m (set_grad_enabled false w) a w1 l
        ∧ w' = set_grad_enabled (grad_enabled w) w1.
Proof.
  unfold runs_to, no_grad. cbv zeta.
  destruct (m (set_grad_enabled false w)) as [r w1 l1]. cbn.
  intros [= -> <- <-]. by exists w1.
Qed.

(** A loop run to its end: the events of every item satisfy what the
    body's events satisfy. *)
Lemma foldM_runs_inv {A B} (f : B → A → M B) (P : A → list event → Prop) xs :
  (∀ b a w b' w' l, runs_to (f b a) w b' w' l → P a l) →
  ∀ b w b' w' l, runs_to (foldM f b xs) w b' w' l →
  ∃ ls, Forall2 P xs ls ∧ l = concat ls.
Proof.
  intros Hf. induction xs as [|a xs IH]; intros b w b' w' l Hr; cbn [foldM] in Hr.
  - apply ret_runs_inv in Hr as (_ & _ & ->). by exists [].
  - apply bind_runs_inv in Hr as (b1 & w1 & l1 & l2 & H1 & H2 & ->).
    apply Hf in H1. apply IH in H2 as (ls & Hls & ->).
    exists (l1 :: ls). split; [by constructor|done].
Qed.

(** A loop run to its end: what every step keeps of the accumulator,
    counted by the steps taken. *)
Lemma foldM_runs_count {A B} (f : B → A → M B) (I : nat → B → Prop) xs :
  (∀ n b a w b' w' l, I n b → runs_to (f b a) w b' w' l → I (S n) b') →
  ∀ n b w b' w' l, I n b → runs_to (foldM f b xs) w b' w' l →
  I (n + length xs) b'.
Proof.
  intros Hf. induction xs as [|a xs IH]; intros n b w b' w' l Hb Hr;
    cbn [foldM] in Hr.
  - apply ret_runs_inv in Hr as (-> & _ & _). by rewrite Nat.add_0_r.
  - apply bind_runs_inv in Hr as (b1 & w1 & l1 & l2 & H1 & H2 & ->).
    cbn [length]. rewrite <-Nat.add_succ_comm. eauto.
Qed.
End RunsInv.

(** [runs_inv H] takes the run [H] apart along its binds, down to the
    calls it does not know. *)
Ltac runs_inv H :=
  cbv beta iota zeta in H;
  lazymatch type of H with
  | runs_to (mbind _ _) _ _ _ _ =>
      let a := fresh "a" in
      let w := fresh "w" in
      let l1 := fresh "l" in
      let l2 := fresh "l" in
      let H1 := fresh "Hr" in
      apply bind_runs_inv in H as (a & w & l1 & l2 & H1 & H & ?);
      runs_inv H1; runs_inv H
  | runs_to (mret _) _ _ _ _ => apply ret_runs_inv in H as (? & ? & ?)
  | runs_to (emit _) _ _ _ _ => apply emit_runs_inv in H as (? & ?)
  | runs_to (modify _) _ _ _ _ => apply modify_runs_inv in H as (? & ?)
  | runs_to (gets _) _ _ _ _ => apply gets_runs_inv in H as (? & ? & ?)
  | runs_to (read _) _ _ _ _ => apply gets_runs_inv in H as (? & ? & ?)
  | runs_to (lift _) _ _ _ _ => apply lift_runs_inv in H as (H & ? & ?)
  | runs_to (raise _) _ _ _ _ => by apply raise_runs_inv in H
  | _ => idtac
  end.

(** The runs among the hypotheses that produce no event. *)
Ltac runs_silent :=
  repeat match goal with
  | H : runs_to _ _ _ _ _ |- _ =>
      apply silent_runs in H;
      [|solve [ apply silent_RGCN_forward | apply silent_RGCN_reset_parameters
              | apply silent_RGCN_init | apply silent_load
              | repeat silent_step ]]
  end.

(** * The events of the training step, of the evaluation and of main *)

Section Traces.
Context `{Torch}.

Lemma train_events model x adj y idx o w loss w' l :
  runs_to (train model x adj y idx o) w loss w' l →
  l = [ZeroGrad; Forward true (grad_enabled w); NllLoss; Backward; Step].
Proof.
  intros Hr. unfold train, zero_grad, backward, step, RGCN.call in Hr.
  runs_inv Hr. subst.
  runs_silent. by subst.
Qed.

Lemma test_events model x adj y split_idx w r w' l :
  runs_to (test model x adj y split_idx) w r w' l →
  l = [Forward false false; Eval "train"; Eval "valid"; Eval "test"].
Proof.
  intros Hr. unfold test in Hr. apply no_grad_runs_inv in Hr as (w1 & Hr & ->).
  unfold eval_split, RGCN.call in Hr. runs_inv Hr. subst.
  runs_silent. by subst.
Qed.

(** The line of an epoch: printed when [log_steps] divides the epoch. *)
Definition epoch_line (args : Namespace.t) (run epoch : Z) (loss : Float)
    (result : Float * Float * Float) : list event :=
  if decide (epoch `mod` Namespace.log_steps args = 0)%Z
  then [PrintEpoch (run + 1) epoch loss result.1.1 result.1.2 result.2]
  else [].

(** The events of an epoch of a run: those of a training step that
    returns [loss], those of an evaluation that returns [result], the
    record of [result], and the line with [loss] and [result]. *)
Definition epoch_trace (args : Namespace.t) (model : RGCN.t) (data : Data.t)
    (split_idx : Dict string (Dict string (list nat))) (train_idx : list nat)
    (run epoch : Z) (l : list event) : Prop :=
  ∃ y optimizer w loss w1 l1 result w2 l2,
    getitem (Data.y_dict data) "paper" = Ok y ∧
    runs_to (train model (Data.x_dict data) (Data.adj_t_dict data) y
               train_idx optimizer) w loss w1 l1 ∧
    runs_to (test model (Data.x_dict data) (Data.adj_t_dict data) y split_idx)
            w1 result w2 l2 ∧
    l = l1 ++ l2 ++ [AddResult run] ++ epoch_line args run epoch loss result.

(** The events of a run: the reset, the optimizer made with the
    learning rate, the epochs 1 to [epochs], the statistics of the run. *)
Definition run_trace (args : Namespace.t) (model : RGCN.t) (data : Data.t)
    (split_idx : Dict string (Dict string (list nat))) (train_idx : list nat)
    (run : Z) (l : list event) : Prop :=
  ∃ les results,
    Forall2 (epoch_trace args model data split_idx train_idx run)
            (range 1 (1 + Namespace.epochs args)) les ∧
    l = [ResetParameters; NewAdam (Namespace.lr args)] ++ concat les
        ++ [PrintStatistics (Some run) results].

Lemma epoch_body_runs_inv args model data split_idx train_idx o run lg epoch
    w lg' w' l :
  runs_to (epoch_body args model data split_idx train_idx o run lg epoch)
          w lg' w' l →
  Namespace.log_steps args ≠ 0%Z ∧
  epoch_trace args model data split_idx train_idx run epoch l.
Proof.
  intros Hr. unfold epoch_body, Logger.add_result in Hr. runs_inv Hr.
  match goal with
  | H : runs_to (if _ then _ else _) _ _ _ _ |- _ => rename H into Hif
  end.
  destruct (decide (Namespace.log_steps args = 0)%Z) as [|Hlog];
    [by apply raise_runs_inv in Hif|].
  split; [done|].
  repeat match goal with
  | H1 : ?x = Ok ?a, H2 : ?x = Ok ?b |- _ =>
      assert (b = a) as -> by congruence; clear H2
  end.
  subst. repeat eexists; [eassumption..|].
  unfold epoch_line.
  destruct (decide (epoch `mod` Namespace.log_steps args = 0)%Z).
  - destruct a2 as [[tr va] te]. runs_inv Hif. by subst.
  - runs_inv Hif. by subst.
Qed.

Lemma run_body_runs_inv args model data split_idx train_idx lg run w lg' w' l :
  runs_to (run_body args model data split_idx train_idx lg run) w lg' w' l →
  run_trace args model data split_idx train_idx run l.
Proof.
  intros Hr.
  unfold run_body, start_run, Adam_init, Logger.print_statistics in Hr.
  runs_inv Hr. runs_silent.
  match goal with
  | H : runs_to (foldM _ _ _) _ _ _ _ |- _ =>
      eapply (foldM_runs_inv _ (epoch_trace args model data split_idx
                                  train_idx run)) in H as (les & Hles & ?);
      [|intros; by eapply epoch_body_runs_inv]
  end.
  subst. by repeat eexists.
Qed.

(** The events of [main], after the line of the arguments. *)
Lemma main_args_runs_inv args cuda dataset w u w' l :
  runs_to (main_args args cuda dataset) w u w' l →
  ∃ model data train_idx w1 l1 lrs results,
    runs_to (setup args cuda dataset) w (model, data, train_idx) w1 l1 ∧
    Forall2 (run_trace args model data (Dataset.split_idx dataset) train_idx)
            (range 0 (Namespace.runs args)) lrs ∧
    l = [PrintArgs args] ++ l1 ++ concat lrs ++ [PrintStatistics None results].
Proof.
  intros Hr. unfold main_args, Logger.print_statistics in Hr. runs_inv Hr.
  destruct a0 as [[model data] train_idx]. runs_inv Hr.
  match goal with
  | H : runs_to (foldM _ _ _) _ _ _ _ |- _ =>
      eapply (foldM_runs_inv _ (run_trace args model data
                (Dataset.split_idx dataset) train_idx)) in H as (lrs & Hl & ?);
      [|intros; by eapply run_body_runs_inv]
  end.
  subst. by repeat eexists.
Qed.

(** The device the data and the model are moved to. *)
Definition device_of (args : Namespace.t) (cuda_is_available : bool) : Device :=
  if cuda_is_available then cuda (Namespace.device args) else cpu.

(** [setup] builds the model from the arguments. *)
Lemma setup_runs_inv args cuda dataset w model data train_idx w1 l :
  runs_to (setup args cuda dataset) w (model, data, train_idx) w1 l →
  l = [PrintData; To (device_of args cuda); To (device_of args cuda)] ∧
  ∃ in_channels x_types w0,
    runs_to (RGCN.init in_channels (Namespace.hidden_channels args)
               (Dataset.num_classes dataset) (Namespace.num_layers args)
               (Namespace.dropout args) (Data.num_nodes_dict data)
               x_types (dict_keys (Data.adj_t_dict data)) "paper")
            w0 model w1 [].
Proof.
  intros Hr. unfold setup, dict_getitem, dict_items in Hr. runs_inv Hr.
  match goal with
  | H : runs_to (RGCN.init _ _ _ _ _ _ _ _ _) _ _ _ _ |- _ =>
      pose proof (silent_runs _ _ _ _ _
                    (silent_RGCN_init _ _ _ _ _ _ _ _ _) H) as Hs;
      rename H into Hinit
  end.
  match goal with
  | H : runs_to (load _) _ _ _ _ |- _ =>
      apply silent_runs in H; [|apply silent_load]
  end.
  simplify_eq. split; [done|]. by repeat eexists.
Qed.
End Traces.

(** * The pipeline of main *)

Section Kinds.
Context `{Torch}.

(** An event without the values it carries. *)
Inductive kind :=
  | KPrintArgs
  | KPrintData
  | KTo
  | KPrintEpoch (run1 epoch : Z)
  | KPrintStatistics (run : option Z)
  | KResetParameters
  | KNewAdam
  | KZeroGrad
  | KForward (training : bool)
  | KNllLoss
  | KBackward
  | KStep
  | KEval (split : string)
  | KAddResult (run : Z).

Definition kind_of (e : event) : kind :=
  match e with
  | PrintArgs _ => KPrintArgs
  | PrintData => KPrintData
  | To _ => KTo
  | PrintEpoch run1 epoch _ _ _ _ => KPrintEpoch run1 epoch
  | PrintStatistics run _ => KPrintStatistics run
  | ResetParameters => KResetParameters
  | NewAdam _ => KNewAdam
  | ZeroGrad => KZeroGrad
  | Forward training _ => KForward training
  | NllLoss => KNllLoss
  | Backward => KBackward
  | Step => KStep
  | Eval split => KEval split
  | AddResult run => KAddResult run
  end.

(** The pipeline as the spec words it.  A training step: forward pass,
    loss, backward, optimizer step. *)
Definition train_kinds : list kind :=
  [KZeroGrad; KForward true; KNllLoss; KBackward; KStep].

(** The metric evaluation on the three splits. *)
Definition test_kinds : list kind :=
  [KForward false; KEval "train"; KEval "valid"; KEval "test"].

(** An epoch: the training step, then the evaluation; the line of the
    epoch is printed when [log_steps] divides the epoch. *)
Definition epoch_kinds (args : Namespace.t) (run epoch : Z) : list kind :=
  train_kinds ++ test_kinds ++ [KAddResult run] ++
  (if decide (epoch `mod` Namespace.log_steps args = 0)%Z
   then [KPrintEpoch (run + 1) epoch] else []).

(** A run: the parameters are reset and the optimizer is made, the
    epochs 1 to [epochs] follow, and the statistics of the run are printed. *)
Definition run_kinds (args : Namespace.t) (run : Z) : list kind :=
  [KResetParameters; KNewAdam] ++
  (range 1 (1 + Namespace.epochs args) ≫= epoch_kinds args run) ++
  [KPrintStatistics (Some run)].

(** The runs 0 to [runs - 1], and then the statistics over all runs. *)
Definition main_kinds (args : Namespace.t) : list kind :=
  [KPrintArgs; KPrintData; KTo; KTo] ++
  (range 0 (Namespace.runs args) ≫= run_kinds args) ++
  [KPrintStatistics None].
End Kinds.

#[global] Instance kind_eq_dec : EqDecision kind.
Proof. solve_decision. Defined.

Section KindsOf.
Context `{Torch}.

Lemma kinds_concat {A} (K : A → list kind) xs ls :
  Forall2 (λ a l, kind_of <$> l = K a) xs ls →
  kind_of <$> concat ls = xs ≫= K.
Proof.
  induction 1 as [|a l xs ls Hl _ IH]; [done|].
  cbn [concat]. rewrite fmap_app, Hl, IH. done.
Qed.

Lemma epoch_trace_kinds args model data split_idx train_idx run epoch l :
  epoch_trace args model data split_idx train_idx run epoch l →
  kind_of <$> l = epoch_kinds args run epoch.
Proof.
  intros (y & o & w & loss & w1 & l1 & r & w2 & l2 & _ & Htr & Hte & ->).
  apply train_events in Htr as ->. apply test_events in Hte as ->.
  unfold epoch_kinds, epoch_line. by case_decide.
Qed.

Lemma run_trace_kinds args model data split_idx train_idx run l :
  run_trace args model data split_idx train_idx run l →
  kind_of <$> l = run_kinds args run.
Proof.
  intros (les & rs & Hles & ->). rewrite !fmap_app.
  erewrite kinds_concat; [done|].
  eapply Forall2_impl; [done|]. intros; by eapply epoch_trace_kinds.
Qed.

Lemma main_args_kinds args cuda dataset w u w' l :
  runs_to (main_args args cuda dataset) w u w' l →
  kind_of <$> l = main_kinds args.
Proof.
  intros Hr. apply main_args_runs_inv in Hr
    as (model & data & train_idx & w1 & l1 & lrs & rs & Hs & Hl & ->).
  apply setup_runs_inv in Hs as (-> & _). rewrite !fmap_app.
  erewrite kinds_concat; [done|].
  eapply Forall2_impl; [done|]. intros; by eapply run_trace_kinds.
Qed.

(** A run of [main] that ends normally has parsed its arguments. *)
Lemma main_runs_inv argv cuda dataset w u w' l :
  runs_to (main argv cuda dataset) w u w' l →
  ∃ args, argparse.parse_args argv = Ok args
          ∧ runs_to (main_args args cuda dataset) w u w' l.
Proof.
  intros Hr. unfold main in Hr.
  apply bind_runs_inv in Hr as (args & w1 & l1 & l2 & Hp & Hr & ->).
  apply lift_runs_inv in Hp as (Hp & -> & ->). by exists args.
Qed.
End KindsOf.

(** * The model that RGCN.init builds *)

Section InitShape.
Context `{Torch}.

Lemma Linear_init_features i o b w self w' l :
  runs_to (Linear.init i o b) w self w' l →
  Linear.in_features self = i ∧ Linear.out_features self = o.
Proof. intros Hr. unfold Linear.init in Hr. runs_inv Hr. by subst. Qed.

Lemma RGCNConv_init_channels i o nts ets w self w' l :
  runs_to (RGCNConv.init i o nts ets) w self w' l →
  RGCNConv.in_channels self = i ∧ RGCNConv.out_channels self = o.
Proof. intros Hr. unfold RGCNConv.init in Hr. runs_inv Hr. by subst. Qed.

(** The layers of a model built with [hidden_channels], [num_layers]
    and [dropout]. *)
Definition built_with (in_channels hidden_channels out_channels num_layers : Z)
    (dropout : Float) (model : RGCN.t) : Prop :=
  RGCN.dropout model = dropout ∧
  length (RGCN.convs model) = S (Z.to_nat (num_layers - 1)) ∧
  Forall (λ conv, RGCNConv.in_channels conv = hidden_channels)
         (RGCN.convs model) ∧
  Forall (λ conv, RGCNConv.out_channels conv = hidden_channels)
         (removelast (RGCN.convs model)) ∧
  RGCNConv.out_channels <$> last (RGCN.convs model) = Some out_channels ∧
  Forall (λ lin, Linear.in_features lin = in_channels
                 ∧ Linear.out_features lin = hidden_channels)
         (dict_values (RGCN.lins model)).

Lemma RGCN_init_built_with i h o n p nn xt et ot w model w' l :
  runs_to (RGCN.init i h o n p nn xt et ot) w model w' l →
  built_with i h o n p model.
Proof.
  intros Hr. unfold RGCN.init in Hr. runs_inv Hr. subst model.
  match goal with
  | H : runs_to (foldM _ _ (seq _ _)) _ ?convs _ _ |- _ =>
      apply (foldM_runs_count _
               (λ k convs, length convs = k
                  ∧ Forall (λ conv, RGCNConv.in_channels conv = h
                                    ∧ RGCNConv.out_channels conv = h) convs))
        with (n := 0) in H as [Hlen Hconvs]
  end.
  2: { intros k convs _ w5 convs' w6 l10 [Hk Hc] Hstep. runs_inv Hstep.
       match goal with
       | H : runs_to (RGCNConv.init _ _ _ _) _ _ _ _ |- _ =>
           apply RGCNConv_init_channels in H
       end.
       subst. split.
       - rewrite length_app. cbn. lia.
       - apply Forall_app. split; [done|]. by constructor. }
  2: { by split. }
  match goal with
  | H : runs_to (foldM _ _ xt) _ ?lins _ _ |- _ =>
      apply (foldM_runs_count _
               (λ _ lins, Forall (λ lin, Linear.in_features lin = i
                                         ∧ Linear.out_features lin = h)
                                 (dict_values lins)))
        with (n := 0) in H as Hlins
  end.
  2: { intros k lins key w5 lins' w6 l10 Hk Hstep. runs_inv Hstep.
       match goal with
       | H : runs_to (Linear.init _ _ _) _ _ _ _ |- _ =>
           apply Linear_init_features in H
       end.
       subst. apply Forall_forall. intros x [->|Hx]%dict_values_set; [done|].
       by eapply Forall_forall in Hk. }
  2: { constructor. }
  match goal with
  | H : runs_to (RGCNConv.init _ _ _ _) _ _ _ _ |- _ =>
      apply RGCNConv_init_channels in H as [Hin Hout]
  end.
  rewrite length_seq in Hlen. cbn in Hlen.
  unfold built_with. cbn [RGCN.dropout RGCN.convs RGCN.lins].
  split_and!.
  - done.
  - rewrite length_app. cbn. lia.
  - apply Forall_app. split; [|by constructor].
    eapply Forall_impl; [done|]. by intros ? [].
  - rewrite removelast_last.
    eapply Forall_impl; [done|]. by intros ? [].
  - rewrite last_snoc. cbn. by rewrite Hout.
  - done.
Qed.
End InitShape.

(** * Arguments that differ in use_sage *)

Section UseSage.
Context `{Torch}.

(** An outcome with a function applied to the value returned. *)
Definition omap {A B} (f : A → B) (o : outcome A) : outcome B :=
  Outcome (match res o with Ok a => Ok (f a) | Raise e => Raise e end)
          (final o) (trace o).

(** A logger with another [info]. *)
Definition relog (info : Namespace.t) (lg : Logger.t) : Logger.t :=
  Logger.mk (Logger.runs lg) info (Logger.results lg).

Lemma foldM_omap {A B} (f f' : B → A → M B) (g : B → B) :
  (∀ b a w, f' (g b) a w = omap g (f b a w)) →
  ∀ xs b w, foldM f' (g b) xs w = omap g (foldM f b xs w).
Proof.
  intros Hf. induction xs as [|a xs IH]; intros b w; cbn [foldM]; [done|].
  unfold mbind, M_bind, bind. rewrite Hf.
  destruct (f b a w) as [[b1|e] w1 l1]; cbn; [|done].
  rewrite IH. by destruct (foldM f b1 xs w1) as [[b2|e] w2 l2].
Qed.

Lemma epoch_body_relog a1 a2 model data split_idx train_idx o run i lg epoch w :
  Namespace.log_steps a1 = Namespace.log_steps a2 →
  epoch_body a2 model data split_idx train_idx o run (relog i lg) epoch w
  = omap (relog i)
      (epoch_body a1 model data split_idx train_idx o run lg epoch w).
Proof.
  intros Hlog. unfold epoch_body, Logger.add_result. rewrite Hlog.
  unfold mbind, M_bind, bind, lift.
  destruct (getitem (Data.y_dict data) "paper") as [y|e]; [|done].
  destruct (train _ _ _ _ _ _ _) as [[loss|e] w1 l1]; [|done].
  destruct (test _ _ _ _ _ _) as [[[[tr va] te]|e] w2 l2]; [|done].
  cbn. destruct (decide (Namespace.log_steps a2 = 0)%Z); [done|].
  by destruct (decide (epoch `mod` Namespace.log_steps a2 = 0)%Z).
Qed.

(** [a1] and [a2] are the same but for [use_sage]. *)
Definition same_but_use_sage (a1 a2 : Namespace.t) : Prop :=
  argparse.set_use_sage false a1 = argparse.set_use_sage false a2.

Lemma same_but_use_sage_fields a1 a2 :
  same_but_use_sage a1 a2 →
  Namespace.device a1 = Namespace.device a2 ∧
  Namespace.log_steps a1 = Namespace.log_steps a2 ∧
  Namespace.num_layers a1 = Namespace.num_layers a2 ∧
  Namespace.hidden_channels a1 = Namespace.hidden_channels a2 ∧
  Namespace.dropout a1 = Namespace.dropout a2 ∧
  Namespace.lr a1 = Namespace.lr a2 ∧
  Namespace.epochs a1 = Namespace.epochs a2 ∧
  Namespace.runs a1 = Namespace.runs a2.
Proof.
  intros Ha. split_and!.
  - apply (f_equal Namespace.device Ha).
  - apply (f_equal Namespace.log_steps Ha).
  - apply (f_equal Namespace.num_layers Ha).
  - apply (f_equal Namespace.hidden_channels Ha).
  - apply (f_equal Namespace.dropout Ha).
  - apply (f_equal Namespace.lr Ha).
  - apply (f_equal Namespace.epochs Ha).
  - apply (f_equal Namespace.runs Ha).
Qed.

Lemma omap_id {A} (o : outcome A) : o = omap id o.
Proof. by destruct o as [[a|e] w l]. Qed.

Lemma bind_omap {A A' B B'} (m : M A) (m' : M A') (g : A → A')
    (k : A → M B) (k' : A' → M B') (g' : B → B') w :
  m' w = omap g (m w) →
  (∀ a w, k' (g a) w = omap g' (k a w)) →
  (m' ≫= k') w = omap g' ((m ≫= k) w).
Proof.
  intros Hm Hk. unfold mbind, M_bind, bind. rewrite Hm.
  destruct (m w) as [[a|e] w1 l1]; cbn; [|done].
  rewrite Hk. by destruct (k a w1) as [[b|e] w2 l2].
Qed.

Lemma lift_Ok_bind {A B} (a : A) (k : A → M B) w :
  (lift (Ok a) ≫= k) w = k a w.
Proof. unfold mbind, M_bind, bind. cbn. by destruct (k a w). Qed.

Lemma emit_bind {B} e (k : unit → M B) w :
  (emit e ≫= k) w
  = Outcome (res (k () w)) (final (k () w)) (e :: trace (k () w)).
Proof. unfold mbind, M_bind, bind. cbn. by destruct (k () w). Qed.

Lemma run_body_relog a1 a2 model data split_idx train_idx i lg run w :
  same_but_use_sage a1 a2 →
  run_body a2 model data split_idx train_idx (relog i lg) run w
  = omap (relog i) (run_body a1 model data split_idx train_idx lg run w).
Proof.
  intros (_ & Hlog & _ & _ & _ & Hlr & Hep & _)%same_but_use_sage_fields.
  unfold run_body, start_run. rewrite Hlr, Hep.
  apply (bind_omap _ _ id); [apply omap_id|]. intros o w0. unfold id.
  apply (bind_omap _ _ (relog i)).
  - apply foldM_omap. intros. by apply epoch_body_relog.
  - done.
Qed.

Lemma setup_use_sage a1 a2 cuda dataset w :
  same_but_use_sage a1 a2 → setup a2 cuda dataset w = setup a1 cuda dataset w.
Proof.
  intros (Hdev & _ & Hnl & Hhc & Hdr & _)%same_but_use_sage_fields.
  unfold setup. by rewrite Hdev, Hnl, Hhc, Hdr.
Qed.

(** The two runs of [main] are the same after the first event. *)
Lemma main_args_use_sage a1 a2 cuda dataset w :
  same_but_use_sage a1 a2 →
  ∃ o : outcome unit,
    main_args a1 cuda dataset w
    = Outcome (res o) (final o) (PrintArgs a1 :: trace o) ∧
    main_args a2 cuda dataset w
    = Outcome (res o) (final o) (PrintArgs a2 :: trace o).
Proof.
  intros Ha. unfold main_args. rewrite !emit_bind.
  eexists. split; [reflexivity|].
  match goal with
  | |- Outcome (res ?o2) _ _ = Outcome (res ?o1) _ _ =>
      assert (o2 = o1) as Ho; [|by rewrite Ho]
  end.
  rewrite (omap_id (mbind _ (setup a1 _ _) _)).
  apply (bind_omap _ _ id); [rewrite <-omap_id; by apply setup_use_sage|].
  intros [[model data] train_idx] w1. unfold id. cbv zeta.
  destruct (same_but_use_sage_fields _ _ Ha) as (_ & _ & _ & _ & _ & _ & _ & Hruns).
  rewrite <-Hruns.
  apply (bind_omap _ _ (relog a2)).
  - change (Logger.init (Namespace.runs a1) a2)
      with (relog a2 (Logger.init (Namespace.runs a1) a1)).
    apply foldM_omap. intros. by apply run_body_relog.
  - done.
Qed.
End UseSage.
(** * What train and test leave as they found it *)

Section Modes.
Context `{Torch}.

(** The part of the state that is neither a tensor, nor a dictionary,
    nor the random generator. *)
Definition control (w : world) : list (loc * Tensor) * list Adam.t * bool * bool :=
  (grads w, optims w, training w, grad_enabled w).

Lemma control_RGCNConv_forward self x adj :
  keeps control (RGCNConv.forward self x adj).
Proof. unfold RGCNConv.forward. repeat keeps_step. Qed.

Lemma control_RGCN_forward self x adj : keeps control (RGCN.forward self x adj).
Proof.
  unfold RGCN.forward, F_dropout. pose proof control_RGCNConv_forward.
  repeat keeps_step.
Qed.

Lemma control_RGCN_call self x adj : keeps control (RGCN.call self x adj).
Proof.
  unfold RGCN.call. pose proof control_RGCN_forward. repeat keeps_step.
Qed.

Lemma control_eval_split split_idx split y_true y_pred :
  keeps control (eval_split split_idx split y_true y_pred).
Proof. unfold eval_split. repeat keeps_step. Qed.

Lemma wps_keeps {A X} (f : world → X) (m : M A) w :
  keeps f m → wps m w (λ _ w', f w' = f w).
Proof. intros Hk. apply Hk. Qed.

Lemma rng_RGCNConv_forward self x adj :
  keeps (λ w, (training w, rng w)) (RGCNConv.forward self x adj).
Proof. unfold RGCNConv.forward. repeat keeps_step. Qed.

(** In evaluation mode the forward pass draws no random number. *)
Lemma RGCN_forward_eval_rng self x adj w :
  training w = false →
  wps (RGCN.forward self x adj) w (λ _ w', training w' = false ∧ rng w' = rng w).
Proof.
  intros Htr. unfold RGCN.forward. do 7 wps_step.
  set (J := λ w' : world, training w' = false ∧ rng w' = rng w).
  apply (wps_for_any J); [done| |].
  { intros [key xl] w' _ HJ. do 2 wps_step.
    destruct (getitem (RGCN.lins self) key) as [lin|e]; [|done].
    do 2 wps_step. destruct (Linear.apply w' lin _) as [Y|e]; [|done].
    by wps_step. }
  intros [[]|e] w2 HJ2; [|done].
  wps_step. apply (wps_for_any J); [done| |].
  { intros [key emb] w' _ HJ. by wps_step. }
  intros [[]|e] w3 HJ3; [|done].
  wps_step. apply (wps_foldM_any (λ _, J) J).
  - done.
  - intros conv b w' _ HJ. wps_step.
    eapply wps_mono; [apply (wps_keeps _ _ _ (rng_RGCNConv_forward _ _ _))|].
    intros [out|e] w4 [= Ht4 Hr4]; [|unfold J; by rewrite Ht4, Hr4].
    assert (HJ4 : J w4) by (unfold J; by rewrite Ht4, Hr4).
    do 3 wps_step. apply (wps_for_any J); [done| |].
    + intros [key xl] w5 _ [Ht5 Hr5]. do 7 wps_step.
      cbn [training set_dicts set_tensors]. rewrite Ht5. unfold F_dropout.
      by do 2 wps_step.
    + intros [[]|e'] w5 HJ5; [|done]. by wps_step.
  - intros b w' HJ. do 2 wps_step.
    destruct (last (RGCN.convs self)) as [conv|]; [|done].
    wps_step.
    eapply wps_mono; [apply (wps_keeps _ _ _ (rng_RGCNConv_forward _ _ _))|].
    intros [out|e] w4 [= Ht4 Hr4]; [|unfold J; by rewrite Ht4, Hr4].
    assert (HJ4 : J w4) by (unfold J; by rewrite Ht4, Hr4).
    do 2 wps_step.
    destruct (getitem (dict_at w4 out) (RGCN.out_type self)) as [o|]; [|done].
    by do 3 wps_step.
  - done.
Qed.

Lemma wps_conj {A} (m : M A) w (Q1 Q2 : result A → world → Prop) :
  wps m w Q1 → wps m w Q2 → wps m w (λ r w', Q1 r w' ∧ Q2 r w').
Proof. by split. Qed.

(** What [test] leaves of a state: the tensors and the dictionaries
    that were there, the gradients, the optimizers, the random generator
    and the gradient mode; the model is left in evaluation mode. *)
Definition test_leaves (w w' : world) : Prop :=
  ext w w' ∧ grads w' = grads w ∧ optims w' = optims w ∧ rng w' = rng w
  ∧ grad_enabled w' = grad_enabled w ∧ training w' = false.

Lemma test_final model x adj y split_idx w :
  test_leaves w (final (test model x adj y split_idx w)).
Proof.
  unfold test, no_grad. cbv zeta. cbn [final].
  set (w0 := set_training false (set_grad_enabled false w)).
  assert (Hbody : wps (modify (set_training false);;
                       out ← RGCN.call model x adj;
                       O ← read out;
                       train_acc ← eval_split split_idx "train" y (argmax O);
                       valid_acc ← eval_split split_idx "valid" y (argmax O);
                       test_acc ← eval_split split_idx "test" y (argmax O);
                       mret (train_acc, valid_acc, test_acc))
                      (set_grad_enabled false w)
                      (λ _ w1, ext w w1 ∧ grads w1 = grads w
                               ∧ optims w1 = optims w ∧ rng w1 = rng w
                               ∧ training w1 = false)).
  { do 3 wps_step. unfold RGCN.call. do 6 wps_step. fold w0.
    eapply wps_mono.
    { apply wps_conj; [apply RGCN_forward_frame|].
      apply wps_conj; [apply (wps_keeps _ _ _ (control_RGCN_forward _ _ _))|].
      by apply RGCN_forward_eval_rng. }
    intros r w1 (Hext & [= Hg Ho Ht Hge] & _ & Hrng).
    assert (Hall : ext w w1 ∧ grads w1 = grads w ∧ optims w1 = optims w
                   ∧ rng w1 = rng w ∧ training w1 = false) by done.
    destruct r as [out|e]; [|done].
    assert (Hk : keeps (λ w, w)
              (O ← read out;
               train_acc ← eval_split split_idx "train" y (argmax O);
               valid_acc ← eval_split split_idx "valid" y (argmax O);
               test_acc ← eval_split split_idx "test" y (argmax O);
               mret (train_acc, valid_acc, test_acc)))
      by (unfold eval_split; repeat keeps_step).
    unfold wps. by rewrite (Hk w1). }
  destruct Hbody as (Hext & Hg & Ho & Hr & Ht). by split_and!.
Qed.

(** What [train] leaves of a state: the dictionaries, the gradient
    mode, and every tensor that was there and is not a parameter of
    the optimizer; the model is left in training mode. *)
Definition train_leaves (o : nat) (w w' : world) : Prop :=
  training w' = true ∧ grad_enabled w' = grad_enabled w ∧
  dicts w `prefix_of` dicts w' ∧
  length (tensors w) ≤ length (tensors w') ∧
  ∀ l, l < length (tensors w) → l ∉ Adam.params (optimizer_at w o) →
       tensors w' !! l = tensors w !! l.

Lemma train_final model x adj y idx o w :
  train_leaves o w (final (train model x adj y idx o w)).
Proof.
  change (wps (train model x adj y idx o) w (λ _ w', train_leaves o w w')).
  set (I := λ w' : world, train_leaves o w w' ∧ optims w' = optims w).
  unfold train, zero_grad, backward, step, RGCN.call.
  do 15 wps_step.
  set (w0 := set_grads _ (set_training true w)).
  eapply wps_mono.
  { apply wps_conj; [apply RGCN_forward_frame|].
    apply (wps_keeps _ _ _ (control_RGCN_forward _ _ _)). }
  intros r w1 ([Hext Hd] & [= Hg Ho Ht Hge]).
  assert (HI1 : ∀ g, I (set_grads g w1)).
  { intros g. split; [|exact Ho]. split_and!.
    - exact Ht.
    - exact Hge.
    - exact Hd.
    - apply prefix_length. exact Hext.
    - intros l Hl _. symmetry. apply prefix_lookup_lt; [done|exact Hext]. }
  destruct r as [out|e]; [|exact (proj1 (HI1 id))].
  assert (HL1 : ∀ g, train_leaves o w (set_grads g w1))
    by (intros g; apply HI1).
  do 3 wps_step.
  destruct (index (trows (tensor_at w1 out)) idx) as [a|]; [|exact (HL1 id)].
  do 2 wps_step. destruct (index y idx) as [y0|]; [|exact (HL1 id)].
  do 12 wps_step.
  assert (Hopt : Adam.params (optimizer_at w o)
                 = Adam.params (optimizer_at
                     (set_grads (backward_grads
                        (nll_loss (mkTensor (ncols (tensor_at w1 out)) a) y0)
                        (tensors w1)) w1) o)).
  { unfold optimizer_at. cbn [optims set_grads]. by rewrite Ho. }
  rewrite <-Hopt.
  apply (wps_for_any (train_leaves o w)); [apply HL1| |].
  - intros p w2 Hp (Ht2 & Hg2 & Hd2 & Hlen2 & Hl2). do 2 wps_step.
    destruct (dict_get p (grads w2)) as [g|]; [|by wps_step].
    do 7 wps_step. split_and!; try done.
    + cbn. by rewrite length_insert.
    + intros l Hl Hnp. cbn. rewrite list_lookup_insert_ne; [by apply Hl2|].
      by intros ->.
  - intros [[]|e] w2 HL2; [|done]. by wps_step.
Qed.
End Modes.

(** * More on the conversion of the edges *)

Section ConvertMore.
Context `{Torch}.

Lemma convert_step_inv nn acc s r d row col acc' :
  convert_step nn acc ((s, r, d), (row, col)) = Ok acc' →
  ∃ n_s n_d, dict_get s nn = Some n_s ∧ dict_get d nn = Some n_d ∧
    acc' = if decide (s ≠ d)
           then dict_set (d, "to", s) (mkSparse row col (n_s, n_d))
                  (dict_set (s, r, d) (t (mkSparse row col (n_s, n_d))) acc)
           else dict_set (s, r, d) (to_symmetric (mkSparse row col (n_s, n_d)))
                  acc.
Proof.
  unfold convert_step, getitem. cbn.
  destruct (dict_get s nn) as [n_s|]; [|done]. cbn.
  destruct (dict_get d nn) as [n_d|]; [|done]. cbn.
  intros Hstep. exists n_s, n_d. split_and!; [done..|].
  case_decide; unfold mret, result_ret in Hstep; by simplify_eq.
Qed.

Lemma convert_step_Raise nn acc item e :
  convert_step nn acc item = Raise e → e = KeyError.
Proof.
  destruct item as [[[s r] d] [row col]]. unfold convert_step, getitem. cbn.
  destruct (dict_get s nn) as [n_s|]; [|by intros [= <-]]. cbn.
  destruct (dict_get d nn) as [n_d|]; [|by intros [= <-]]. cbn.
  by case_decide.
Qed.

Lemma convert_step_keys nn acc item acc' k :
  convert_step nn acc item = Ok acc' →
  k ∈ dict_keys acc' ↔ k ∈ dict_keys acc ∨ item_writes item k.
Proof.
  destruct item as [[[s r] d] [row col]].
  intros (n_s & n_d & _ & _ & ->)%convert_step_inv. unfold item_writes. cbn.
  case_decide; rewrite !dict_keys_set_elem; tauto.
Qed.

Lemma convert_loop_keys nn items acc res k :
  convert_loop nn acc items = Ok res →
  k ∈ dict_keys res ↔
  k ∈ dict_keys acc ∨ Exists (λ item, item_writes item k) items.
Proof.
  revert acc. induction items as [|item items IH]; intros acc; cbn [convert_loop].
  - intros [= ->]. rewrite Exists_nil. tauto.
  - destruct (convert_step nn acc item) as [acc'|] eqn:Hstep; [|done].
    cbn [mbind result_bind]. intros Hloop.
    rewrite (IH _ Hloop), (convert_step_keys _ _ _ _ _ Hstep), Exists_cons.
    tauto.
Qed.

(** The adjacency at every key is as high as the key's destination
    type has nodes, and as wide as its source type has. *)
Definition sized (nn : Dict string nat) (acc : Dict EdgeType SparseTensor)
  : Prop :=
  ∀ s r d A, dict_get (s, r, d) acc = Some A →
    ∃ n_s n_d, dict_get s nn = Some n_s ∧ dict_get d nn = Some n_d
               ∧ sparse_sizes A = (n_d, n_s).

Lemma sized_set nn acc s r d A n_s n_d :
  sized nn acc → dict_get s nn = Some n_s → dict_get d nn = Some n_d →
  sparse_sizes A = (n_d, n_s) → sized nn (dict_set (s, r, d) A acc).
Proof.
  intros Hacc Hs Hd HA s' r' d' A'. rewrite dict_get_set.
  case_decide as Hk; [|apply Hacc]. simplify_eq. intros [= <-]. eauto.
Qed.

Lemma convert_step_sized nn acc item acc' :
  convert_step nn acc item = Ok acc' → sized nn acc → sized nn acc'.
Proof.
  destruct item as [[[s r] d] [row col]].
  intros (n_s & n_d & Hs & Hd & ->)%convert_step_inv Hacc.
  case_decide as Hsd.
  - eapply sized_set; [|done..]. by eapply sized_set.
  - subst d. eapply sized_set; [done..|].
    cbn. simplify_eq. by rewrite Nat.max_id.
Qed.

Lemma convert_loop_sized nn items acc res :
  convert_loop nn acc items = Ok res → sized nn acc → sized nn res.
Proof.
  revert acc. induction items as [|item items IH]; intros acc; cbn [convert_loop].
  - by intros [= ->].
  - destruct (convert_step nn acc item) as [acc'|] eqn:Hstep; [|done].
    cbn [mbind result_bind]. intros Hloop Hacc.
    eapply IH; [done|]. by eapply convert_step_sized.
Qed.

Lemma dict_get_None_keys {K V} `{EqDecision K} (d : Dict K V) k :
  k ∉ dict_keys d → dict_get k d = None.
Proof.
  intros Hk. destruct (dict_get k d) as [v|] eqn:Hg; [|done].
  by apply dict_get_Some_keys in Hg.
Qed.

Lemma convert_loop_KeyError nn acc (items : list (EdgeType * (list nat * list nat))) :
  Exists (λ key : EdgeType, key.1.1 ∉ dict_keys nn ∨ key.2 ∉ dict_keys nn)
         (dict_keys items) →
  convert_loop nn acc items = Raise KeyError.
Proof.
  revert acc.
  induction items as [|[[[s r] d] [row col]] items IH]; intros acc Hex.
  - by apply Exists_nil in Hex.
  - cbn [convert_loop].
    destruct (convert_step nn acc (s, r, d, (row, col))) as [acc'|e] eqn:Hstep.
    + cbn [mbind result_bind]. apply IH.
      apply convert_step_inv in Hstep as (n_s & n_d & Hs & Hd & _).
      apply Exists_cons in Hex as [[Hbad|Hbad]|Hex]; [| |done]; cbn in Hbad.
      * apply dict_get_None_keys in Hbad. congruence.
      * apply dict_get_None_keys in Hbad. congruence.
    + cbn [mbind result_bind]. by apply convert_step_Raise in Hstep as ->.
Qed.
End ConvertMore.

(** * The names of the relation layers *)

Section KeyStr.

(** [c] occurs in [s] *)
Fixpoint occurs (c : Ascii.ascii) (s : string) : bool :=
  match s with
  | EmptyString => false
  | String c' s' => if decide (c' = c) then true else occurs c s'
  end.

Lemma append_sep_inj c a a' r r' :
  occurs c a = false → occurs c a' = false →
  a +:+ String c r = a' +:+ String c r' → a = a' ∧ r = r'.
Proof.
  revert a'. induction a as [|x a IH]; intros [|x' a']; cbn.
  - by intros _ _ [= ->].
  - intros _ Hx' [= <- _]. by rewrite decide_True in Hx'.
  - intros Hx _ [= -> _]. by rewrite decide_True in Hx.
  - case_decide; [done|]. case_decide; [done|].
    intros Ha Ha' [= -> Heq]. by destruct (IH a' Ha Ha' Heq) as [-> ->].
Qed.

(** the character between the parts of a name *)
Definition underscore : Ascii.ascii :=
  Ascii.Ascii true true true true true false true false.

Lemma key_str_inj_aux (k1 k2 : string * string * string) :
  occurs underscore k1.1.1 = false → occurs underscore k1.1.2 = false →
  occurs underscore k2.1.1 = false → occurs underscore k2.1.2 = false →
  RGCNConv.key_str k1 = RGCNConv.key_str k2 → k1 = k2.
Proof.
  destruct k1 as [[s1 r1] d1], k2 as [[s2 r2] d2]. unfold RGCNConv.key_str.
  cbn. intros Hs1 Hr1 Hs2 Hr2 Heq.
  apply (append_sep_inj underscore) in Heq as [-> Heq]; [|done..].
  apply (append_sep_inj underscore) in Heq as [-> ->]; done.
Qed.
End KeyStr.

(** * What the constructors build *)

Section InitValid.
Context `{Torch}.

Lemma foldM_runs_ind {A B} (f : B → A → M B)
    (I : list A → B → world → Prop) xs :
  (∀ done a b w b' w' l,
     I done b w → runs_to (f b a) w b' w' l → I (done ++ [a]) b' w') →
  ∀ b w b' w' l, I [] b w → runs_to (foldM f b xs) w b' w' l → I xs b' w'.
Proof.
  intros Hf.
  assert (Hgen : ∀ ys done b w b' w' l,
            I done b w → runs_to (foldM f b ys) w b' w' l → I (done ++ ys) b' w').
  { induction ys as [|a ys IH]; intros done b w b' w' l Hb Hr; cbn [foldM] in Hr.
    - apply ret_runs_inv in Hr as (-> & -> & _). by rewrite app_nil_r.
    - apply bind_runs_inv in Hr as (b1 & w1 & l1 & l2 & H1 & H2 & ->).
      rewrite cons_middle, app_assoc. eapply IH; [|done]. by eapply Hf. }
  intros b w b' w' l. apply (Hgen xs []).
Qed.

Lemma keeps_write_length l x : keeps (λ w, length (tensors w)) (write l x).
Proof. intros w. cbn. by rewrite length_insert. Qed.

Lemma length_Linear_reset self :
  keeps (λ w, length (tensors w)) (Linear.reset_parameters self).
Proof.
  unfold Linear.reset_parameters. pose proof keeps_write_length.
  repeat keeps_step.
Qed.

Lemma length_RGCNConv_reset self :
  keeps (λ w, length (tensors w)) (RGCNConv.reset_parameters self).
Proof.
  unfold RGCNConv.reset_parameters. pose proof length_Linear_reset.
  repeat keeps_step.
Qed.

Lemma length_RGCN_reset self :
  keeps (λ w, length (tensors w)) (RGCN.reset_parameters self).
Proof.
  unfold RGCN.reset_parameters. pose proof length_Linear_reset.
  pose proof length_RGCNConv_reset. pose proof keeps_write_length.
  repeat keeps_step.
Qed.

Lemma Linear_valid_mono w w' lin :
  length (tensors w) ≤ length (tensors w') →
  Linear_valid w lin → Linear_valid w' lin.
Proof.
  intros Hle Hv. eapply Forall_impl; [exact Hv|]. intros p Hp. cbn in *. lia.
Qed.

Lemma wps_Linear_init_valid i o b w :
  wps (Linear.init i o b) w (λ r w',
    length (tensors w) ≤ length (tensors w') ∧
    ∀ lin, r = Ok lin → Linear_valid w' lin).
Proof.
  unfold Linear.init. wps_step. apply wps_new_empty; [intros _|done].
  wps_step. destruct b.
  - wps_step. apply wps_new_empty; [intros _|intros _; cbn; rewrite length_app; split; [lia|done]].
    do 2 wps_step.
    eapply wps_mono; [apply (wps_keeps _ _ _ (length_Linear_reset _))|].
    intros r w2 Hlen. cbn in Hlen. rewrite !length_app in Hlen. cbn in Hlen.
    destruct r as [[]|e]; [|split; [lia|done]].
    wps_step. split; [lia|]. intros lin [= <-].
    unfold Linear_valid, Linear.parameters. cbn.
    repeat constructor; rewrite ?length_app; cbn; lia.
  - do 2 wps_step.
    eapply wps_mono; [apply (wps_keeps _ _ _ (length_Linear_reset _))|].
    intros r w2 Hlen. cbn in Hlen. rewrite !length_app in Hlen. cbn in Hlen.
    destruct r as [[]|e]; [|split; [lia|done]].
    wps_step. split; [lia|]. intros lin [= <-].
    unfold Linear_valid, Linear.parameters. cbn.
    repeat constructor; rewrite ?length_app; cbn; lia.
Qed.

Lemma Linear_init_runs i o b w lin w' l :
  runs_to (Linear.init i o b) w lin w' l →
  length (tensors w) ≤ length (tensors w') ∧ Linear_valid w' lin.
Proof.
  intros Hr. pose proof (runs_to_wps _ _ _ _ _ _ Hr (wps_Linear_init_valid i o b w))
    as [Hle Hv].
  split; [done|]. by apply Hv.
Qed.

(** A layer as its constructor leaves it in the state [w]: it has a
    root transform for each of its node types and a relation transform
    under the name of each of its edge types, and the parameters of
    all of them are allocated. *)
Definition conv_built (node_types : list string) (edge_types : list EdgeType)
    (w : world) (self : RGCNConv.t) : Prop :=
  RGCNConv.node_types self = node_types ∧
  RGCNConv.edge_types self = edge_types ∧
  conv_valid w self ∧
  (∀ k, k ∈ dict_keys (RGCNConv.root_lins self) ↔ k ∈ node_types) ∧
  (∀ s, s ∈ dict_keys (RGCNConv.rel_lins self)
        ↔ s ∈ RGCNConv.key_str <$> edge_types).

Lemma Forall_dict_set {K V} `{EqDecision K} (P : V → Prop) (d : Dict K V) k v :
  Forall P (dict_values d) → P v → Forall P (dict_values (dict_set k v d)).
Proof.
  intros Hd Hv. apply Forall_forall. intros x [->|Hx]%dict_values_set; [done|].
  by eapply Forall_forall in Hd.
Qed.

(** One loop of a constructor: a layer made for every item and stored
    under the item's name. *)
Lemma lins_loop_runs {A} (name : A → string) i o b (xs : list A) w d w' l :
  runs_to (foldM (λ d key, lin ← Linear.init i o b;
                           mret (dict_set (name key) lin d)) [] xs)
          w d w' l →
  length (tensors w) ≤ length (tensors w') ∧
  Forall (Linear_valid w') (dict_values d) ∧
  ∀ s, s ∈ dict_keys d ↔ s ∈ name <$> xs.
Proof.
  apply (foldM_runs_ind _ (λ done d w',
           length (tensors w) ≤ length (tensors w') ∧
           Forall (Linear_valid w') (dict_values d) ∧
           ∀ s, s ∈ dict_keys d ↔ s ∈ name <$> done)).
  - intros done a d0 w0 d1 w1 l1 (Hle & Hv & Hk) Hr. runs_inv Hr.
    match goal with
    | H : runs_to (Linear.init _ _ _) _ _ _ _ |- _ =>
        apply Linear_init_runs in H as [Hle1 Hv1]
    end.
    subst. split_and!.
    + lia.
    + apply Forall_dict_set; [|done].
      eapply Forall_impl; [exact Hv|]. intros lin. by apply Linear_valid_mono.
    + intros s. rewrite dict_keys_set_elem, Hk, fmap_app, elem_of_app.
      cbn. rewrite list_elem_of_singleton. tauto.
  - split_and!; [done|constructor|]. intros s. cbn. by rewrite !elem_of_nil.
Qed.

Lemma RGCNConv_init_built i o nts ets w self w' l :
  runs_to (RGCNConv.init i o nts ets) w self w' l →
  length (tensors w) ≤ length (tensors w') ∧ conv_built nts ets w' self.
Proof.
  intros Hr. unfold RGCNConv.init in Hr. runs_inv Hr. subst.
  apply (lins_loop_runs RGCNConv.key_str) in Hr0 as (Hle1 & Hv1 & Hk1).
  apply (lins_loop_runs id) in Hr1 as (Hle2 & Hv2 & Hk2).
  match goal with
  | H : runs_to (RGCNConv.reset_parameters ?c) ?w2 _ _ _ |- _ =>
      pose proof (length_RGCNConv_reset c w2) as Hlen; unfold runs_to in H;
      rewrite H in Hlen; cbn in Hlen
  end.
  split; [lia|]. unfold conv_built, conv_valid. cbn. split_and!; [done..| | |].
  - apply Forall_app. split.
    + eapply Forall_impl; [exact Hv1|]. intros lin.
      apply Linear_valid_mono. lia.
    + eapply Forall_impl; [exact Hv2|]. intros lin.
      apply Linear_valid_mono. lia.
  - intros k. by rewrite Hk2, list_fmap_id.
  - done.
Qed.

(** A model as its constructor leaves it: an embedding for every node
    type without features and an input layer for every node type with
    features; the hidden layers over all node types and edge types; the
    last layer over the output node type and the edge types that end
    in it. *)
Definition model_built (num_nodes_dict : Dict string nat)
    (x_types : list string) (edge_types : list EdgeType) (out_type : string)
    (model : RGCN.t) : Prop :=
  RGCN.out_type model = out_type ∧
  (∀ k, k ∈ dict_keys (RGCN.embs model)
        ↔ k ∈ dict_keys num_nodes_dict ∧ k ∉ x_types) ∧
  (∀ k, k ∈ dict_keys (RGCN.lins model) ↔ k ∈ x_types) ∧
  Forall (λ conv, RGCNConv.node_types conv = dict_keys num_nodes_dict
                  ∧ RGCNConv.edge_types conv = edge_types)
         (removelast (RGCN.convs model)) ∧
  ∃ conv, last (RGCN.convs model) = Some conv ∧
          RGCNConv.node_types conv = [out_type] ∧
          RGCNConv.edge_types conv
          = filter (λ keys : EdgeType, keys.2 = out_type) edge_types.

Lemma RGCN_init_built i h o n p nn xt et ot w model w' l :
  runs_to (RGCN.init i h o n p nn xt et ot) w model w' l →
  model_built nn xt et ot model.
Proof.
  intros Hr. unfold RGCN.init in Hr. runs_inv Hr. subst model.
  assert (Hembs : ∀ k, k ∈ dict_keys a ↔ k ∈ RGCN.difference (dict_keys nn) xt).
  { revert Hr0.
    apply (foldM_runs_ind _ (λ done (d : Dict string loc) (_ : world),
             ∀ k, k ∈ dict_keys d ↔ k ∈ done)).
    - intros done key d0 w5 d1 w6 l10 Hk Hstep. runs_inv Hstep. subst.
      intros k. rewrite dict_keys_set_elem, Hk, elem_of_app.
      rewrite list_elem_of_singleton. tauto.
    - intros k. cbn. by rewrite !elem_of_nil. }
  apply (lins_loop_runs id) in Hr1 as (_ & _ & Hlins).
  apply (foldM_runs_ind _ (λ _ convs _,
           Forall (λ conv, RGCNConv.node_types conv = dict_keys nn
                           ∧ RGCNConv.edge_types conv = et) convs))
    in Hr2 as Hconvs.
  2: { intros done j convs w5 convs' w6 l10 Hc Hstep. runs_inv Hstep.
       match goal with
       | H : runs_to (RGCNConv.init _ _ _ _) _ _ _ _ |- _ =>
           apply RGCNConv_init_built in H as (_ & Hnt & Het & _)
       end.
       subst. apply Forall_app. split; [done|]. by constructor. }
  2: { constructor. }
  apply RGCNConv_init_built in Hr3 as (_ & Hnt & Het & _).
  unfold model_built. cbn. split_and!.
  - done.
  - intros k. rewrite Hembs. unfold RGCN.difference.
    rewrite list_elem_of_filter, elem_of_remove_dups. tauto.
  - intros k. by rewrite Hlins, list_fmap_id.
  - by rewrite removelast_last.
  - eexists. by rewrite last_snoc.
Qed.

(** ** What a forward pass that returns has found *)

Lemma for_runs_ind {A} (f : A → M unit) (I : list A → world → Prop) xs :
  (∀ done a w u w' l,
     I done w → runs_to (f a) w u w' l → I (done ++ [a]) w') →
  ∀ w u w' l, I [] w → runs_to (for_ xs f) w u w' l → I xs w'.
Proof.
  intros Hf.
  assert (Hgen : ∀ ys done w u w' l,
            I done w → runs_to (for_ ys f) w u w' l → I (done ++ ys) w').
  { induction ys as [|a ys IH]; intros done w u w' l Hw Hr; cbn [for_] in Hr.
    - apply ret_runs_inv in Hr as (_ & -> & _). by rewrite app_nil_r.
    - apply bind_runs_inv in Hr as (u1 & w1 & l1 & l2 & H1 & H2 & ->).
      rewrite cons_middle, app_assoc. eapply IH; [|done]. by eapply Hf. }
  intros w u w' l. apply (Hgen xs []).
Qed.

Lemma alloc_runs_inv x w n w' l :
  runs_to (alloc x) w n w' l →
  n = length (tensors w) ∧ w' = set_tensors (λ ts, ts ++ [x]) w ∧ l = [].
Proof. intros Hr. by inversion Hr. Qed.

Lemma new_dict_runs_inv d w n w' l :
  runs_to (new_dict d) w n w' l →
  n = length (dicts w) ∧ w' = set_dicts (λ ds, ds ++ [d]) w ∧ l = [].
Proof. intros Hr. by inversion Hr. Qed.

Lemma getitem_Ok_keys {K V} `{EqDecision K} (d : Dict K V) k v :
  getitem d k = Ok v → k ∈ dict_keys d.
Proof. intros Hg%getitem_Ok. by eapply dict_get_Some_keys. Qed.

Lemma RGCNConv_forward_needs self x adj w out w' l :
  x < length (dicts w) →
  runs_to (RGCNConv.forward self x adj) w out w' l →
  conv_keys self (dict_at w x) adj.
Proof.
  intros Hx Hr. unfold RGCNConv.forward in Hr.
  apply bind_runs_inv in Hr as (o & w1 & l1 & l2 & Hnew & Hr & ->).
  apply new_dict_runs_inv in Hnew as (-> & -> & _).
  apply bind_runs_inv in Hr as ([] & w2 & l3 & l4 & Hloop1 & Hr & ->).
  apply bind_runs_inv in Hr as ([] & w3 & l5 & l6 & Hloop2 & _ & _).
  set (out0 := length (dicts w)) in *.
  apply (for_runs_ind _ (λ done w',
           dict_at w' x = dict_at w x ∧ out0 < length (dicts w') ∧
           (∀ k, k ∈ dict_keys (dict_at w' out0) ↔ k ∈ done) ∧
           Forall (λ k, k ∈ dict_keys (RGCNConv.root_lins self)
                        ∧ k ∈ dict_keys (dict_at w x)) done))
    in Hloop1 as (Hx2 & Hlt2 & Hk2 & Hnodes).
  2: { intros done key w5 [] w6 l7 (Hx5 & Hlt5 & Hk5 & Hd) Hstep.
       unfold Linear.forward, dict_setitem, dict_getitem, dict_items in Hstep.
       runs_inv Hstep.
       match goal with
       | H : runs_to (alloc _) _ _ _ _ |- _ =>
           apply alloc_runs_inv in H as (? & ? & ?)
       end.
       subst. split_and!.
       - rewrite dict_at_setitem, decide_False by lia. exact Hx5.
       - cbn. by rewrite length_alter.
       - intros k. rewrite dict_at_setitem, decide_True by done.
         rewrite dict_keys_set_elem, elem_of_app, list_elem_of_singleton.
         change (dict_at (set_tensors _ w5) out0) with (dict_at w5 out0).
         rewrite Hk5. tauto.
       - apply Forall_app. split; [done|]. constructor; [|constructor].
         split; [by eapply getitem_Ok_keys|].
         rewrite <-Hx5. by eapply getitem_Ok_keys. }
  2: { split_and!.
       - rewrite dict_at_new, decide_False, decide_True by lia. done.
       - cbn. rewrite length_app. cbn. lia.
       - intros k. rewrite dict_at_new, decide_True by done. cbn.
         by rewrite !elem_of_nil.
       - constructor. }
  apply (for_runs_ind _ (λ done w',
           dicts w' = dicts w2 ∧
           Forall (λ key : EdgeType,
                     key.1.1 ∈ dict_keys (dict_at w x) ∧
                     key ∈ dict_keys adj ∧
                     RGCNConv.key_str key ∈ dict_keys (RGCNConv.rel_lins self) ∧
                     key.2 ∈ RGCNConv.node_types self) done))
    in Hloop2 as (_ & Hedges).
  2: { intros done key w5 [] w6 l7 (Hd5 & Hd) Hstep.
       unfold Linear.forward, add_, write, dict_getitem, dict_items in Hstep.
       runs_inv Hstep.
       repeat match goal with
       | H : runs_to (alloc _) _ _ _ _ |- _ =>
           apply alloc_runs_inv in H as (? & ? & ?)
       end.
       subst. split; [exact Hd5|].
       apply Forall_app. split; [done|]. constructor; [|constructor].
       assert (Hat : ∀ r, dict_at w5 r = dict_at w2 r)
         by (intros r; unfold dict_at; by rewrite Hd5).
       split_and!.
       - rewrite <-Hx2, <-Hat. by eapply getitem_Ok_keys.
       - by eapply getitem_Ok_keys.
       - by eapply getitem_Ok_keys.
       - apply Hk2. rewrite <-Hat. by eapply getitem_Ok_keys. }
  2: { split; [done|constructor]. }
  by split.
Qed.

Lemma RGCN_forward_needs self x adj w out w' l :
  runs_to (RGCN.forward self x adj) w out w' l →
  Forall (λ key, key ∈ dict_keys (RGCN.lins self)) (dict_keys (dict_at w x))
  ∧ RGCN.convs self ≠ [].
Proof.
  intros Hr. unfold RGCN.forward, dict_items in Hr.
  apply bind_runs_inv in Hr as (d & w1 & l1 & l2 & Hd & Hr & ->).
  apply gets_runs_inv in Hd as (-> & -> & _).
  apply bind_runs_inv in Hr as (o & w1 & l3 & l4 & Hnew & Hr & ->).
  apply new_dict_runs_inv in Hnew as (-> & -> & _).
  apply bind_runs_inv in Hr as (items & w2 & l5 & l6 & Hit & Hr & ->).
  apply gets_runs_inv in Hit as (-> & -> & _).
  rewrite dict_at_new, decide_True in Hr by done.
  apply bind_runs_inv in Hr as ([] & w2 & l7 & l8 & Hloop & Hr & ->).
  apply bind_runs_inv in Hr as ([] & w3 & l9 & l10 & _ & Hr & ->).
  apply bind_runs_inv in Hr as (xd & w4 & l11 & l12 & _ & Hr & ->).
  apply bind_runs_inv in Hr as (conv & w5 & l13 & l14 & Hlast & _ & _).
  apply lift_runs_inv in Hlast as (Hlast & _ & _).
  split.
  - apply (for_runs_ind _ (λ done _,
             Forall (λ kv : string * loc, kv.1 ∈ dict_keys (RGCN.lins self))
                    done)) in Hloop.
    + unfold dict_keys at 2. by apply Forall_fmap.
    + intros done [key xl] w6 [] w7 l15 Hdone Hstep. runs_inv Hstep.
      apply Forall_app. split; [done|]. constructor; [|constructor].
      by eapply getitem_Ok_keys.
    + constructor.
  - intros Hnil. by rewrite Hnil in Hlast.
Qed.
End InitValid.

(** * More on main *)

Section MainMore.
Context `{Torch}.

Lemma length_range a b : length (range a b) = Z.to_nat (b - a).
Proof. unfold range. by rewrite length_fmap, length_seq. Qed.

(** how often [k] occurs in [ks] *)
Definition count (k : kind) (ks : list kind) : nat :=
  length (filter (λ k', k' = k) ks).

Lemma count_app k ks1 ks2 : count k (ks1 ++ ks2) = count k ks1 + count k ks2.
Proof. unfold count. by rewrite filter_app, length_app. Qed.

Lemma count_bind {A} k (f : A → list kind) c xs :
  (∀ x, count k (f x) = c) → count k (xs ≫= f) = length xs * c.
Proof.
  intros Hf. induction xs as [|x xs IH]; [done|].
  change ((x :: xs) ≫= f) with (f x ++ (xs ≫= f)).
  rewrite count_app, Hf, IH. done.
Qed.

(** The kinds of event that occur once in every epoch. *)
Definition once_an_epoch (k : kind) : Prop :=
  k ∈ [KZeroGrad; KForward true; KNllLoss; KBackward; KStep; KForward false;
       KEval "train"; KEval "valid"; KEval "test"].

Lemma count_epoch_kinds k args run epoch :
  once_an_epoch k → count k (epoch_kinds args run epoch) = 1.
Proof.
  unfold once_an_epoch. rewrite !elem_of_cons, elem_of_nil.
  unfold epoch_kinds.
  intros [->|[->|[->|[->|[->|[->|[->|[->|[->|[]]]]]]]]]]; by case_decide.
Qed.

Lemma count_main_kinds k args :
  once_an_epoch k →
  count k (main_kinds args)
  = Z.to_nat (Namespace.runs args) * Z.to_nat (Namespace.epochs args).
Proof.
  intros Hk. unfold main_kinds. rewrite !count_app.
  rewrite (count_bind k _ (Z.to_nat (Namespace.epochs args))).
  - rewrite length_range, Z.sub_0_r.
    assert (H1 : count k [KPrintArgs; KPrintData; KTo; KTo] = 0).
    { revert Hk. unfold once_an_epoch. rewrite !elem_of_cons, elem_of_nil.
      by intros [->|[->|[->|[->|[->|[->|[->|[->|[->|[]]]]]]]]]]. }
    assert (H2 : count k [KPrintStatistics None] = 0).
    { revert Hk. unfold once_an_epoch. rewrite !elem_of_cons, elem_of_nil.
      by intros [->|[->|[->|[->|[->|[->|[->|[->|[->|[]]]]]]]]]]. }
    rewrite H1, H2. lia.
  - intros run. unfold run_kinds. rewrite !count_app.
    rewrite (count_bind k _ 1) by (intros; by apply count_epoch_kinds).
    rewrite length_range.
    assert (H1 : count k [KResetParameters; KNewAdam] = 0).
    { revert Hk. unfold once_an_epoch. rewrite !elem_of_cons, elem_of_nil.
      by intros [->|[->|[->|[->|[->|[->|[->|[->|[->|[]]]]]]]]]]. }
    assert (H2 : count k [KPrintStatistics (Some run)] = 0).
    { revert Hk. unfold once_an_epoch. rewrite !elem_of_cons, elem_of_nil.
      by intros [->|[->|[->|[->|[->|[->|[->|[->|[->|[]]]]]]]]]]. }
    rewrite H1, H2. f_equal. lia.
Qed.

(** A loop over at least one item that ends normally has run its body. *)
Lemma foldM_runs_nonempty {A B} (f : B → A → M B) (P : Prop) xs :
  (∀ b a w b' w' l, runs_to (f b a) w b' w' l → P) →
  xs ≠ [] → ∀ b w b' w' l, runs_to (foldM f b xs) w b' w' l → P.
Proof.
  intros Hf Hxs b w b' w' l Hr. destruct xs as [|a xs]; [done|].
  cbn [foldM] in Hr.
  apply bind_runs_inv in Hr as (b1 & w1 & l1 & l2 & H1 & _ & _). by eapply Hf.
Qed.

Lemma range_nonempty a b : (a < b)%Z → range a b ≠ [].
Proof.
  intros Hab Hnil. apply (f_equal length) in Hnil.
  rewrite length_range in Hnil. cbn in Hnil. lia.
Qed.

Lemma run_body_log_steps args model data split_idx train_idx lg run w lg' w' l :
  runs_to (run_body args model data split_idx train_idx lg run) w lg' w' l →
  (0 < Namespace.epochs args)%Z → Namespace.log_steps args ≠ 0%Z.
Proof.
  intros Hr Hep. unfold run_body in Hr.
  apply bind_runs_inv in Hr as (o & w1 & l1 & l2 & _ & Hr & _).
  apply bind_runs_inv in Hr as (lg1 & w2 & l3 & l4 & Hr & _ & _).
  eapply foldM_runs_nonempty in Hr; [done| |apply range_nonempty; lia].
  intros. by eapply epoch_body_runs_inv.
Qed.

Lemma main_args_log_steps args cuda dataset w u w' l :
  runs_to (main_args args cuda dataset) w u w' l →
  (0 < Namespace.runs args)%Z → (0 < Namespace.epochs args)%Z →
  Namespace.log_steps args ≠ 0%Z.
Proof.
  intros Hr Hruns Hep. unfold main_args in Hr.
  apply bind_runs_inv in Hr as ([] & w1 & l1 & l2 & _ & Hr & _).
  apply bind_runs_inv in Hr as ([[model data] idx] & w2 & l3 & l4 & _ & Hr & _).
  cbv zeta in Hr.
  apply bind_runs_inv in Hr as (lg1 & w3 & l5 & l6 & Hr & _ & _).
  eapply foldM_runs_nonempty in Hr; [done| |apply range_nonempty; lia].
  intros. by eapply run_body_log_steps.
Qed.

(** With [log_steps] at 0, an epoch whose training step and evaluation
    return ends in [ZeroDivisionError]. *)
Lemma epoch_body_ZeroDivisionError args model data split_idx train_idx o run
    lg epoch w y loss w1 l1 result w2 l2 :
  Namespace.log_steps args = 0%Z →
  getitem (Data.y_dict data) "paper" = Ok y →
  runs_to (train model (Data.x_dict data) (Data.adj_t_dict data) y
             train_idx o) w loss w1 l1 →
  runs_to (test model (Data.x_dict data) (Data.adj_t_dict data) y split_idx)
          w1 result w2 l2 →
  res (epoch_body args model data split_idx train_idx o run lg epoch w)
  = Raise ZeroDivisionError.
Proof.
  intros Hlog Hy Htr Hte. unfold epoch_body, Logger.add_result.
  rewrite Hy, lift_Ok_bind. unfold mbind, M_bind, bind.
  unfold runs_to in Htr, Hte. rewrite Htr. unfold lift. rewrite Hte.
  cbn. by rewrite decide_True.
Qed.
End MainMore.

(** * Arguments that differ in device, without cuda *)

Section NoCuda.
Context `{Torch}.

(** [a1] and [a2] are the same but for [device]. *)
Definition same_but_device (a1 a2 : Namespace.t) : Prop :=
  argparse.set_device 0 a1 = argparse.set_device 0 a2.

Lemma same_but_device_fields a1 a2 :
  same_but_device a1 a2 →
  Namespace.log_steps a1 = Namespace.log_steps a2 ∧
  Namespace.num_layers a1 = Namespace.num_layers a2 ∧
  Namespace.hidden_channels a1 = Namespace.hidden_channels a2 ∧
  Namespace.dropout a1 = Namespace.dropout a2 ∧
  Namespace.lr a1 = Namespace.lr a2 ∧
  Namespace.epochs a1 = Namespace.epochs a2 ∧
  Namespace.runs a1 = Namespace.runs a2.
Proof.
  intros Ha. split_and!.
  - apply (f_equal Namespace.log_steps Ha).
  - apply (f_equal Namespace.num_layers Ha).
  - apply (f_equal Namespace.hidden_channels Ha).
  - apply (f_equal Namespace.dropout Ha).
  - apply (f_equal Namespace.lr Ha).
  - apply (f_equal Namespace.epochs Ha).
  - apply (f_equal Namespace.runs Ha).
Qed.

Lemma run_body_relog_eq a1 a2 model data split_idx train_idx i lg run w :
  Namespace.log_steps a1 = Namespace.log_steps a2 →
  Namespace.lr a1 = Namespace.lr a2 →
  Namespace.epochs a1 = Namespace.epochs a2 →
  run_body a2 model data split_idx train_idx (relog i lg) run w
  = omap (relog i) (run_body a1 model data split_idx train_idx lg run w).
Proof.
  intros Hlog Hlr Hep. unfold run_body, start_run. rewrite Hlr, Hep.
  apply (bind_omap _ _ id); [apply omap_id|]. intros o w0. unfold id.
  apply (bind_omap _ _ (relog i)).
  - apply foldM_omap. intros. by apply epoch_body_relog.
  - done.
Qed.

Lemma setup_no_cuda a1 a2 dataset w :
  same_but_device a1 a2 → setup a2 false dataset w = setup a1 false dataset w.
Proof.
  intros (_ & Hnl & Hhc & Hdr & _)%same_but_device_fields.
  unfold setup. by rewrite Hnl, Hhc, Hdr.
Qed.

Lemma main_args_no_cuda a1 a2 dataset w :
  same_but_device a1 a2 →
  ∃ o : outcome unit,
    main_args a1 false dataset w
    = Outcome (res o) (final o) (PrintArgs a1 :: trace o) ∧
    main_args a2 false dataset w
    = Outcome (res o) (final o) (PrintArgs a2 :: trace o).
Proof.
  intros Ha. unfold main_args. rewrite !emit_bind.
  eexists. split; [reflexivity|].
  match goal with
  | |- Outcome (res ?o2) _ _ = Outcome (res ?o1) _ _ =>
      assert (o2 = o1) as Ho; [|by rewrite Ho]
  end.
  rewrite (omap_id (mbind _ (setup a1 _ _) _)).
  apply (bind_omap _ _ id); [rewrite <-omap_id; by apply setup_no_cuda|].
  intros [[model data] train_idx] w1. unfold id. cbv zeta.
  destruct (same_but_device_fields _ _ Ha)
    as (Hlog & _ & _ & _ & Hlr & Hep & Hruns).
  rewrite <-Hruns.
  apply (bind_omap _ _ (relog a2)).
  - change (Logger.init (Namespace.runs a1) a2)
      with (relog a2 (Logger.init (Namespace.runs a1) a1)).
    apply foldM_omap. intros. by apply run_body_relog_eq.
  - done.
Qed.
End NoCuda.

(** * What reset_parameters writes to *)

Section Touches.
Context `{Torch}.

(** [m] allocates nothing, changes no dictionary, and of the tensors it
    changes only those in [g]. *)
Definition touches (g : list loc) (m : M unit) : Prop :=
  ∀ w, dicts (final (m w)) = dicts w ∧
       length (tensors (final (m w))) = length (tensors w) ∧
       ∀ p, p ∉ g → tensors (final (m w)) !! p = tensors w !! p.

Lemma touches_bind g1 g2 (m1 m2 : M unit) :
  touches g1 m1 → touches g2 m2 → touches (g1 ++ g2) (m1;; m2).
Proof.
  intros H1 H2 w. unfold mbind, M_bind, bind.
  destruct (H1 w) as (Hd1 & Hl1 & Hp1).
  destruct (m1 w) as [[[]|e] w1 l1]; cbn in *.
  - destruct (H2 w1) as (Hd2 & Hl2 & Hp2).
    destruct (m2 w1) as [r w2 l2]. cbn in *. split_and!; [congruence..|].
    intros p Hp. rewrite not_elem_of_app in Hp. destruct Hp.
    rewrite Hp2, Hp1; done.
  - split_and!; [done..|]. intros p Hp. rewrite not_elem_of_app in Hp.
    destruct Hp. by apply Hp1.
Qed.

Lemma touches_for_ {A} (g : A → list loc) (f : A → M unit) (l : list A) :
  (∀ a, touches (g a) (f a)) → touches (l ≫= g) (for_ l f).
Proof.
  intros Hf. induction l as [|a l IH]; [done|].
  change ((a :: l) ≫= g) with (g a ++ (l ≫= g)). cbn [for_].
  by apply touches_bind.
Qed.

Lemma touches_reinit p f w :
  dicts (reinit p f w) = dicts w ∧
  length (tensors (reinit p f w)) = length (tensors w) ∧
  ∀ q, q ≠ p → tensors (reinit p f w) !! q = tensors w !! q.
Proof.
  unfold reinit. cbn. split_and!; [done|by rewrite length_insert|].
  intros q Hq. by rewrite list_lookup_insert_ne.
Qed.

Lemma touches_Linear lin :
  touches (Linear.parameters lin) (Linear.reset_parameters lin).
Proof.
  intros w. rewrite Linear_reset_parameters_eq. cbn [final].
  unfold Linear_reinit, Linear.parameters. cbv zeta.
  destruct (touches_reinit (Linear.weight lin) kaiming_uniform w)
    as (Hd1 & Hl1 & Hp1).
  destruct (Linear.bias lin) as [b|].
  - destruct (touches_reinit b
                (bias_uniform (ncols (tensor_at w (Linear.weight lin))))
                (reinit (Linear.weight lin) kaiming_uniform w))
      as (Hd2 & Hl2 & Hp2).
    split_and!; [congruence..|]. intros p Hp.
    rewrite !not_elem_of_cons in Hp. destruct Hp as (? & ? & _).
    rewrite Hp2, Hp1; done.
  - split_and!; [done..|]. intros p Hp.
    rewrite !not_elem_of_cons in Hp. destruct Hp as (? & _). by apply Hp1.
Qed.

Lemma touches_RGCNConv conv :
  touches (RGCNConv.parameters conv) (RGCNConv.reset_parameters conv).
Proof.
  unfold RGCNConv.parameters, RGCNConv.reset_parameters.
  apply touches_bind; apply touches_for_, touches_Linear.
Qed.

Lemma touches_RGCN model :
  touches (RGCN.parameters model) (RGCN.reset_parameters model).
Proof.
  unfold RGCN.parameters, RGCN.reset_parameters.
  rewrite <-(list_bind_singleton (dict_values (RGCN.embs model))) at 1.
  apply touches_bind; [|apply touches_bind].
  - apply touches_for_. intros emb w.
    destruct (touches_reinit emb xavier_uniform w) as (Hd & Hl & Hp).
    split_and!; [exact Hd|exact Hl|].
    intros p Hne. rewrite not_elem_of_cons in Hne. destruct Hne.
    by apply Hp.
  - apply touches_for_, touches_Linear.
  - apply touches_for_, touches_RGCNConv.
Qed.
End Touches.

(** * The claims *)

Ltac by_compute := apply (bool_decide_unpack _); vm_compute; exact I.

(** C1: RGCNConv.forward, given a feature dictionary and an adjacency
    dictionary that hold the keys it looks up and whose tensors have
    the shapes the layers expect (so that no operation raises), returns
    a new dictionary whose keys are the node types and whose entry for
    every node type [k] is [root_lins[k](x_dict[k])] plus, in the order
    of [edge_types], the message
    [rel_lins[(s, r, d)](adj_t.matmul(x_dict[s], reduce='mean'))] of
    every edge type [(s, r, d)] with [d = k]. *)
Theorem RGCNConv_forward_spec `{Torch} (self : RGCNConv.t) (x_dict : nat)
    (adj_t_dict : Dict EdgeType SparseTensor) (w : world) :
  dict_valid w x_dict →
  conv_valid w self →
  conv_keys self (dict_at w x_dict) adj_t_dict →
  conv_shapes w self (dict_at w x_dict) adj_t_dict →
  ∃ out_dict,
    res (RGCNConv.forward self x_dict adj_t_dict w) = Ok out_dict ∧
    let w' := final (RGCNConv.forward self x_dict adj_t_dict w) in
    (∀ k, k ∈ dict_keys (dict_at w' out_dict) ↔ k ∈ RGCNConv.node_types self) ∧
    ∀ k, k ∈ RGCNConv.node_types self →
      ∃ l, dict_get k (dict_at w' out_dict) = Some l ∧
           conv_entry w self (dict_at w x_dict) adj_t_dict k
           = Some (tensor_at w' l).
Proof.
  intros Hx Hself Hkeys Hshapes.
  destruct (RGCNConv_forward_correct w self x_dict adj_t_dict Hx Hself Hkeys
              Hshapes) as [Hres (Hext & Hlt & Hk & Hent & Hinj)].
  exists (length (dicts w)). split; [done|]. split; [done|].
  intros k Hin. apply Hk in Hin.
  apply dict_get_is_Some in Hin as [l Hl]. exists l. split; [done|].
  destruct (Hent k l Hl) as [_ (r & ms & Hr & Hms & Ht & _)].
  unfold conv_entry. rewrite Hr. cbn.
  apply mapM_Some_2 in Hms. rewrite Hms. cbn. exact Ht.
Qed.

Lemma RGCNConv_forward_spec_witness :
  ∃ out_dict,
    res (RGCNConv.forward Toy.conv 0 Toy.adj_t_dict Toy.w_conv) = Ok out_dict.
Proof.
  destruct (RGCNConv_forward_spec Toy.conv 0 Toy.adj_t_dict Toy.w_conv)
    as [out_dict [Hout _]].
  - split; [vm_compute; lia|by_compute].
  - by_compute.
  - split; by_compute.
  - by_compute.
  - by exists out_dict.
Defined.

(** C9: RGCN.forward changes no tensor and no dictionary that existed
    when it was called: the stores it ends with extend the stores it
    started from.  So the caller's [x_dict] holds the same keys with the
    same tensors, and these tensors hold the same values. *)
Theorem RGCN_forward_keeps_inputs `{Torch} (self : RGCN.t) (x_dict : nat)
    (adj_t_dict : Dict EdgeType SparseTensor) (w : world) :
  let w' := final (RGCN.forward self x_dict adj_t_dict w) in
  (tensors w `prefix_of` tensors w' ∧ dicts w `prefix_of` dicts w') ∧
  (∀ d, dicts w !! x_dict = Some d →
     dicts w' !! x_dict = Some d ∧
     ∀ key x X, dict_get key d = Some x → tensors w !! x = Some X →
                tensors w' !! x = Some X).
Proof.
  pose proof (RGCN_forward_frame self x_dict adj_t_dict w) as Hext.
  unfold wps in Hext. cbv zeta. split; [done|].
  destruct Hext as [Ht Hd]. intros d Hx. split.
  - by eapply prefix_lookup_Some.
  - intros key x X _ HX. by eapply prefix_lookup_Some.
Qed.




(** C10, as stated, fails: when the original edge types are
    [('a', 'to', 'b')] and [('b', 'to', 'a')], the second step of the
    loop assigns to both keys again, and [adj_t_dict[('a', 'to', 'b')]] is
    the untransposed adjacency of the second relation (here without
    edges), not the transpose of the adjacency of the first. *)
Lemma convert_to_collision :
  (("a", "to", "b"), ([0], [0])) ∈ default [] (Data.edge_index_dict Toy.data_to) ∧
  "a" ≠ "b" ∧
  ∃ data', convert Toy.data_to = Ok data' ∧
    dict_get ("a", "to", "b") (Data.adj_t_dict data') = Some (mkSparse [] [] (1, 1)) ∧
    dict_get ("a", "to", "b") (Data.adj_t_dict data') ≠ Some (t (mkSparse [0] [0] (1, 1))).
Proof.
  split; [apply list_elem_of_here|]. split; [done|].
  eexists. split; [reflexivity|]. split; [reflexivity|].
  vm_compute. intros Hc. discriminate Hc.
Qed.

(** C10, amended: the conversion loop succeeds when the node types of
    every original edge type are in [num_nodes_dict]; afterwards
    [edge_index_dict] is [None], and for each original edge type
    [(s, r, d)] with edge index [(row, col)] and
    [adj = SparseTensor(row, col, (num_nodes[s], num_nodes[d]))]:
    if [s = d], [adj_t_dict[(s, r, d)]] is [adj.to_symmetric()]; if
    [s ≠ d] and no other original edge type joins [s] and [d],
    [adj_t_dict[(s, r, d)]] is [adj.t()] and [adj_t_dict[(d, 'to', s)]] is
    [adj].  The forward key keeps the relation's name; only the reverse
    key is named ['to']. *)
Theorem convert_adj_t_dict `{Torch} (data : Data.t)
    (edge_index_dict : Dict EdgeType (list nat * list nat)) :
  Data.edge_index_dict data = Some edge_index_dict →
  NoDup (dict_keys edge_index_dict) →
  Forall (λ key : EdgeType,
            key.1.1 ∈ dict_keys (Data.num_nodes_dict data) ∧
            key.2 ∈ dict_keys (Data.num_nodes_dict data))
         (dict_keys edge_index_dict) →
  ∃ data',
    convert data = Ok data' ∧
    Data.edge_index_dict data' = None ∧
    ∀ s r d row col n_s n_d,
      ((s, r, d), (row, col)) ∈ edge_index_dict →
      dict_get s (Data.num_nodes_dict data) = Some n_s →
      dict_get d (Data.num_nodes_dict data) = Some n_d →
      let adj := mkSparse row col (n_s, n_d) in
      (s = d →
       dict_get (s, r, d) (Data.adj_t_dict data') = Some (to_symmetric adj)) ∧
      (s ≠ d →
       (∀ key', key' ∈ dict_keys edge_index_dict → key' ≠ (s, r, d) →
                ¬ joins key' s d) →
       dict_get (s, r, d) (Data.adj_t_dict data') = Some (t adj) ∧
       dict_get (d, "to", s) (Data.adj_t_dict data') = Some adj).
Proof.
  intros Hidx Hnd Hnodes.
  destruct (convert_loop_Ok (Data.num_nodes_dict data) [] edge_index_dict Hnodes)
    as [res Hres].
  eexists. split.
  { unfold convert. rewrite Hidx. cbn [mbind result_bind]. rewrite Hres.
    reflexivity. }
  split; [done|]. cbn [Data.adj_t_dict].
  intros s r d row col n_s n_d Hin Hs Hd. by eapply convert_loop_item.
Qed.

Lemma convert_adj_t_dict_witness :
  ∃ data', convert Toy.data = Ok data' ∧ Data.edge_index_dict data' = None.
Proof.
  destruct (@convert_adj_t_dict Toy.scalar Toy.torch Toy.data
              (Dataset.edge_index_dict Toy.dataset))
    as (data' & Hconv & Hnone & _).
  - reflexivity.
  - by_compute.
  - by_compute.
  - by exists data'.
Defined.

(** C5: when the forward pass of the model succeeds from the state in
    which [model.training] and the gradient mode are both off, and the
    three splits have their ['paper'] indices within the labels and the
    predictions, [test] returns the triple (train, valid, test) of the
    evaluator's accuracies of the argmax predictions against [y_true] on
    the indices of the split.  The forward pass is the one run in eval
    mode without gradient tracking, both flags are still off when it
    ends, and the gradient mode is restored on return. *)
Theorem test_spec `{Torch} (model : RGCN.t) (x_dict : nat)
    (adj_t_dict : Dict EdgeType SparseTensor) (y_true : list Z)
    (split_idx : Dict string (Dict string (list nat))) (w : world)
    (out : loc) (train_acc valid_acc test_acc : Float) :
  let w0 := set_training false (set_grad_enabled false w) in
  let w1 := final (RGCN.forward model x_dict adj_t_dict w0) in
  let y_pred := argmax (tensor_at w1 out) in
  res (RGCN.forward model x_dict adj_t_dict w0) = Ok out →
  split_acc split_idx "train" y_true y_pred = Ok train_acc →
  split_acc split_idx "valid" y_true y_pred = Ok valid_acc →
  split_acc split_idx "test" y_true y_pred = Ok test_acc →
  test model x_dict adj_t_dict y_true split_idx w =
    Outcome (Ok (train_acc, valid_acc, test_acc))
            (set_grad_enabled (grad_enabled w) w1)
            [Forward false false; Eval "train"; Eval "valid"; Eval "test"] ∧
  training w1 = false ∧ grad_enabled w1 = false.
Proof.
  intros w0 w1 y_pred Hres Htr Hva Hte. split.
  - by eapply test_runs.
  - pose proof (flags_RGCN_forward model x_dict adj_t_dict w0) as Hf.
    unfold flags in Hf. fold w1 in Hf. by injection Hf as -> ->.
Qed.

Lemma test_spec_witness :
  ∃ result w' l,
    test Toy.model (Data.x_dict Toy.data_setup) (Data.adj_t_dict Toy.data_setup)
      [0; 1]%Z (Dataset.split_idx Toy.dataset) Toy.w_setup
    = Outcome (Ok result) w' l.
Proof.
  eexists _, _, _.
  eapply (@test_spec Toy.scalar Toy.torch).
  - vm_compute. reflexivity.
  - vm_compute. reflexivity.
  - vm_compute. reflexivity.
  - vm_compute. reflexivity.
Defined.



(** C4: a run of [main] that ends normally goes through the pipeline in
    the order of the spec.  After the arguments and the data are printed
    and the data and the model are moved to the device, each of the
    runs 0 to [runs - 1] resets the parameters and makes its optimizer;
    each of its epochs 1 to [epochs] does one training step (forward
    pass in training mode, loss, backward, optimizer step) and then the
    evaluation (forward pass in evaluation mode, the metric on the
    train, valid and test splits); the statistics of the run are
    printed after its epochs, and the statistics over all runs come
    last. *)
Theorem main_pipeline `{Torch} argv cuda dataset w w' l :
  main argv cuda dataset w = Outcome (Ok ()) w' l →
  ∃ args, argparse.parse_args argv = Ok args
          ∧ kind_of <$> l = main_kinds args.
Proof.
  intros Hr. apply main_runs_inv in Hr as (args & Hp & Hr).
  exists args. split; [done|]. by eapply main_args_kinds.
Qed.

Lemma main_pipeline_witness :
  ∃ args, @argparse.parse_args Toy.scalar Toy.torch Toy.argv = Ok args
          ∧ @kind_of Toy.scalar Toy.torch <$> trace Toy.main_run
            = main_kinds args.
Proof.
  refine (@main_pipeline Toy.scalar Toy.torch Toy.argv false Toy.dataset
            Toy.world0 (final Toy.main_run) (trace Toy.main_run) _).
  apply (outcome_eta Toy.main_run). vm_compute. reflexivity.
Defined.

(** C7, as the claim is worded, fails: with [--log_steps 2], one run
    and two epochs, [main] ends normally, the line of epoch 2 of the
    first run is printed and no line is printed for its epoch 1. *)
Lemma main_epoch_without_line :
  res Toy.main_run = Ok ()
  ∧ KPrintEpoch 1 2 ∈ (@kind_of Toy.scalar Toy.torch <$> trace Toy.main_run)
  ∧ KPrintEpoch 1 1 ∉ (@kind_of Toy.scalar Toy.torch <$> trace Toy.main_run).
Proof. split_and!; [vm_compute; reflexivity|by_compute..]. Qed.

(** C7, amended: the console output of a run of [main] that ends
    normally.  After the arguments and the data, every run 0 to
    [runs - 1] prints, for each of its epochs 1 to [epochs] that
    [log_steps] divides (every epoch, for the default [log_steps] of 1),
    one line with the run counted from 1, the epoch, the loss returned
    by the training step of the epoch and the three accuracies returned
    by the evaluation of the epoch; an epoch that [log_steps] does not
    divide prints nothing; the statistics of the run are printed after
    its epochs, and the statistics over all runs are printed last. *)
Theorem main_console `{Torch} argv cuda dataset w w' l :
  main argv cuda dataset w = Outcome (Ok ()) w' l →
  ∃ args model data train_idx lrs results,
    argparse.parse_args argv = Ok args ∧
    Forall2 (run_trace args model data (Dataset.split_idx dataset) train_idx)
            (range 0 (Namespace.runs args)) lrs ∧
    l = [PrintArgs args; PrintData;
         To (device_of args cuda); To (device_of args cuda)]
        ++ concat lrs ++ [PrintStatistics None results].
Proof.
  intros Hr. apply main_runs_inv in Hr as (args & Hp & Hr).
  apply main_args_runs_inv in Hr
    as (model & data & train_idx & w1 & l1 & lrs & rs & Hs & Hl & ->).
  apply setup_runs_inv in Hs as (-> & _).
  by exists args, model, data, train_idx, lrs, rs.
Qed.

Lemma main_console_witness :
  ∃ args model data train_idx lrs results,
    @argparse.parse_args Toy.scalar Toy.torch Toy.argv = Ok args ∧
    Forall2 (run_trace args model data (Dataset.split_idx Toy.dataset)
               train_idx)
            (range 0 (Namespace.runs args)) lrs ∧
    trace Toy.main_run
    = [PrintArgs args; PrintData;
       To (device_of args false); To (device_of args false)]
      ++ concat lrs ++ [PrintStatistics None results].
Proof.
  refine (@main_console Toy.scalar Toy.torch Toy.argv false Toy.dataset
            Toy.world0 (final Toy.main_run) (trace Toy.main_run) _).
  apply (outcome_eta Toy.main_run). vm_compute. reflexivity.
Defined.

(** C6: the command line has the flags [--device], [--num_layers],
    [--hidden_channels], [--dropout], [--lr], [--epochs] and [--runs];
    without arguments they have the defaults 0, 3, 256, 0.5, 0.01, 300
    and 10, and a flag followed by a value stores the value in its
    field.  In a run of [main] that ends normally the parsed values are
    the ones used: the model is built with [hidden_channels],
    [num_layers] and [dropout]; the data and the model are moved to the
    device [device] when cuda is available; every run makes its
    optimizer with [lr]; the runs are 0 to [runs - 1] and the epochs of
    each run are 1 to [epochs]. *)
Theorem main_uses_flags `{Torch} :
  argparse.parse_args []
  = Ok (Namespace.mk 0 1 false 3 256 (float_of_Q (1 # 2))
          (float_of_Q (1 # 100)) 300 10)
  ∧ (∀ v z argv ns, py_int v = Some z →
       argparse.parse ("--device" :: v :: argv) ns
       = argparse.parse argv (argparse.set_device z ns)
       ∧ argparse.parse ("--num_layers" :: v :: argv) ns
         = argparse.parse argv (argparse.set_num_layers z ns)
       ∧ argparse.parse ("--hidden_channels" :: v :: argv) ns
         = argparse.parse argv (argparse.set_hidden_channels z ns)
       ∧ argparse.parse ("--epochs" :: v :: argv) ns
         = argparse.parse argv (argparse.set_epochs z ns)
       ∧ argparse.parse ("--runs" :: v :: argv) ns
         = argparse.parse argv (argparse.set_runs z ns))
  ∧ (∀ v x argv ns, py_float v = Some x →
       argparse.parse ("--dropout" :: v :: argv) ns
       = argparse.parse argv (argparse.set_dropout x ns)
       ∧ argparse.parse ("--lr" :: v :: argv) ns
         = argparse.parse argv (argparse.set_lr x ns))
  ∧ (∀ argv cuda dataset w w' l,
       main argv cuda dataset w = Outcome (Ok ()) w' l →
       ∃ args in_channels model data train_idx lrs results,
         argparse.parse_args argv = Ok args ∧
         built_with in_channels (Namespace.hidden_channels args)
           (Dataset.num_classes dataset) (Namespace.num_layers args)
           (Namespace.dropout args) model ∧
         Forall2 (run_trace args model data (Dataset.split_idx dataset)
                    train_idx)
                 (range 0 (Namespace.runs args)) lrs ∧
         l = [PrintArgs args; PrintData;
              To (device_of args cuda); To (device_of args cuda)]
             ++ concat lrs ++ [PrintStatistics None results]).
Proof.
  split_and!.
  - done.
  - intros v z argv ns Hz. cbn. by rewrite Hz.
  - intros v x argv ns Hx. cbn. by rewrite Hx.
  - intros argv cuda dataset w w' l Hr.
    apply main_runs_inv in Hr as (args & Hp & Hr).
    apply main_args_runs_inv in Hr
      as (model & data & train_idx & w1 & l1 & lrs & rs & Hs & Hl & ->).
    apply setup_runs_inv in Hs as (-> & i & xt & w0 & Hinit).
    apply RGCN_init_built_with in Hinit.
    by exists args, i, model, data, train_idx, lrs, rs.
Qed.

Lemma main_uses_flags_witness :
  ∃ args in_channels model data train_idx lrs results,
    @argparse.parse_args Toy.scalar Toy.torch Toy.argv = Ok args ∧
    built_with in_channels (Namespace.hidden_channels args)
      (Dataset.num_classes Toy.dataset) (Namespace.num_layers args)
      (Namespace.dropout args) model ∧
    Forall2 (run_trace args model data (Dataset.split_idx Toy.dataset)
               train_idx)
            (range 0 (Namespace.runs args)) lrs ∧
    trace Toy.main_run
    = [PrintArgs args; PrintData;
       To (device_of args false); To (device_of args false)]
      ++ concat lrs ++ [PrintStatistics None results].
Proof.
  refine (proj2 (proj2 (proj2 (@main_uses_flags Toy.scalar Toy.torch)))
            Toy.argv false Toy.dataset Toy.world0
            (final Toy.main_run) (trace Toy.main_run) _).
  apply (outcome_eta Toy.main_run). vm_compute. reflexivity.
Defined.

(** C8: two runs of [main] whose parsed arguments differ only in
    [use_sage] end with the same result (or the same exception) in the
    same state, and their events are the same after the first one, the
    print of the arguments. *)
Theorem use_sage_not_read `{Torch} argv1 argv2 args1 args2 cuda dataset w :
  argparse.parse_args argv1 = Ok args1 →
  argparse.parse_args argv2 = Ok args2 →
  argparse.set_use_sage false args1 = argparse.set_use_sage false args2 →
  res (main argv1 cuda dataset w) = res (main argv2 cuda dataset w) ∧
  final (main argv1 cuda dataset w) = final (main argv2 cuda dataset w) ∧
  ∃ l, trace (main argv1 cuda dataset w) = PrintArgs args1 :: l ∧
       trace (main argv2 cuda dataset w) = PrintArgs args2 :: l.
Proof.
  intros H1 H2 Ha. unfold main. rewrite H1, H2, !lift_Ok_bind.
  destruct (main_args_use_sage args1 args2 cuda dataset w Ha)
    as (o & -> & ->).
  cbn. eauto.
Qed.

Lemma use_sage_not_read_witness :
  res (main Toy.argv false Toy.dataset Toy.world0)
  = res (main ("--use_sage" :: Toy.argv) false Toy.dataset Toy.world0) ∧
  final (main Toy.argv false Toy.dataset Toy.world0)
  = final (main ("--use_sage" :: Toy.argv) false Toy.dataset Toy.world0) ∧
  ∃ l, trace (main Toy.argv false Toy.dataset Toy.world0)
       = PrintArgs Toy.args_parsed :: l ∧
       trace (main ("--use_sage" :: Toy.argv) false Toy.dataset Toy.world0)
       = PrintArgs Toy.args_sage :: l.
Proof.
  refine (@use_sage_not_read Toy.scalar Toy.torch Toy.argv
            ("--use_sage" :: Toy.argv) Toy.args_parsed Toy.args_sage
            false Toy.dataset Toy.world0 _ _ _); reflexivity.
Defined.

(** * Further properties of the code *)

(** X1: whether it returns or raises, [test] leaves every tensor and
    every dictionary that was there as it was, and the gradients, the
    optimizers and the random generator too; the gradient mode is the
    one it found, and the model is in evaluation mode afterwards. *)
Theorem test_leaves_state `{Torch} model x_dict adj_t_dict y_true split_idx w :
  test_leaves w (final (test model x_dict adj_t_dict y_true split_idx w)).
Proof. apply test_final. Qed.

(** X2: whether it returns or raises, [train] leaves the model in
    training mode and the gradient mode as it found it; it changes no
    dictionary, and of the tensors that were there it changes only
    parameters of the optimizer. *)
Theorem train_leaves_state `{Torch} model x_dict adj_t_dict y_true train_idx
    optimizer w :
  train_leaves optimizer w
    (final (train model x_dict adj_t_dict y_true train_idx optimizer w)).
Proof. apply train_final. Qed.

(** X3: in evaluation mode the forward pass of the model draws no
    random number: dropout is off, and the random generator is left as
    it was. *)
Theorem forward_eval_draws_nothing `{Torch} self x_dict adj_t_dict w :
  training w = false →
  rng (final (RGCN.forward self x_dict adj_t_dict w)) = rng w.
Proof. intros Ht. by apply RGCN_forward_eval_rng. Qed.

Lemma forward_eval_draws_nothing_witness :
  rng (final (RGCN.forward Toy.model (Data.x_dict Toy.data_setup)
                (Data.adj_t_dict Toy.data_setup)
                (set_training false Toy.w_setup)))
  = rng (set_training false Toy.w_setup).
Proof.
  apply (@forward_eval_draws_nothing Toy.scalar Toy.torch). reflexivity.
Defined.

(** X4: the keys of [adj_t_dict] after the conversion loop are the
    original edge types and, for every original edge type [(s, r, d)]
    with [s ≠ d], the key [(d, 'to', s)]; there is no other key. *)
Theorem convert_keys `{Torch} (data data' : Data.t)
    (edge_index_dict : Dict EdgeType (list nat * list nat)) (k : EdgeType) :
  Data.edge_index_dict data = Some edge_index_dict →
  convert data = Ok data' →
  k ∈ dict_keys (Data.adj_t_dict data') ↔
  Exists (λ item, item_writes item k) edge_index_dict.
Proof.
  unfold convert. intros ->. cbn.
  destruct (convert_loop _ _ _) as [res|] eqn:Hloop; [|done].
  cbn. intros [= <-]. cbn. rewrite (convert_loop_keys _ _ _ _ _ Hloop).
  cbn. rewrite elem_of_nil. tauto.
Qed.

Lemma convert_keys_witness :
  ("paper", "to", "author") ∈ dict_keys (Data.adj_t_dict Toy.data_conv) ↔
  Exists (λ item, item_writes item ("paper", "to", "author"))
         (Dataset.edge_index_dict Toy.dataset).
Proof.
  apply (@convert_keys Toy.scalar Toy.torch Toy.data Toy.data_conv);
    reflexivity.
Defined.

(** X5: after the conversion loop, the adjacency at a key [(s, r, d)]
    of [adj_t_dict] has [num_nodes_dict[d]] rows and [num_nodes_dict[s]]
    columns: one row for every node of the destination type. *)
Theorem convert_sizes `{Torch} (data data' : Data.t) :
  convert data = Ok data' →
  sized (Data.num_nodes_dict data) (Data.adj_t_dict data').
Proof.
  unfold convert. destruct (Data.edge_index_dict data) as [eid|]; [|done].
  cbn. destruct (convert_loop _ _ _) as [res|] eqn:Hloop; [|done].
  cbn. intros [= <-]. cbn. eapply convert_loop_sized; [done|].
  by intros s r d A.
Qed.

Lemma convert_sizes_witness :
  sized (Data.num_nodes_dict Toy.data) (Data.adj_t_dict Toy.data_conv).
Proof. apply (@convert_sizes Toy.scalar Toy.torch Toy.data). reflexivity. Defined.

(** X6: the conversion loop raises [KeyError] when a node type of
    some edge type has no entry in [num_nodes_dict]. *)
Theorem convert_unknown_node_type `{Torch} (data : Data.t)
    (edge_index_dict : Dict EdgeType (list nat * list nat)) :
  Data.edge_index_dict data = Some edge_index_dict →
  Exists (λ key : EdgeType,
            key.1.1 ∉ dict_keys (Data.num_nodes_dict data) ∨
            key.2 ∉ dict_keys (Data.num_nodes_dict data))
         (dict_keys edge_index_dict) →
  convert data = Raise KeyError.
Proof.
  unfold convert. intros -> Hex. cbn.
  by rewrite (convert_loop_KeyError _ _ _ Hex).
Qed.

Lemma convert_unknown_node_type_witness :
  convert Toy.data_unknown = Raise KeyError.
Proof.
  apply (@convert_unknown_node_type Toy.scalar Toy.torch Toy.data_unknown
           [(("a", "to", "b"), ([0], [0]))]); [reflexivity|by_compute].
Defined.

(** X7: the conversion loop cannot be run a second time: it leaves
    [edge_index_dict] at [None], and iterating over it again raises
    [AttributeError]. *)
Theorem convert_twice `{Torch} (data data' : Data.t) :
  convert data = Ok data' → convert data' = Raise AttributeError.
Proof.
  unfold convert at 1. destruct (Data.edge_index_dict data) as [eid|]; [|done].
  cbn. destruct (convert_loop _ _ _) as [res|]; [|done].
  cbn. by intros [= <-].
Qed.

Lemma convert_twice_witness : convert Toy.data_conv = Raise AttributeError.
Proof. apply (@convert_twice Toy.scalar Toy.torch Toy.data). reflexivity. Defined.

(** X8: a layer that [RGCNConv.__init__] has built has a root
    transform for each of its node types and no other, a relation
    transform under the name of each of its edge types and no other,
    and the parameters of all of them are tensors of the state: the
    lookups of [forward] in [root_lins] and [rel_lins] do not fail. *)
Theorem RGCNConv_init_builds `{Torch} in_channels out_channels node_types
    edge_types w self :
  res (RGCNConv.init in_channels out_channels node_types edge_types w)
  = Ok self →
  conv_built node_types edge_types
    (final (RGCNConv.init in_channels out_channels node_types edge_types w))
    self.
Proof.
  intros Hres. pose proof (outcome_eta _ _ Hres) as Hr.
  by apply RGCNConv_init_built in Hr as [_ ?].
Qed.

Lemma RGCNConv_init_builds_witness :
  conv_built ["author"; "paper"]
    [("author", "writes", "paper"); ("paper", "cites", "paper")]
    Toy.w_conv Toy.conv.
Proof.
  apply (@RGCNConv_init_builds Toy.scalar Toy.torch 2 2 ["author"; "paper"]
           [("author", "writes", "paper"); ("paper", "cites", "paper")]
           Toy.w_feat Toy.conv).
  reflexivity.
Defined.

(** X9: the name [f'{key[0]}_{key[1]}_{key[2]}'] of a relation layer
    tells the edge types apart when their first two parts hold no
    underscore; with underscores two edge types can have the same
    name, and then share one relation transform. *)
Theorem key_str_injective :
  (∀ k1 k2 : EdgeType,
     occurs underscore k1.1.1 = false → occurs underscore k1.1.2 = false →
     occurs underscore k2.1.1 = false → occurs underscore k2.1.2 = false →
     RGCNConv.key_str k1 = RGCNConv.key_str k2 → k1 = k2)
  ∧ ∃ k1 k2 : EdgeType,
      k1 ≠ k2 ∧ RGCNConv.key_str k1 = RGCNConv.key_str k2.
Proof.
  split; [apply key_str_inj_aux|].
  by exists ("a_b", "c", "d"), ("a", "b_c", "d").
Qed.

Lemma key_str_injective_witness :
  (("author", "writes", "paper") : string * string * string)
  = ("author", "writes", "paper").
Proof.
  apply (proj1 key_str_injective ("author", "writes", "paper")
           ("author", "writes", "paper")); reflexivity.
Defined.

(** X10: a model that [RGCN.__init__] has built has an embedding for
    exactly the node types of [num_nodes_dict] that are not in
    [x_types] and an input layer for exactly the node types in
    [x_types], so no node type has both; its hidden layers are over
    all node types and edge types, and its last layer is over the
    output node type alone and the edge types that end in it. *)
Theorem RGCN_init_builds `{Torch} in_channels hidden_channels out_channels
    num_layers dropout num_nodes_dict x_types edge_types out_type w model :
  res (RGCN.init in_channels hidden_channels out_channels num_layers dropout
         num_nodes_dict x_types edge_types out_type w) = Ok model →
  model_built num_nodes_dict x_types edge_types out_type model.
Proof.
  intros Hres. pose proof (outcome_eta _ _ Hres) as Hr.
  by apply RGCN_init_built in Hr.
Qed.

Lemma RGCN_init_builds_witness :
  model_built (Dataset.num_nodes_dict Toy.dataset) ["paper"]
    (dict_keys Toy.adj_t_dict) "paper" Toy.rgcn.
Proof.
  apply (@RGCN_init_builds Toy.scalar Toy.torch 2 2 2 2 (1 # 2)%Q
           (Dataset.num_nodes_dict Toy.dataset) ["paper"]
           (dict_keys Toy.adj_t_dict) "paper" Toy.w_feat Toy.rgcn).
  unfold Toy.rgcn. apply res_Ok_default. vm_compute. reflexivity.
Defined.

(** X11: when [RGCNConv.forward] returns, it has found every key it
    looked up: each node type of the layer is a key of [root_lins] and
    of [x_dict]; for each edge type of the layer, the source type is a
    key of [x_dict], the edge type is a key of [adj_t_dict], its name
    is a key of [rel_lins], and its destination type is a node type of
    the layer.  Otherwise it raises. *)
Theorem RGCNConv_forward_found `{Torch} self x_dict adj_t_dict w out_dict :
  x_dict < length (dicts w) →
  res (RGCNConv.forward self x_dict adj_t_dict w) = Ok out_dict →
  conv_keys self (dict_at w x_dict) adj_t_dict.
Proof.
  intros Hx Hres. pose proof (outcome_eta _ _ Hres) as Hr.
  by eapply RGCNConv_forward_needs.
Qed.

Lemma RGCNConv_forward_found_witness :
  conv_keys Toy.conv (dict_at Toy.w_conv 0) Toy.adj_t_dict.
Proof.
  apply (@RGCNConv_forward_found Toy.scalar Toy.torch Toy.conv 0
           Toy.adj_t_dict Toy.w_conv 1).
  - vm_compute. lia.
  - vm_compute. reflexivity.
Defined.

(** X12: when [RGCN.forward] returns, every key of the [x_dict] it was
    given has an input layer in [lins], and the model has a last
    layer. *)
Theorem RGCN_forward_found `{Torch} self x_dict adj_t_dict w out :
  res (RGCN.forward self x_dict adj_t_dict w) = Ok out →
  Forall (λ key, key ∈ dict_keys (RGCN.lins self))
         (dict_keys (dict_at w x_dict))
  ∧ RGCN.convs self ≠ [].
Proof.
  intros Hres. pose proof (outcome_eta _ _ Hres) as Hr.
  by eapply RGCN_forward_needs.
Qed.

Lemma RGCN_forward_found_witness :
  Forall (λ key, key ∈ dict_keys (RGCN.lins Toy.model))
         (dict_keys (dict_at Toy.w_setup (Data.x_dict Toy.data_setup)))
  ∧ RGCN.convs Toy.model ≠ [].
Proof.
  apply (@RGCN_forward_found Toy.scalar Toy.torch Toy.model
           (Data.x_dict Toy.data_setup) (Data.adj_t_dict Toy.data_setup)
           Toy.w_setup 31).
  vm_compute. reflexivity.
Defined.

(** X13: [main] cannot end normally with [--log_steps 0] when there is
    at least one run of at least one epoch: the test
    [epoch % args.log_steps] of the first epoch divides by zero. *)
Theorem main_needs_log_steps `{Torch} argv cuda dataset w w' l args :
  main argv cuda dataset w = Outcome (Ok ()) w' l →
  argparse.parse_args argv = Ok args →
  (0 < Namespace.runs args)%Z → (0 < Namespace.epochs args)%Z →
  Namespace.log_steps args ≠ 0%Z.
Proof.
  intros Hr Hp Hruns Hep. apply main_runs_inv in Hr as (args' & Hp' & Hr).
  assert (args' = args) as -> by congruence.
  by eapply main_args_log_steps.
Qed.

Lemma main_needs_log_steps_witness :
  Namespace.log_steps Toy.args_parsed ≠ 0%Z.
Proof.
  apply (@main_needs_log_steps Toy.scalar Toy.torch Toy.argv false Toy.dataset
           Toy.world0 (final Toy.main_run) (trace Toy.main_run)
           Toy.args_parsed).
  - apply (outcome_eta Toy.main_run). vm_compute. reflexivity.
  - reflexivity.
  - reflexivity.
  - reflexivity.
Defined.

(** X14: with [log_steps] at 0, an epoch whose training step and
    evaluation return raises [ZeroDivisionError]: the model has been
    trained and evaluated once before [main] fails. *)
Theorem epoch_log_steps_zero `{Torch} args model data split_idx train_idx
    optimizer run logger epoch w y loss result :
  Namespace.log_steps args = 0%Z →
  getitem (Data.y_dict data) "paper" = Ok y →
  res (train model (Data.x_dict data) (Data.adj_t_dict data) y train_idx
         optimizer w) = Ok loss →
  res (test model (Data.x_dict data) (Data.adj_t_dict data) y split_idx
         (final (train model (Data.x_dict data) (Data.adj_t_dict data) y
                   train_idx optimizer w))) = Ok result →
  res (epoch_body args model data split_idx train_idx optimizer run logger
         epoch w) = Raise ZeroDivisionError.
Proof.
  intros Hlog Hy Htr Hte.
  eapply epoch_body_ZeroDivisionError; [done..| |].
  - exact (outcome_eta _ _ Htr).
  - exact (outcome_eta _ _ Hte).
Qed.

Lemma epoch_log_steps_zero_witness :
  res (epoch_body Toy.args_zero Toy.model Toy.data_setup
         (Dataset.split_idx Toy.dataset) [0] 0 0
         (Logger.init 1 Toy.args_zero) 1 Toy.w_start)
  = Raise ZeroDivisionError.
Proof.
  eapply (@epoch_log_steps_zero Toy.scalar Toy.torch Toy.args_zero Toy.model
            Toy.data_setup (Dataset.split_idx Toy.dataset) [0] 0 0
            (Logger.init 1 Toy.args_zero) 1 Toy.w_start [0; 1]%Z).
  - reflexivity.
  - vm_compute. reflexivity.
  - apply res_Ok_default with (d := 0%Q). vm_compute. reflexivity.
  - apply res_Ok_default with (d := (0%Q, 0%Q, 0%Q)). vm_compute. reflexivity.
Defined.

(** X15: in a run of [main] that ends normally, the zeroing of the
    gradients, the forward pass in training mode, the loss, the backward
    pass, the optimizer step, the forward pass in evaluation mode and
    the evaluation of each split each happen [runs * epochs] times,
    where a count that is not positive counts as 0: with [--runs 0] or
    [--epochs 0] the model is neither trained nor evaluated. *)
Theorem main_counts `{Torch} argv cuda dataset w w' l args k :
  main argv cuda dataset w = Outcome (Ok ()) w' l →
  argparse.parse_args argv = Ok args →
  once_an_epoch k →
  count k (kind_of <$> l)
  = Z.to_nat (Namespace.runs args) * Z.to_nat (Namespace.epochs args).
Proof.
  intros Hr Hp Hk. apply main_runs_inv in Hr as (args' & Hp' & Hr).
  assert (args' = args) as -> by congruence.
  rewrite (main_args_kinds _ _ _ _ _ _ _ Hr). by apply count_main_kinds.
Qed.

Lemma main_counts_witness :
  count KStep (@kind_of Toy.scalar Toy.torch <$> trace Toy.main_run)
  = Z.to_nat (Namespace.runs Toy.args_parsed)
    * Z.to_nat (Namespace.epochs Toy.args_parsed).
Proof.
  apply (@main_counts Toy.scalar Toy.torch Toy.argv false Toy.dataset
           Toy.world0 (final Toy.main_run) (trace Toy.main_run)
           Toy.args_parsed KStep).
  - apply (outcome_eta Toy.main_run). vm_compute. reflexivity.
  - reflexivity.
  - by_compute.
Defined.

(** X16: without cuda the value of [--device] is not used: two runs of
    [main] whose parsed arguments differ only in [device] end with the
    same result, or the same exception, in the same state, and their
    events are the same after the print of the arguments. *)
Theorem device_not_used_without_cuda `{Torch} argv1 argv2 args1 args2
    dataset w :
  argparse.parse_args argv1 = Ok args1 →
  argparse.parse_args argv2 = Ok args2 →
  argparse.set_device 0 args1 = argparse.set_device 0 args2 →
  res (main argv1 false dataset w) = res (main argv2 false dataset w) ∧
  final (main argv1 false dataset w) = final (main argv2 false dataset w) ∧
  ∃ l, trace (main argv1 false dataset w) = PrintArgs args1 :: l ∧
       trace (main argv2 false dataset w) = PrintArgs args2 :: l.
Proof.
  intros H1 H2 Ha. unfold main. rewrite H1, H2, !lift_Ok_bind.
  destruct (main_args_no_cuda args1 args2 dataset w Ha) as (o & -> & ->).
  cbn. eauto.
Qed.

Lemma device_not_used_without_cuda_witness :
  res (main Toy.argv false Toy.dataset Toy.world0)
  = res (main ("--device" :: "3" :: Toy.argv) false Toy.dataset Toy.world0) ∧
  final (main Toy.argv false Toy.dataset Toy.world0)
  = final (main ("--device" :: "3" :: Toy.argv) false Toy.dataset
             Toy.world0) ∧
  ∃ l, trace (main Toy.argv false Toy.dataset Toy.world0)
       = PrintArgs Toy.args_parsed :: l ∧
       trace (main ("--device" :: "3" :: Toy.argv) false Toy.dataset
                Toy.world0)
       = PrintArgs Toy.args_device :: l.
Proof.
  refine (@device_not_used_without_cuda Toy.scalar Toy.torch Toy.argv
            ("--device" :: "3" :: Toy.argv) Toy.args_parsed Toy.args_device
            Toy.dataset Toy.world0 _ _ _); reflexivity.
Defined.

(** X17: [RGCN.reset_parameters] re-initialises in place: it makes no
    new tensor, changes no dictionary, and leaves every tensor that is
    not a parameter of the model as it was. *)
Theorem reset_parameters_writes `{Torch} (model : RGCN.t) (w : world) :
  let w' := final (RGCN.reset_parameters model w) in
  dicts w' = dicts w ∧
  length (tensors w') = length (tensors w) ∧
  ∀ p, p ∉ RGCN.parameters model → tensors w' !! p = tensors w !! p.
Proof. apply touches_RGCN. Qed.

(** X18: a layer that [RGCNConv.__init__] has built returns from
    [forward], in any later state, when [x_dict] is a dictionary of
    tensors with a key for every node type of the layer and for the
    source type of every edge type, [adj_t_dict] has every edge type
    of the layer as a key, every edge type ends in a node type of
    the layer, and the shapes fit: the parameters still have the shapes
    of their construction, every feature tensor has [in_channels]
    columns, and every adjacency has a column for every source node and
    a row for every target node (or a single row). *)
Theorem built_conv_forward_returns `{Torch} in_channels out_channels
    node_types edge_types w0 self x_dict adj_t_dict w :
  res (RGCNConv.init in_channels out_channels node_types edge_types w0)
  = Ok self →
  length (tensors (final (RGCNConv.init in_channels out_channels node_types
                            edge_types w0))) ≤ length (tensors w) →
  dict_valid w x_dict →
  Forall (λ k, k ∈ dict_keys (dict_at w x_dict)) node_types →
  Forall (λ key : EdgeType,
            key.1.1 ∈ dict_keys (dict_at w x_dict) ∧
            key ∈ dict_keys adj_t_dict ∧ key.2 ∈ node_types) edge_types →
  conv_shapes w self (dict_at w x_dict) adj_t_dict →
  ∃ out_dict, res (RGCNConv.forward self x_dict adj_t_dict w) = Ok out_dict.
Proof.
  intros Hres Hle Hx Hnodes Hedges Hshapes.
  pose proof (outcome_eta _ _ Hres) as Hr.
  apply RGCNConv_init_built in Hr as (_ & Hnt & Het & Hv & Hroot & Hrel).
  assert (Hself : conv_valid w self).
  { eapply Forall_impl; [exact Hv|]. intros lin. by apply Linear_valid_mono. }
  assert (Hkeys : conv_keys self (dict_at w x_dict) adj_t_dict).
  { split.
    - rewrite Hnt. apply Forall_forall. intros k Hk. split.
      + by apply Hroot.
      + by eapply Forall_forall in Hnodes.
    - rewrite Het. apply Forall_forall. intros key Hkey.
      eapply Forall_forall in Hedges as (Hs & Ha & Hd); [|done].
      split_and!; [done|done| |by rewrite Hnt].
      apply Hrel. apply list_elem_of_fmap. by exists key. }
  destruct (RGCNConv_forward_correct w self x_dict adj_t_dict Hx Hself Hkeys
              Hshapes) as [Hout _].
  by eexists.
Qed.

Lemma built_conv_forward_returns_witness :
  ∃ out_dict,
    res (RGCNConv.forward Toy.conv 0 Toy.adj_t_dict Toy.w_conv) = Ok out_dict.
Proof.
  apply (@built_conv_forward_returns Toy.scalar Toy.torch 2 2
           ["author"; "paper"]
           [("author", "writes", "paper"); ("paper", "cites", "paper")]
           Toy.w_feat Toy.conv 0 Toy.adj_t_dict Toy.w_conv).
  - reflexivity.
  - vm_compute. lia.
  - split; [vm_compute; lia|by_compute].
  - by_compute.
  - by_compute.
  - by_compute.
Defined.

(** X19: [RGCNConv.forward] does not return when the features of some
    node type of the layer have a width that differs from the width of
    the weight of its root layer: [self.root_lins[key](x_dict[key])]
    raises for this node type, if no earlier step of the loop has
    raised. *)
Theorem RGCNConv_forward_width_mismatch `{Torch} (self : RGCNConv.t)
    (x_dict : nat) (adj_t_dict : Dict EdgeType SparseTensor) (w : world)
    (k : string) (lin : Linear.t) (x : loc) :
  dict_valid w x_dict →
  conv_valid w self →
  k ∈ RGCNConv.node_types self →
  dict_get k (RGCNConv.root_lins self) = Some lin →
  dict_get k (dict_at w x_dict) = Some x →
  ncols (tensor_at w x) ≠ ncols (tensor_at w (Linear.weight lin)) →
  ∃ e, res (RGCNConv.forward self x_dict adj_t_dict w) = Raise e.
Proof.
  intros [Hxlt Hxv] Hself Hin Hlin Hxl Hne.
  destruct (RGCNConv.forward self x_dict adj_t_dict w) as [[out|e] w' l]
    eqn:Hrun; [exfalso|by eexists].
  change (runs_to (RGCNConv.forward self x_dict adj_t_dict) w out w' l) in Hrun.
  unfold RGCNConv.forward in Hrun.
  apply bind_runs_inv in Hrun as (o & w1 & l1 & l2 & Hnew & Hr & ->).
  apply new_dict_runs_inv in Hnew as (-> & -> & _).
  apply bind_runs_inv in Hr as ([] & w2 & l3 & l4 & Hloop1 & _ & _).
  apply (for_runs_ind _ (λ done w', ext w w' ∧ k ∉ done)) in Hloop1
    as [_ Hk]; [done| |].
  - intros done key w5 [] w6 l7 [Hext Hd] Hstep.
    unfold Linear.forward, dict_setitem, dict_getitem, dict_items in Hstep.
    runs_inv Hstep.
    match goal with
    | Ha : runs_to (alloc _) _ _ _ _ |- _ =>
        apply alloc_runs_inv in Ha as (? & ? & ?)
    end.
    subst. split.
    + apply ext_setitem; [by apply ext_alloc|done].
    + rewrite not_elem_of_app, list_elem_of_singleton. split; [done|].
      intros ->.
      match goal with
      | Hg : getitem (RGCNConv.root_lins self) key = Ok ?a |- _ =>
          apply getitem_Ok in Hg; assert (a = lin) as -> by congruence
      end.
      match goal with
      | Hg : getitem (dict_at _ x_dict) key = Ok ?a |- _ =>
          apply getitem_Ok in Hg; rewrite (ext_dict_at w) in Hg by done;
          assert (a = x) as -> by congruence
      end.
      match goal with
      | Hg : Linear.apply _ lin _ = Ok _ |- _ =>
          rewrite (Linear_apply_ext w), (ext_tensor_at w) in Hg
      end.
      * unfold Linear.apply in *. by rewrite F_linear_width_mismatch in *.
      * done.
      * rewrite Forall_forall in Hxv. apply Hxv.
        by eapply dict_get_Some_values.
      * done.
      * unfold conv_valid in Hself. rewrite Forall_forall in Hself.
        apply Hself, elem_of_app. right. by eapply dict_get_Some_values.
  - split; [apply ext_new_dict, ext_refl|]. by intros ?%elem_of_nil.
Qed.

Lemma RGCNConv_forward_width_mismatch_witness :
  ∃ e, res (RGCNConv.forward Toy.conv 0 Toy.adj_t_dict Toy.w_wide) = Raise e.
Proof.
  eapply (RGCNConv_forward_width_mismatch Toy.conv 0 Toy.adj_t_dict
            Toy.w_wide "paper" (Linear.mk 2 2 6 (Some 7)) 0).
  - split; [vm_compute; lia|by_compute].
  - by_compute.
  - by_compute.
  - vm_compute. reflexivity.
  - vm_compute. reflexivity.
  - vm_compute. lia.
Defined.
